(** * ZergLang bootstrap front end: lexer and parser

    A shallow embedding of [bootstrap/zergb/lexer.py] and
    [bootstrap/zergb/parser.py].

    - Python [str] values are [string]s; a source text is the sequence of its
      UTF-8 bytes.  Every character the lexer tests for is ASCII, so the
      segmentation of a text is the same on bytes and on code points.
    - A generator is the finite list of the tokens it yields together with the
      way it ends: it returns, it raises, or (for the model's bounded loops)
      it runs out of fuel.
    - AST nodes are mutable Python objects: they live in a heap indexed by
      their identity, and [__add__] updates the heap in place. *)

From Stdlib Require Import String Ascii List Arith Lia Bool.
From stdpp Require Import base option list strings.
Import ListNotations.

(* ===================================================================== *)
(** ** lexer.py: [TokenType] *)
(* ===================================================================== *)

Inductive TokenType : Type :=
  | ROOT
  | UNKNOWN | NEWLINE | COMMENT
  | INDENT | DEDENT | SPACE
  | STRING | NAME
  (* known operators *)
  | ADD | SUB | MUL | DIV | MOD | NEG | INC | DEC
  | LT | GT | AND | OR | NOT | XOR | LSHIFT | RSHIFT
  | LPARENTHESES | RPARENTHESES | LBRACE | RBRACE | LBRACKET | RBRACKET
  | ARROW
  (* known reserved keywords *)
  | FN | PRINT | NOP.

#[global] Instance TokenType_eq_dec : EqDecision TokenType.
Proof. solve_decision. Defined.

(** The value of an enumeration member: [enum.auto()] gives the integers
    1, 2, ... in definition order, the others are the spelling. *)
Inductive EnumValue : Type :=
  | IntValue (n : nat)
  | StrValue (s : string).

#[global] Instance EnumValue_eq_dec : EqDecision EnumValue.
Proof. solve_decision. Defined.

Definition value (ty : TokenType) : EnumValue :=
  match ty with
  | ROOT => IntValue 1
  | UNKNOWN => IntValue 2
  | NEWLINE => IntValue 3
  | COMMENT => IntValue 4
  | INDENT => IntValue 5
  | DEDENT => IntValue 6
  | SPACE => IntValue 7
  | STRING => IntValue 8
  | NAME => IntValue 9
  | ADD => StrValue "+"
  | SUB => StrValue "-"
  | MUL => StrValue "*"
  | DIV => StrValue "/"
  | MOD => StrValue "%"
  | NEG => StrValue "~"
  | INC => StrValue "++"
  | DEC => StrValue "--"
  | LT => StrValue "<"
  | GT => StrValue ">"
  | AND => StrValue "&"
  | OR => StrValue "|"
  | NOT => StrValue "!"
  | XOR => StrValue "^"
  | LSHIFT => StrValue "<<"
  | RSHIFT => StrValue ">>"
  | LPARENTHESES => StrValue "("
  | RPARENTHESES => StrValue ")"
  | LBRACE => StrValue "{"
  | RBRACE => StrValue "}"
  | LBRACKET => StrValue "["
  | RBRACKET => StrValue "]"
  | ARROW => StrValue "->"
  | FN => StrValue "fn"
  | PRINT => StrValue "print"
  | NOP => StrValue "nop"
  end.

(** The members, in definition order. *)
Definition members : list TokenType :=
  [ ROOT; UNKNOWN; NEWLINE; COMMENT; INDENT; DEDENT; SPACE; STRING; NAME;
    ADD; SUB; MUL; DIV; MOD; NEG; INC; DEC; LT; GT; AND; OR; NOT; XOR;
    LSHIFT; RSHIFT; LPARENTHESES; RPARENTHESES; LBRACE; RBRACE; LBRACKET;
    RBRACKET; ARROW; FN; PRINT; NOP ].

(** [TokenType(raw)]: the member whose value is [raw]; [None] stands for the
    [ValueError] that Python raises when no member has that value.  [raw] is
    always a [str] here, so no [enum.auto()] member is ever found. *)
Definition TokenType_call (raw : string) : option TokenType :=
  List.find (fun ty => bool_decide (value ty = StrValue raw)) members.

(* ===================================================================== *)
(** ** lexer.py: [Token] *)
(* ===================================================================== *)

Record Token : Type := mkToken { raw : string; type : TokenType }.

#[global] Instance Token_eq_dec : EqDecision Token.
Proof. solve_decision. Defined.

(** [Token.__str__] (and [__repr__], which calls it). *)
Definition Token_str (self : Token) : string :=
  match type self with
  | SPACE => "[SPACE]"
  | NEWLINE => "[NEWLINE]"
  | _ => raw self
  end.

(* ===================================================================== *)
(** ** Exceptions and generators *)
(* ===================================================================== *)

Inductive Exn : Type :=
  | ValueError (msg : string)
  | IndexError
  | StopIteration
  | NotImplementedError
  | AttributeError (msg : string)
  | RecursionError.

(** How a generator ends once its tokens are exhausted. *)
Inductive End : Type :=
  | Return
  | Raise (e : Exn)
  | OutOfFuel.

(** A generator run to completion: the tokens it yields, then its end. *)
Definition Gen : Type := list Token * End.

Definition gen_empty : Gen := ([], Return).

(** [yield t], then the rest of the generator body. *)
Definition gen_yield (t : Token) (k : Gen) : Gen := (t :: k.1, k.2).

(** [yield from g], then the rest of the generator body; an exception in [g]
    leaves the body. *)
Definition gen_from (g k : Gen) : Gen :=
  match g.2 with
  | Return => (g.1 ++ k.1, k.2)
  | _ => g
  end.

(** [for token in tokens: body(token)] inside a generator, where [tokens]
    yields [ts] and then ends with [e]. *)
Fixpoint gen_for (body : Token -> Gen) (ts : list Token) (e : End) : Gen :=
  match ts with
  | [] => ([], e)
  | t :: ts' => gen_from (body t) (gen_for body ts' e)
  end.

(** [repr(s)] for a [str] of ASCII characters: the text between single
    quotes, or between double quotes when it has a single quote and no double
    quote; the quote in use and the backslash are escaped with a backslash,
    tab, newline and carriage return are written [\t], [\n] and [\r], and
    the other control characters [\xhh].  (A character outside ASCII is
    several bytes here and one code point in Python, which escapes it when it
    is not printable: [repr] is the code's only on ASCII text.) *)
Definition hex_digit (n : nat) : ascii :=
  match n with
  | 0 => "0" | 1 => "1" | 2 => "2" | 3 => "3" | 4 => "4" | 5 => "5"
  | 6 => "6" | 7 => "7" | 8 => "8" | 9 => "9" | 10 => "a" | 11 => "b"
  | 12 => "c" | 13 => "d" | 14 => "e" | _ => "f"
  end%char.

Definition repr_char (quote c : ascii) : string :=
  let n := nat_of_ascii c in
  if Ascii.eqb c quote || Ascii.eqb c "\"
  then String "\" (String c EmptyString)
  else if Ascii.eqb c "009" then "\t"
  else if Ascii.eqb c "010" then "\n"
  else if Ascii.eqb c "013" then "\r"
  else if (n <? 32) || (n =? 127)
  then String "\" (String "x" (String (hex_digit (n / 16))
                                  (String (hex_digit (n mod 16)) EmptyString)))
  else String c EmptyString.

Fixpoint has_char (c : ascii) (s : string) : bool :=
  match s with
  | EmptyString => false
  | String d s' => Ascii.eqb c d || has_char c s'
  end.

Fixpoint repr_chars (quote : ascii) (s : string) : string :=
  match s with
  | EmptyString => EmptyString
  | String c s' => repr_char quote c +:+ repr_chars quote s'
  end.

Definition repr (s : string) : string :=
  let quote : ascii :=
    (if has_char "'" s && negb (has_char "034" s) then "034" else "'")%char in
  String quote (repr_chars quote s +:+ String quote EmptyString).

(** The [ValueError] of a failed [TokenType(raw)]: the enumeration prints the
    value with [%r]. *)
Definition not_a_valid_TokenType (raw : string) : Exn :=
  ValueError (repr raw +:+ " is not a valid TokenType").

(** [TokenType.yield_tokens(raw)], on a stack that has room for every
    generator it nests, one per character it peels off ([yield_tokens_within]
    has the bound). *)
Fixpoint yield_tokens (raw : string) : Gen :=
  match TokenType_call raw with
  | Some ty => gen_yield (mkToken raw ty) gen_empty
  | None =>
      (* except ValueError: first, remains = raw[0], raw[1:] *)
      match raw with
      | EmptyString => ([], Raise IndexError)
      | String c remains =>
          let first := String c EmptyString in
          match TokenType_call first with
          | Some ty => gen_yield (mkToken first ty) (yield_tokens remains)
          | None => ([], Raise (not_a_valid_TokenType first))
          end
      end
  end.

(* ===================================================================== *)
(** ** lexer.py: [Lexer] *)
(* ===================================================================== *)

Definition OPERATORS : string := "+-*/%<>&|!^~(){}[]".

(** [c in s] for a one-character [c]. *)
Fixpoint char_in (c : ascii) (s : string) : bool :=
  match s with
  | EmptyString => false
  | String d s' => Ascii.eqb c d || char_in c s'
  end.

(** [src[start:stop]]; slices clip at the end of the string. *)
Definition slice (src : string) (start stop : nat) : string :=
  substring start (stop - start) src.

Definition newline : ascii := "010"%char.
Definition tab : ascii := "009"%char.
Definition dquote : ascii := "034"%char.

(** [while stop < len(src) and continue(src[stop]): stop += 1], returning the
    final [stop]; [None] when the fuel does not reach the end of the loop. *)
Fixpoint scan (continue : ascii -> bool) (src : string) (stop fuel : nat)
  : option nat :=
  if stop <? String.length src then
    match String.get stop src with
    | Some c =>
        if continue c then
          match fuel with
          | 0 => None
          | S fuel' => scan continue src (stop + 1) fuel'
          end
        else Some stop
    | None => Some stop
    end
  else Some stop.

(** The loop of [Lexer.lexer_by_tokens], started at [index]. *)
Fixpoint lexer_by_tokens_loop (fuel : nat) (src : string) (index : nat) : Gen :=
  if index <? String.length src then
    match fuel with
    | 0 => ([], OutOfFuel)
    | S fuel' =>
        match String.get index src with
        | None => ([], Raise IndexError)
        | Some ch =>
            let tt := String ch EmptyString in
            if Ascii.eqb ch newline then
              gen_yield (mkToken tt NEWLINE)
                (lexer_by_tokens_loop fuel' src (index + 1))
            else if Ascii.eqb ch "/" then
              if (index + 1 <? String.length src)
                 && bool_decide (String.get (index + 1) src = Some "/"%char)
              then
                match scan (fun c => negb (Ascii.eqb c newline)) src
                        (index + 2) (String.length src) with
                | None => ([], OutOfFuel)
                | Some stop =>
                    gen_yield (mkToken (slice src index stop) COMMENT)
                      (lexer_by_tokens_loop fuel' src (stop + 1))
                end
              else
                gen_yield (mkToken tt UNKNOWN)
                  (lexer_by_tokens_loop fuel' src (index + 1))
            else if Ascii.eqb ch " " || Ascii.eqb ch tab then
              match scan (fun c => char_in c (String " " (String tab EmptyString)))
                      src (index + 1) (String.length src) with
              | None => ([], OutOfFuel)
              | Some stop =>
                  gen_yield (mkToken (slice src index stop) SPACE)
                    (lexer_by_tokens_loop fuel' src (stop - 1 + 1))
              end
            else if Ascii.eqb ch dquote then
              match scan (fun c => negb (Ascii.eqb c dquote)) src
                      (index + 1) (String.length src) with
              | None => ([], OutOfFuel)
              | Some stop =>
                  gen_yield (mkToken (slice src index (stop + 1)) STRING)
                    (lexer_by_tokens_loop fuel' src (stop + 1))
              end
            else
              match scan (fun c => negb (char_in c
                            (String " " (String tab (String newline EmptyString)))))
                      src index (String.length src) with
              | None => ([], OutOfFuel)
              | Some stop =>
                  gen_yield (mkToken (slice src index stop) UNKNOWN)
                    (lexer_by_tokens_loop fuel' src (stop - 1 + 1))
              end
        end
    end
  else gen_empty.

(** [Lexer.lexer_by_tokens]: every iteration moves [index] forward, so
    [len(src)] iterations are enough (see [lexer_by_tokens_loop_fuel]). *)
Definition lexer_by_tokens (src : string) : Gen :=
  lexer_by_tokens_loop (String.length src) src 0.

(** [if s:] on a string. *)
Definition nonempty (s : string) : bool :=
  match s with
  | EmptyString => false
  | String _ _ => true
  end.

(** The body of [for tt in token.raw] in [Lexer.lexer_extract_operator],
    followed by the two flushes after the loop; [remains] and [operators] are
    the loop's two accumulators. *)
Fixpoint extract_operator_chars (chars remains operators : string) : Gen :=
  match chars with
  | String ch chars' =>
      let tt := String ch EmptyString in
      if char_in ch OPERATORS then
        if nonempty remains then
          gen_yield (mkToken remains UNKNOWN)
            (extract_operator_chars chars' "" (operators +:+ tt))
        else
          extract_operator_chars chars' remains (operators +:+ tt)
      else
        if nonempty operators then
          gen_from (yield_tokens operators)
            (extract_operator_chars chars' (remains +:+ tt) "")
        else
          extract_operator_chars chars' (remains +:+ tt) operators
  | EmptyString =>
      gen_from
        (if nonempty remains
         then gen_yield (mkToken remains UNKNOWN) gen_empty else gen_empty)
        (if nonempty operators then yield_tokens operators else gen_empty)
  end.

(** [Lexer.lexer_extract_operator]. *)
Definition lexer_extract_operator (tokens : Gen) : Gen :=
  gen_for
    (fun token =>
       match type token with
       | UNKNOWN => extract_operator_chars (raw token) "" ""
       | _ => gen_yield token gen_empty
       end)
    tokens.1 tokens.2.

(** [Lexer.lexer_identify_word]. *)
Definition lexer_identify_word (tokens : Gen) : Gen :=
  gen_for
    (fun token =>
       match type token with
       | UNKNOWN =>
           match TokenType_call (raw token) with
           | Some ty => gen_yield (mkToken (raw token) ty) gen_empty
           | None => gen_yield (mkToken (raw token) NAME) gen_empty
           end
       | _ => gen_yield token gen_empty
       end)
    tokens.1 tokens.2.

(** [Lexer.lexer_remove_unuseful]. *)
Definition lexer_remove_unuseful (tokens : Gen) : Gen :=
  gen_for
    (fun token =>
       match type token with
       | SPACE | COMMENT | NEWLINE => gen_empty
       | _ => gen_yield token gen_empty
       end)
    tokens.1 tokens.2.

(** [Lexer._lexer]: the four stages chained. *)
Definition _lexer (src : string) : Gen :=
  let base := lexer_by_tokens src in
  let base := lexer_extract_operator base in
  let base := lexer_identify_word base in
  let base := lexer_remove_unuseful base in
  base.

(** [Lexer.lexer]. *)
Definition lexer (src : string) : Gen := _lexer src.

(* ===================================================================== *)
(** ** Outcomes of calls *)
(* ===================================================================== *)

(** What a call does: it returns a value, it raises, the model's fuel runs
    out, or it follows a reference to an object that is not in the heap
    (which no Python program can hold). *)
Inductive Outcome (A : Type) : Type :=
  | Returns (a : A)
  | Raises (e : Exn)
  | NoFuel
  | NoObject.
Arguments Returns {A} a.
Arguments Raises {A} e.
Arguments NoFuel {A}.
Arguments NoObject {A}.

Definition obind {A B} (m : Outcome A) (k : A -> Outcome B) : Outcome B :=
  match m with
  | Returns a => k a
  | Raises e => Raises e
  | NoFuel => NoFuel
  | NoObject => NoObject
  end.

(* ===================================================================== *)
(** ** parser.py: [ASTNode] *)
(* ===================================================================== *)

(** The attributes of an [ASTNode] object; [_parent] and [_childs] hold
    object identities. *)
Record ASTNode : Type := mkASTNode {
  _token : Token;
  _parent : option nat;
  _childs : list nat
}.

(** The object store: the identity of a node is its position. *)
Abbreviation Heap := (list ASTNode).

(** [ASTNode(token)]: a new object; [Token] objects are always truthy, so
    [token or Token('.', tt=TokenType.ROOT)] is the default only for [None]. *)
Definition ASTNode_init (token : option Token) (h : Heap) : Heap * nat :=
  (h ++ [mkASTNode (default (mkToken "." ROOT) token) None []], length h).

(** [self + other]. *)
Definition ASTNode_add (h : Heap) (self other : nat) : Heap * nat :=
  let h := alter (fun n => mkASTNode (_token n) (_parent n) (_childs n ++ [other]))
             self h in
  let h := alter (fun n => mkASTNode (_token n) (Some self) (_childs n))
             other h in
  (h, self).

(** [item in self]. *)
Definition ASTNode_contains (h : Heap) (self item : nat) : Outcome bool :=
  match h !! self with
  | None => NoObject
  | Some n => Returns (bool_decide (item ∈ _childs n))
  end.

Definition is_root (h : Heap) (self : nat) : Outcome bool :=
  match h !! self with
  | None => NoObject
  | Some n => Returns (bool_decide (_parent n = None))
  end.

(** [self.is_root or self.parent.childs[-1] == self]; [childs[-1]] of an
    empty list raises [IndexError]. *)
Definition is_latest (h : Heap) (self : nat) : Outcome bool :=
  match h !! self with
  | None => NoObject
  | Some n =>
      match _parent n with
      | None => Returns true
      | Some p =>
          match h !! p with
          | None => NoObject
          | Some pn =>
              match last (_childs pn) with
              | None => Raises IndexError
              | Some c => Returns (bool_decide (c = self))
              end
          end
      end
  end.

(** [s * n]. *)
Fixpoint str_mul (s : string) (n : nat) : string :=
  match n with
  | 0 => ""
  | S n' => s +:+ str_mul s n'
  end.

Definition mid_child : string := "├─".
Definition last_child : string := "└─".

(** The [for child in self.childs] loop of [__str__]: the strings appended
    to [trees]. *)
Fixpoint str_childs (str : nat -> Outcome string) (childs : list nat)
  : Outcome (list string) :=
  match childs with
  | [] => Returns []
  | child :: childs' =>
      obind (str child) (fun s =>
      obind (str_childs str childs') (fun l =>
      Returns (s :: l)))
  end.

(** [ASTNode.__str__(self, indent)]; the fuel bounds the recursion depth. *)
Fixpoint ASTNode_str (fuel : nat) (h : Heap) (self indent : nat)
  : Outcome string :=
  match fuel with
  | 0 => NoFuel
  | S fuel' =>
      match h !! self with
      | None => NoObject
      | Some n =>
          obind (is_root h self) (fun root =>
          obind (if root then Returns (Token_str (_token n))
                 else
                   obind (is_latest h self) (fun latest =>
                   let ch := if negb latest then mid_child else last_child in
                   Returns (str_mul " " indent +:+ ch +:+ "  "
                            +:+ Token_str (_token n))))
            (fun line =>
          obind (str_childs (fun child => ASTNode_str fuel' h child (indent + 4))
                   (_childs n)) (fun lines =>
          Returns (String.concat (String newline EmptyString) (line :: lines)))))
      end
  end.

(* ===================================================================== *)
(** ** parser.py: [Parser] *)
(* ===================================================================== *)

(** The attributes of the [Parser] object and the object store.  [_tokens] is
    what is left of the lexer's generator; [_token_stack] is a Python list
    used as a stack, its top at the end. *)
Record State : Type := mkState {
  _tokens : Gen;
  _token_stack : list Token;
  heap : Heap
}.

(** A method of the parser: it reads and updates the state. *)
Definition M (A : Type) : Type := State -> Outcome (A * State).

Definition ret {A} (a : A) : M A := fun st => Returns (a, st).

Definition bind {A B} (m : M A) (k : A -> M B) : M B :=
  fun st =>
    match m st with
    | Returns (a, st') => k a st'
    | Raises e => Raises e
    | NoFuel => NoFuel
    | NoObject => NoObject
    end.

Definition raise {A} (e : Exn) : M A := fun _ => Raises e.

Declare Scope parser_scope.
Delimit Scope parser_scope with parser.
Notation "x <- m ;; k" := (bind m (fun x => k))
  (at level 100, m at next level, right associativity) : parser_scope.
Notation "m ;; k" := (bind m (fun _ => k))
  (at level 100, right associativity) : parser_scope.
Open Scope parser_scope.

(** [l.pop()] of a non-empty list: the last element and the list without
    it. *)
Definition list_pop {A} (l : list A) : option (A * list A) :=
  match rev l with
  | [] => None
  | x :: r => Some (x, rev r)
  end.

(** The getter of the property [next_token]. *)
Definition next_token : M Token := fun st =>
  match list_pop (_token_stack st) with
  | Some (v, stack) => Returns (v, mkState (_tokens st) stack (heap st))
  | None =>
      (* next(self._tokens) *)
      match _tokens st with
      | (t :: ts, e) => Returns (t, mkState (ts, e) (_token_stack st) (heap st))
      | ([], Return) => Raises StopIteration
      | ([], Raise e) => Raises e
      | ([], OutOfFuel) => NoFuel
      end
  end.

(** The setter of the property [next_token]. *)
Definition set_next_token (v : Token) : M unit := fun st =>
  Returns (tt, mkState (_tokens st) (_token_stack st ++ [v]) (heap st)).

(** [ASTNode(token)] and [self + other] on the state's object store. *)
Definition new_ASTNode (token : option Token) : M nat := fun st =>
  let '(h, node) := ASTNode_init token (heap st) in
  Returns (node, mkState (_tokens st) (_token_stack st) h).

Definition add (self other : nat) : M nat := fun st =>
  let '(h, node) := ASTNode_add (heap st) self other in
  Returns (node, mkState (_tokens st) (_token_stack st) h).

(** [f'{t=}'] and [f'{t}'] both print [Token.__str__]. *)
Definition expecting_lbrace (prev : Token) : Exn :=
  ValueError ("expecting {, but got prev=" +:+ Token_str prev).
Definition expecting_rbrace (prev : Token) : Exn :=
  ValueError ("expecting } but got prev=" +:+ Token_str prev).
Definition unexpected_token (prev : Token) : Exn :=
  ValueError ("Unexpected token: " +:+ Token_str prev).
Definition expecting_name (name : Token) : Exn :=
  ValueError ("function should follow with name: name=" +:+ Token_str name).
Definition expecting_parentheses (prev : Token) : Exn :=
  ValueError ("function should follow with (): prev=" +:+ Token_str prev).

(** [Parser._parse_func_args]. *)
Definition _parse_func_args (prev : Token) : M nat :=
  raise NotImplementedError.

(** [Parser] has no method [_parse_type_hint]: looking the attribute up
    raises. *)
Definition _parse_type_hint (prev : Token) : M nat :=
  raise (AttributeError "'Parser' object has no attribute '_parse_type_hint'").

(** [Parser._parse_func_head]. *)
Definition _parse_func_head : M nat :=
  name <- next_token ;;
  if bool_decide (type name ≠ NAME) then raise (expecting_name name) else
  node <- new_ASTNode (Some name) ;;
  (* handle the function arguments *)
  prev <- next_token ;;
  if bool_decide (type prev ≠ LPARENTHESES)
  then raise (expecting_parentheses prev) else
  prev <- next_token ;;
  match type prev with
  | RPARENTHESES => ret tt
  | _ => args <- _parse_func_args prev ;; add node args ;; ret tt
  end ;;
  (* handle the function type hint *)
  prev <- next_token ;;
  match type prev with
  | ARROW => hint <- _parse_type_hint prev ;; add node hint ;; ret tt
  | _ => set_next_token prev
  end ;;
  ret node.

(** The methods below call each other in a cycle through [_parse_source]:
    each takes the [_parse_source] it calls as an argument, and
    [_parse_source] ties the knot on its fuel. *)
Section ParseSource.
Variable _parse_source : M nat.

(** [Parser._parse_scope]. *)
Definition _parse_scope : M nat :=
  prev <- next_token ;;
  if bool_decide (type prev ≠ LBRACE) then raise (expecting_lbrace prev) else
  node <- _parse_source ;;
  prev <- next_token ;;
  if bool_decide (type prev ≠ RBRACE) then raise (expecting_rbrace prev) else
  ret node.

(** [Parser._parse_func_stmt]; [assert prev.type == TokenType.FN] holds at
    its only call. *)
Definition _parse_func_stmt (prev : Token) : M nat :=
  node <- new_ASTNode (Some prev) ;;
  head <- _parse_func_head ;;
  add node head ;;
  scope <- _parse_scope ;;
  add node scope ;;
  ret node.

(** [Parser._parse_block]. *)
Definition _parse_block (prev : Token) : M nat :=
  match type prev with
  | NOP => new_ASTNode (Some prev)
  | FN => _parse_func_stmt prev
  | _ => raise (unexpected_token prev)
  end.
End ParseSource.

(** [Parser._parse_source]; the fuel bounds the depth of nested scopes.  The
    stack is taken to have room for them ([_parse_source_within] has the
    bound). *)
Fixpoint _parse_source (fuel : nat) : M nat :=
  match fuel with
  | 0 => fun _ => NoFuel
  | S fuel' =>
      root <- new_ASTNode None ;;
      prev <- next_token ;;
      match type prev with
      | RBRACE => set_next_token prev
      | _ => block <- _parse_block (_parse_source fuel') prev ;;
             add root block ;; ret tt
      end ;;
      ret root
  end.

(** [Parser.parse], called when the object store is [h].  Every nested scope
    consumes tokens, so one level of recursion per token is enough (see
    [parse_fuel]). *)
Definition parse_in (h : Heap) (src : string) : Outcome (nat * State) :=
  let tokens := lexer src in
  _parse_source (S (length tokens.1)) (mkState tokens [] h).

Definition parse (src : string) : Outcome (nat * State) := parse_in [] src.

(* ===================================================================== *)
(** ** The interpreter's stack *)
(* ===================================================================== *)

(** Python bounds the depth of its call stack: a call, or the resumption of
    a generator, that does not fit raises [RecursionError].  Two places of
    the sources nest as deep as their input goes: [TokenType.yield_tokens]
    delegates to itself with [yield from] once for every character that it
    peels off a run, and the parser calls [_parse_source] again for every
    nested scope.  The definitions above follow the code on a stack without
    bound.  The ones below take what the stack has room for as a parameter,
    counted in nested activations of the function that recurses.  (The
    interpreter counts frames: an activation takes a fixed number of them,
    those of its callees included, and the frames of the caller count as
    well.  The parameter stands for the activations that this leaves room
    for.) *)

(** [TokenType.yield_tokens(raw)] when the stack has room for [frames] nested
    activations of it. *)
Fixpoint yield_tokens_within (frames : nat) (raw : string) : Gen :=
  match frames with
  | 0 => ([], Raise RecursionError)
  | S frames' =>
      match TokenType_call raw with
      | Some ty => gen_yield (mkToken raw ty) gen_empty
      | None =>
          match raw with
          | EmptyString => ([], Raise IndexError)
          | String c remains =>
              let first := String c EmptyString in
              match TokenType_call first with
              | Some ty =>
                  gen_yield (mkToken first ty)
                    (yield_tokens_within frames' remains)
              | None => ([], Raise (not_a_valid_TokenType first))
              end
          end
      end
  end.

(** The loop of [Lexer.lexer_extract_operator] over the characters of a
    token, and [Lexer.lexer_extract_operator], with that room for
    [yield_tokens]. *)
Fixpoint extract_operator_chars_within (frames : nat)
    (chars remains operators : string) : Gen :=
  match chars with
  | String ch chars' =>
      let tt := String ch EmptyString in
      if char_in ch OPERATORS then
        if nonempty remains then
          gen_yield (mkToken remains UNKNOWN)
            (extract_operator_chars_within frames chars' ""
               (operators +:+ tt))
        else
          extract_operator_chars_within frames chars' remains
            (operators +:+ tt)
      else
        if nonempty operators then
          gen_from (yield_tokens_within frames operators)
            (extract_operator_chars_within frames chars' (remains +:+ tt) "")
        else
          extract_operator_chars_within frames chars' (remains +:+ tt)
            operators
  | EmptyString =>
      gen_from
        (if nonempty remains
         then gen_yield (mkToken remains UNKNOWN) gen_empty else gen_empty)
        (if nonempty operators then yield_tokens_within frames operators
         else gen_empty)
  end.

Definition lexer_extract_operator_within (frames : nat) (tokens : Gen)
  : Gen :=
  gen_for
    (fun token =>
       match type token with
       | UNKNOWN => extract_operator_chars_within frames (raw token) "" ""
       | _ => gen_yield token gen_empty
       end)
    tokens.1 tokens.2.

(** [Lexer._lexer] and [Lexer.lexer] with that room for [yield_tokens]. *)
Definition _lexer_within (frames : nat) (src : string) : Gen :=
  let base := lexer_by_tokens src in
  let base := lexer_extract_operator_within frames base in
  let base := lexer_identify_word base in
  let base := lexer_remove_unuseful base in
  base.

Definition lexer_within (frames : nat) (src : string) : Gen :=
  _lexer_within frames src.

(** [Parser._parse_source] when the stack has room for [depth] nested
    activations of it, one for the source and one for every scope within a
    scope. *)
Fixpoint _parse_source_within (depth : nat) : M nat :=
  match depth with
  | 0 => raise RecursionError
  | S depth' =>
      root <- new_ASTNode None ;;
      prev <- next_token ;;
      match type prev with
      | RBRACE => set_next_token prev
      | _ => block <- _parse_block (_parse_source_within depth') prev ;;
             add root block ;; ret tt
      end ;;
      ret root
  end.

(** [Parser.parse] with room for [depth] nested activations of
    [_parse_source], and for [frames] nested activations of [yield_tokens]
    whenever the parser reads a token. *)
Definition parse_within (depth frames : nat) (h : Heap) (src : string)
  : Outcome (nat * State) :=
  _parse_source_within depth (mkState (lexer_within frames src) [] h).

(* ===================================================================== *)
(** * Vocabulary of the properties *)
(* ===================================================================== *)

(** ** Token streams *)

(** Every character of [s] is one of [pool]. *)
Fixpoint all_in (pool s : string) : bool :=
  match s with
  | EmptyString => true
  | String c s' => char_in c pool && all_in pool s'
  end.

(** The categories that noise removal drops. *)
Definition noise (ty : TokenType) : Prop :=
  ty = SPACE \/ ty = COMMENT \/ ty = NEWLINE.

(** The text a token stream spells: the raw texts of its tokens, in order. *)
Definition spelled (tokens : list Token) : string :=
  String.concat "" (map raw tokens).

(** A comment line followed by a second line. *)
Definition comment_then_line : string :=
  "//a" +:+ String newline "b".

(** ** Renderings and the object store *)

(** The separator of the lines of a rendering. *)
Definition nl : string := String newline EmptyString.

(** The line of a node that is a child: indentation, connector, token. *)
Definition child_line (indent : nat) (connector : string) (token : Token)
  : string :=
  str_mul " " indent +:+ connector +:+ "  " +:+ Token_str token.

(** The three fresh nodes of the test [test_arithmetic]. *)
Definition three_nodes : Heap :=
  [ mkASTNode (mkToken "+" UNKNOWN) None [];
    mkASTNode (mkToken "1" UNKNOWN) None [];
    mkASTNode (mkToken "2" UNKNOWN) None [] ].

(** The token and the children of an object of the store. *)
Definition token_of (h : Heap) (node : nat) : option Token :=
  _token <$> h !! node.

Definition childs_of (h : Heap) (node : nat) : option (list nat) :=
  _childs <$> h !! node.

(** ** Parser states *)

(** The errors that the parser raises itself when a required token is
    missing: each carries the token it found. *)
Definition syntax_error (e : Exn) : Prop :=
  exists prev : Token,
    e = expecting_lbrace prev \/ e = expecting_rbrace prev \/
    e = unexpected_token prev \/ e = expecting_name prev \/
    e = expecting_parentheses prev.

(** The tokens the parser can still read: the pushed-back ones and the rest
    of the lexer's stream. *)
Definition pending (st : State) : nat :=
  length (_token_stack st) + length (_tokens st).1.

(** From [st] to [st'] the parser only created objects, left the way the
    token stream ends alone, and did not gain tokens to read. *)
Definition evolves (st st' : State) : Prop :=
  heap st `prefix_of` heap st' /\
  (_tokens st').2 = (_tokens st).2 /\
  pending st' <= pending st.

(** A method that returns a node it created: the node is new with respect to
    the state the method was called in. *)
Definition allocates (m : M nat) : Prop :=
  forall st node st',
    m st = Returns (node, st') ->
    evolves st st' /\ length (heap st) <= node < length (heap st').

(** The call came to an end of its own: it returned or raised. *)
Definition settled {A} (o : Outcome A) : Prop :=
  match o with
  | Returns _ | Raises _ => True
  | NoFuel | NoObject => False
  end.

(** The lexer's stream does not end for lack of fuel. *)
Definition live (st : State) : Prop := (_tokens st).2 <> OutOfFuel.

(** The state [st] with [extra] more tokens at the end of the lexer's stream,
    which then ends with [e]. *)
Definition more_tokens (extra : list Token) (e : End) (st : State) : State :=
  mkState ((_tokens st).1 ++ extra, e) (_token_stack st) (heap st).

(** A method that returns without looking at the end of the stream: with more
    tokens in the stream it returns the same value and leaves them unread. *)
Definition unaware {A} (m : M A) : Prop :=
  forall extra e st a st',
    m st = Returns (a, st') ->
    m (more_tokens extra e st) = Returns (a, more_tokens extra e st').

(** ** Further vocabulary *)

(** The test of the match in [Lexer.lexer_remove_unuseful]. *)
Definition is_noise (ty : TokenType) : bool :=
  match ty with
  | SPACE | COMMENT | NEWLINE => true
  | _ => false
  end.

(** Every object with a parent is among the children of that parent. *)
Definition parent_listed (h : Heap) : Prop :=
  forall i n p,
    h !! i = Some n -> _parent n = Some p ->
    exists pn, h !! p = Some pn /\ i ∈ _childs pn.

(** The two kinds of trees of the grammar: the tree of [source] (and of a
    scope), and the tree of a statement. *)
Inductive Shape : Type := Source | Statement.

(** The object [n] of the store is the top of a tree of the given kind: a
    [source] is a ROOT node with no child or with one statement; a statement
    is a NOP leaf, or an FN node with a NAME leaf and the tree of its scope.
    Children are newer objects than their parent and point back to it. *)
Inductive shaped (h : Heap) : Shape -> nat -> Prop :=
  | shaped_empty (r : nat) (n : ASTNode) :
      h !! r = Some n -> type (_token n) = ROOT -> _childs n = [] ->
      shaped h Source r
  | shaped_one (r : nat) (n : ASTNode) (s : nat) (ns : ASTNode) :
      h !! r = Some n -> type (_token n) = ROOT -> _childs n = [s] ->
      r < s -> h !! s = Some ns -> _parent ns = Some r ->
      shaped h Statement s ->
      shaped h Source r
  | shaped_nop (s : nat) (n : ASTNode) :
      h !! s = Some n -> type (_token n) = NOP -> _childs n = [] ->
      shaped h Statement s
  | shaped_fn (s : nat) (n : ASTNode) (name : nat) (nn : ASTNode)
      (body : nat) (nb : ASTNode) :
      h !! s = Some n -> type (_token n) = FN -> _childs n = [name; body] ->
      s < name -> name < body ->
      h !! name = Some nn -> type (_token nn) = NAME -> _childs nn = [] ->
      _parent nn = Some s ->
      h !! body = Some nb -> _parent nb = Some s ->
      shaped h Source body ->
      shaped h Statement s.

(** No character of [s] is one of [pool]. *)
Fixpoint none_in (pool s : string) : bool :=
  match s with
  | EmptyString => true
  | String c s' => negb (char_in c pool) && none_in pool s'
  end.

(** Space and tab; space, tab and newline. *)
Definition blanks : string := String " " (String tab EmptyString).
Definition whitespace : string :=
  String " " (String tab (String newline EmptyString)).

(** ** The stages of the lexer *)

(** A piece of a word that operator extraction leaves unclassified: not
    empty, without operator characters. *)
Definition word_piece (t : Token) : Prop :=
  type t = UNKNOWN /\ nonempty (raw t) = true /\
  none_in OPERATORS (raw t) = true.

(** A token that spells its category, made of operator characters. *)
Definition operator_token (t : Token) : Prop :=
  value (type t) = StrValue (raw t) /\ nonempty (raw t) = true /\
  all_in OPERATORS (raw t) = true.

(** A token of the coarse segmentation: a newline; a comment, from its two
    slashes up to the end of its line; a run of spaces and tabs; a string,
    from its opening double quote on; or a text that is not classified yet,
    without spaces, tabs and newlines. *)
Definition coarse (t : Token) : Prop :=
  type t = NEWLINE /\ raw t = String newline EmptyString \/
  type t = COMMENT /\ String.prefix "//" (raw t) = true /\
    none_in (String newline EmptyString) (raw t) = true \/
  type t = SPACE /\ nonempty (raw t) = true /\ all_in blanks (raw t) = true \/
  type t = STRING /\ String.get 0 (raw t) = Some dquote \/
  type t = UNKNOWN /\ nonempty (raw t) = true /\
    none_in whitespace (raw t) = true.

(** A token of the lexer's output: a string; a name, which is no reserved
    word and has no operator character, space, tab or newline; or an
    operator or reserved word, of the category that has this spelling.  Its
    text is never empty. *)
Definition lexed (t : Token) : Prop :=
  nonempty (raw t) = true /\
  (type t = STRING /\ String.get 0 (raw t) = Some dquote \/
   type t = NAME /\ TokenType_call (raw t) = None /\
     none_in OPERATORS (raw t) = true /\ none_in whitespace (raw t) = true \/
   value (type t) = StrValue (raw t)).

(** [s] without its newline characters. *)
Fixpoint unlined (s : string) : string :=
  match s with
  | EmptyString => EmptyString
  | String c s' => if Ascii.eqb c newline then unlined s' else String c (unlined s')
  end.

(** ** The statements of the grammar *)

(** The token sequences that make a statement for the parser: a NOP, or a
    function: FN, a NAME, the two parentheses, and a scope, which is the two
    braces with nothing or one statement between them. *)
Inductive statement : list Token -> Prop :=
  | statement_nop (t : Token) :
      type t = NOP -> statement [t]
  | statement_fn_empty (f n lp rp lb rb : Token) :
      type f = FN -> type n = NAME ->
      type lp = LPARENTHESES -> type rp = RPARENTHESES ->
      type lb = LBRACE -> type rb = RBRACE ->
      statement [f; n; lp; rp; lb; rb]
  | statement_fn (f n lp rp lb : Token) (body : list Token) (rb : Token) :
      type f = FN -> type n = NAME ->
      type lp = LPARENTHESES -> type rp = RPARENTHESES ->
      type lb = LBRACE -> statement body -> type rb = RBRACE ->
      statement (f :: n :: lp :: rp :: lb :: body ++ [rb]).

(** What a returning [_parse_source] has read of [tokens] when it leaves the
    state [st]: a statement, and nothing is held back; or a closing brace,
    which is held back. *)
Definition recognised (tokens : list Token) (st : State) : Prop :=
  (exists s, statement s /\ tokens = s ++ (_tokens st).1 /\
             _token_stack st = []) \/
  (exists t, type t = RBRACE /\ tokens = t :: (_tokens st).1 /\
             _token_stack st = [t]).

(** The object [s] of the store is the tree of a statement, given by its
    tokens: a NOP is a leaf that holds the token; a function is a node that
    holds the FN token, with two children: a leaf that holds the NAME token,
    and the ROOT node of the scope, whose only child, if there is a statement
    between the braces, is the tree of that statement.  Children are newer
    objects than their parent. *)
Inductive holds (h : Heap) : list Token -> nat -> Prop :=
  | holds_nop (t : Token) (s : nat) (n : ASTNode) :
      type t = NOP ->
      h !! s = Some n -> _token n = t -> _childs n = [] ->
      holds h [t] s
  | holds_fn_empty (f nm lp rp lb rb : Token) (s : nat) (n : ASTNode)
      (name : nat) (nn : ASTNode) (body : nat) (nb : ASTNode) :
      type f = FN -> type nm = NAME ->
      type lp = LPARENTHESES -> type rp = RPARENTHESES ->
      type lb = LBRACE -> type rb = RBRACE ->
      h !! s = Some n -> _token n = f -> _childs n = [name; body] ->
      s < name -> s < body ->
      h !! name = Some nn -> _token nn = nm -> _childs nn = [] ->
      h !! body = Some nb -> _token nb = mkToken "." ROOT ->
      _childs nb = [] ->
      holds h [f; nm; lp; rp; lb; rb] s
  | holds_fn (f nm lp rp lb : Token) (inner : list Token) (rb : Token)
      (s : nat) (n : ASTNode) (name : nat) (nn : ASTNode)
      (body : nat) (nb : ASTNode) (c : nat) :
      type f = FN -> type nm = NAME ->
      type lp = LPARENTHESES -> type rp = RPARENTHESES ->
      type lb = LBRACE -> type rb = RBRACE ->
      h !! s = Some n -> _token n = f -> _childs n = [name; body] ->
      s < name -> s < body ->
      h !! name = Some nn -> _token nn = nm -> _childs nn = [] ->
      h !! body = Some nb -> _token nb = mkToken "." ROOT ->
      _childs nb = [c] -> body < c ->
      holds h inner c ->
      holds h (f :: nm :: lp :: rp :: lb :: inner ++ [rb]) s.

(** ** Stack room *)

(** Every character of [s] is an ASCII character. *)
Fixpoint is_ascii (s : string) : bool :=
  match s with
  | EmptyString => true
  | String c s' => (nat_of_ascii c <? 128) && is_ascii s'
  end.

(** The number of opening braces among [tokens]: in a statement, the number
    of its scopes. *)
Definition scopes (tokens : list Token) : nat :=
  length (List.filter (fun t => bool_decide (type t = LBRACE)) tokens).

(* ===================================================================== *)
(** * Properties of the lexer *)
(* ===================================================================== *)

Section GenFacts.

Lemma gen_from_end (g k : Gen) :
  g.2 = Return -> (gen_from g k).2 = k.2.
Proof. unfold gen_from. intros ->. reflexivity. Qed.

Lemma gen_from_tokens (g k : Gen) :
  g.2 = Return -> (gen_from g k).1 = g.1 ++ k.1.
Proof. unfold gen_from. intros ->. reflexivity. Qed.

(** A loop whose body never raises ends the way the generator it iterates
    over ends. *)
Lemma gen_for_end (body : Token -> Gen) (ts : list Token) (e : End) :
  (forall t, (body t).2 = Return) -> (gen_for body ts e).2 = e.
Proof.
  intros Hbody. induction ts as [|t ts IH]; simpl; [reflexivity|].
  rewrite gen_from_end; auto.
Qed.

Lemma gen_for_tokens (body : Token -> Gen) (ts : list Token) (e : End) :
  (forall t, (body t).2 = Return) ->
  (gen_for body ts e).1 = concat (map (fun t => (body t).1) ts).
Proof.
  intros Hbody. induction ts as [|t ts IH]; simpl; [reflexivity|].
  rewrite gen_from_tokens, IH; auto.
Qed.

End GenFacts.

(** ** Operator runs *)

Lemma all_in_snoc (pool s : string) (c : ascii) :
  all_in pool s = true -> char_in c pool = true ->
  all_in pool (s +:+ String c EmptyString) = true.
Proof.
  intros Hs Hc. induction s as [|d s IH]; simpl in *.
  - rewrite Hc. reflexivity.
  - apply andb_true_iff in Hs as [-> Hs]. simpl. auto.
Qed.

Lemma nonempty_snoc (s : string) (c : ascii) :
  nonempty (s +:+ String c EmptyString) = true.
Proof. destruct s; reflexivity. Qed.

(** Each operator character is the spelling of a member of [TokenType]. *)
Lemma operator_char_is_member (c : ascii) :
  char_in c OPERATORS = true ->
  is_Some (TokenType_call (String c EmptyString)).
Proof.
  unfold OPERATORS. simpl. rewrite !orb_true_iff, !Ascii.eqb_eq.
  intros H. repeat (destruct H as [-> | H]; [vm_compute; eauto |]).
  discriminate H.
Qed.

(** A whole run that spells a member is one token of that member. *)
Lemma yield_tokens_member (run : string) (ty : TokenType) :
  TokenType_call run = Some ty ->
  yield_tokens run = ([mkToken run ty], Return).
Proof. intros H. destruct run; cbn [yield_tokens]; rewrite H; reflexivity. Qed.

(** [yield_tokens] resolves every non-empty run of operator characters. *)
Lemma yield_tokens_end (run : string) :
  nonempty run = true -> all_in OPERATORS run = true ->
  (yield_tokens run).2 = Return.
Proof.
  induction run as [|c run IH]; [discriminate|].
  intros _ Hall. simpl in Hall. apply andb_true_iff in Hall as [Hc Hall].
  cbn [yield_tokens].
  destruct (TokenType_call (String c run)) eqn:Hwhole; [reflexivity|].
  destruct (operator_char_is_member c Hc) as [ty Hty]. rewrite Hty.
  cbn [gen_yield snd].
  destruct run as [|d run]; [congruence|].
  apply IH; [reflexivity | assumption].
Qed.

(** The tokens that [yield_tokens] yields spell the run: nothing of it is
    left out. *)
Lemma yield_tokens_spelled (run : string) :
  (yield_tokens run).2 = Return -> spelled (yield_tokens run).1 = run.
Proof.
  induction run as [|c run IH]; [discriminate|].
  cbn [yield_tokens].
  destruct (TokenType_call (String c run)); [reflexivity|].
  destruct (TokenType_call (String c EmptyString)); [|discriminate].
  cbn [gen_yield fst snd]. intros Hend. specialize (IH Hend).
  unfold spelled in *. cbn [map raw].
  destruct (map raw (yield_tokens run).1) as [|r rs]; cbn [String.concat] in *.
  - rewrite <- IH. reflexivity.
  - rewrite IH. reflexivity.
Qed.

Lemma extract_operator_chars_end (chars remains operators : string) :
  all_in OPERATORS operators = true ->
  (extract_operator_chars chars remains operators).2 = Return.
Proof.
  revert remains operators.
  induction chars as [|ch chars IH]; intros remains operators Hops.
  - cbn [extract_operator_chars].
    rewrite gen_from_end by (destruct (nonempty remains); reflexivity).
    destruct (nonempty operators) eqn:Hne; [|reflexivity].
    apply yield_tokens_end; assumption.
  - cbn [extract_operator_chars].
    destruct (char_in ch OPERATORS) eqn:Hch.
    + destruct (nonempty remains); cbn [gen_yield snd];
        apply IH, all_in_snoc; assumption.
    + destruct (nonempty operators) eqn:Hne.
      * rewrite gen_from_end by (apply yield_tokens_end; assumption).
        apply IH. reflexivity.
      * apply IH. assumption.
Qed.

Lemma lexer_extract_operator_end (tokens : Gen) :
  (lexer_extract_operator tokens).2 = tokens.2.
Proof.
  apply gen_for_end. intros t.
  destruct (type t); try reflexivity.
  apply extract_operator_chars_end. reflexivity.
Qed.

Lemma lexer_identify_word_end (tokens : Gen) :
  (lexer_identify_word tokens).2 = tokens.2.
Proof.
  apply gen_for_end. intros t.
  destruct (type t); try reflexivity.
  destruct (TokenType_call (raw t)); reflexivity.
Qed.

Lemma lexer_remove_unuseful_end (tokens : Gen) :
  (lexer_remove_unuseful tokens).2 = tokens.2.
Proof. apply gen_for_end. intros t. destruct (type t); reflexivity. Qed.

(** ** Coarse segmentation terminates *)

Lemma scan_returns (continue : ascii -> bool) (src : string) (fuel stop : nat) :
  String.length src - stop <= fuel ->
  exists stop', scan continue src stop fuel = Some stop' /\ stop <= stop'.
Proof.
  revert stop. induction fuel as [|fuel IH]; intros stop Hfuel;
    cbn [scan]; destruct (Nat.ltb_spec stop (String.length src)) as [Hlt|Hge];
    try (exists stop; split; [reflexivity | lia]).
  - lia.
  - destruct (String.get stop src) as [c|]; [|exists stop; split; [reflexivity | lia]].
    destruct (continue c); [|exists stop; split; [reflexivity | lia]].
    destruct (IH (stop + 1)) as (stop' & -> & Hle); [lia|].
    exists stop'. split; [reflexivity | lia].
Qed.

(** When the character at [stop] continues the run, the scan moves on. *)
Lemma scan_advances (continue : ascii -> bool) (src : string) (stop : nat)
    (c : ascii) :
  stop < String.length src ->
  String.get stop src = Some c -> continue c = true ->
  exists stop',
    scan continue src stop (String.length src) = Some stop' /\ stop < stop'.
Proof.
  intros Hlt Hget Hc.
  destruct (String.length src) as [|n] eqn:Hlen; [lia|].
  cbn [scan]. rewrite Hlen, Hget, Hc.
  destruct (Nat.ltb_spec stop (S n)) as [_|?]; [|lia].
  destruct (scan_returns continue src n (stop + 1)) as (stop' & -> & Hle); [lia|].
  exists stop'. split; [reflexivity | lia].
Qed.

(** Every iteration of the loop moves [index] forward, so fuel for the
    characters that are left is enough: the loop never runs out of it, and no
    subscript is out of range. *)
Lemma lexer_by_tokens_loop_fuel (src : string) (fuel index : nat) :
  String.length src - index <= fuel ->
  (lexer_by_tokens_loop fuel src index).2 = Return.
Proof.
  revert index. induction fuel as [|fuel IH]; intros index Hfuel;
    cbn [lexer_by_tokens_loop];
    destruct (Nat.ltb_spec index (String.length src)) as [Hlt|Hge];
    try reflexivity; [lia|].
  destruct (String.get index src) as [ch|] eqn:Hget.
  2:{ exfalso. clear -Hlt Hget. revert index Hlt Hget.
      induction src as [|c src IHs]; intros [|index]; simpl; intros; try lia;
        try discriminate.
      eapply IHs; [|eassumption]. lia. }
  destruct (Ascii.eqb ch newline) eqn:Hnl.
  { cbn [gen_yield snd]. apply IH. lia. }
  destruct (Ascii.eqb ch "/") eqn:Hslash.
  { destruct (_ && _).
    - destruct (scan_returns (fun c => negb (Ascii.eqb c newline)) src
                  (String.length src) (index + 2)) as (stop & -> & Hle); [lia|].
      cbn [gen_yield snd]. apply IH. lia.
    - cbn [gen_yield snd]. apply IH. lia. }
  destruct (Ascii.eqb ch " " || Ascii.eqb ch tab) eqn:Hsp.
  { destruct (scan_returns
                (fun c => char_in c (String " " (String tab EmptyString))) src
                (String.length src) (index + 1)) as (stop & -> & Hle); [lia|].
    cbn [gen_yield snd]. apply IH. lia. }
  destruct (Ascii.eqb ch dquote) eqn:Hdq.
  { destruct (scan_returns (fun c => negb (Ascii.eqb c dquote)) src
                (String.length src) (index + 1)) as (stop & -> & Hle); [lia|].
    cbn [gen_yield snd]. apply IH. lia. }
  destruct (scan_advances
              (fun c => negb (char_in c
                 (String " " (String tab (String newline EmptyString)))))
              src index ch Hlt Hget) as (stop & -> & Hle).
  { apply orb_false_iff in Hsp as [Hs Ht].
    cbn [char_in]. rewrite Hs, Ht, Hnl. reflexivity. }
  cbn [gen_yield snd]. apply IH. lia.
Qed.

Lemma lexer_by_tokens_end (src : string) : (lexer_by_tokens src).2 = Return.
Proof. apply lexer_by_tokens_loop_fuel. lia. Qed.

Lemma lexer_end (src : string) : (lexer src).2 = Return.
Proof.
  unfold lexer, _lexer.
  rewrite lexer_remove_unuseful_end, lexer_identify_word_end,
    lexer_extract_operator_end.
  apply lexer_by_tokens_end.
Qed.

(** ** Noise removal *)

Lemma lexer_remove_unuseful_no_noise (tokens : Gen) :
  Forall (fun t => ~ noise (type t)) (lexer_remove_unuseful tokens).1.
Proof.
  unfold lexer_remove_unuseful.
  rewrite gen_for_tokens by (intros t; destruct (type t); reflexivity).
  induction tokens.1 as [|t ts IH]; simpl; [constructor|].
  apply Forall_app. split; [|exact IH].
  destruct (type t) eqn:Hty; simpl; constructor; try constructor;
    rewrite Hty; unfold noise; intuition discriminate.
Qed.

(** C7: for every source text, the tokens that stages 1 to 3 followed by
    stage 4 (noise removal) produce include no token of category SPACE,
    COMMENT or NEWLINE. *)
Theorem lexer_no_noise (src : string) :
  Forall (fun t => type t <> SPACE /\ type t <> COMMENT /\ type t <> NEWLINE)
    (lexer_remove_unuseful
       (lexer_identify_word
          (lexer_extract_operator (lexer_by_tokens src)))).1
  /\ Forall (fun t => type t <> SPACE /\ type t <> COMMENT /\ type t <> NEWLINE)
       (lexer src).1.
Proof.
  assert (H : forall g,
    Forall (fun t => type t <> SPACE /\ type t <> COMMENT /\ type t <> NEWLINE)
      (lexer_remove_unuseful g).1).
  { intros g. eapply Forall_impl; [apply lexer_remove_unuseful_no_noise|].
    unfold noise. intros t Ht. simpl in Ht. tauto. }
  split; apply H.
Qed.

(** ** Operator resolution *)

(** C5, as the code behaves: the operator-resolution stage prefers the whole
    run.  An operator run that spells a member of [TokenType] as a whole is
    one token of that category: the input "++" lexes to exactly one token,
    of category INC, not to two ADD tokens.  A run that spells none gives up
    its first character as a one-character token, and what is left of it is
    resolved in the same way, one activation of [yield_tokens] deeper: the
    input "+-" lexes to exactly two one-character tokens, ADD then SUB. *)
Theorem lexer_combine_op :
  lexer "++" = ([mkToken "++" INC], Return) /\
  lexer "+-" = ([mkToken "+" ADD; mkToken "-" SUB], Return) /\
  lexer_extract_operator (lexer_by_tokens "++") = ([mkToken "++" INC], Return) /\
  lexer_extract_operator (lexer_by_tokens "+-")
    = ([mkToken "+" ADD; mkToken "-" SUB], Return) /\
  (forall run ty, TokenType_call run = Some ty ->
     yield_tokens run = ([mkToken run ty], Return)) /\
  (forall frames run ty, TokenType_call run = Some ty ->
     yield_tokens_within (S frames) run = ([mkToken run ty], Return)) /\
  (forall frames c rest ty,
     TokenType_call (String c rest) = None ->
     TokenType_call (String c EmptyString) = Some ty ->
     yield_tokens_within (S frames) (String c rest)
       = gen_yield (mkToken (String c EmptyString) ty)
           (yield_tokens_within frames rest)).
Proof.
  split; [vm_compute; reflexivity|].
  split; [vm_compute; reflexivity|].
  split; [vm_compute; reflexivity|].
  split; [vm_compute; reflexivity|].
  split; [apply yield_tokens_member|]. split.
  - intros frames run ty H. cbn [yield_tokens_within]. rewrite H.
    reflexivity.
  - intros frames c rest ty Hwhole Hfirst. cbn [yield_tokens_within].
    rewrite Hwhole, Hfirst. reflexivity.
Qed.

(** C5 does not hold as stated: the stage is not longest-match.  The input
    "++-" lexes to ADD, ADD, SUB, and not to INC, SUB, which is what taking
    the longest operator first gives. *)
Lemma lexer_not_longest_match :
  lexer "++-"
    = ([mkToken "+" ADD; mkToken "+" ADD; mkToken "-" SUB], Return) /\
  lexer "++-" <> ([mkToken "++" INC; mkToken "-" SUB], Return) /\
  yield_tokens_within 3 "++-"
    = ([mkToken "+" ADD; mkToken "+" ADD; mkToken "-" SUB], Return).
Proof.
  split; [vm_compute; reflexivity|]. split; [|vm_compute; reflexivity].
  vm_compute. discriminate.
Qed.

(** ** Coarse segmentation and comments *)

(** C1: on a comment that a newline terminates, the coarse segmentation
    yields the comment and then the token after the newline: the newline is in
    no token, and the raw texts no longer spell the source.  The same two
    lines without the comment marker keep their newline as a token, and a
    comment that runs to the end of the input is spelled in full. *)
Theorem lexer_by_tokens_drops_newline_after_comment :
  lexer_by_tokens comment_then_line
    = ([mkToken "//a" COMMENT; mkToken "b" UNKNOWN], Return) /\
  spelled (lexer_by_tokens comment_then_line).1 = "//ab" /\
  spelled (lexer_by_tokens comment_then_line).1 <> comment_then_line /\
  Forall (fun t => type t <> NEWLINE) (lexer_by_tokens comment_then_line).1 /\
  lexer_by_tokens ("a" +:+ String newline "b")
    = ([mkToken "a" UNKNOWN; mkToken nl NEWLINE; mkToken "b" UNKNOWN],
       Return) /\
  lexer_by_tokens "//a" = ([mkToken "//a" COMMENT], Return).
Proof.
  repeat split; try (vm_compute; reflexivity).
  - vm_compute. discriminate.
  - vm_compute. repeat constructor; discriminate.
Qed.

(* ===================================================================== *)
(** * Properties of [ASTNode] *)
(* ===================================================================== *)

Section AddFacts.
Variables (h : Heap) (self other : nat).
Hypothesis Hne : self <> other.

(** [self + other] appends [other] to the children of [self] ... *)
Lemma add_lookup_self (n : ASTNode) :
  h !! self = Some n ->
  (ASTNode_add h self other).1 !! self
    = Some (mkASTNode (_token n) (_parent n) (_childs n ++ [other])).
Proof.
  intros Hn. unfold ASTNode_add. cbn [fst].
  rewrite list_lookup_alter_ne by congruence.
  rewrite list_lookup_alter_eq, Hn. reflexivity.
Qed.

(** ... makes [self] the parent of [other] ... *)
Lemma add_lookup_other (n : ASTNode) :
  h !! other = Some n ->
  (ASTNode_add h self other).1 !! other
    = Some (mkASTNode (_token n) (Some self) (_childs n)).
Proof.
  intros Hn. unfold ASTNode_add. cbn [fst].
  rewrite list_lookup_alter_eq, list_lookup_alter_ne by congruence.
  rewrite Hn. reflexivity.
Qed.

(** ... and leaves every other object as it is. *)
Lemma add_lookup_ne (i : nat) :
  i <> self -> i <> other ->
  (ASTNode_add h self other).1 !! i = h !! i.
Proof.
  intros H1 H2. unfold ASTNode_add. cbn [fst].
  rewrite !list_lookup_alter_ne by congruence. reflexivity.
Qed.
End AddFacts.

Lemma add_returns_self (h : Heap) (self other : nat) :
  (ASTNode_add h self other).2 = self.
Proof. reflexivity. Qed.

Lemma str_childs_app (str : nat -> Outcome string) (l1 l2 : list nat)
    (lines : list string) :
  str_childs str (l1 ++ l2) = Returns lines ->
  exists lines1 lines2,
    lines = lines1 ++ lines2 /\
    str_childs str l1 = Returns lines1 /\ str_childs str l2 = Returns lines2.
Proof.
  revert lines. induction l1 as [|c l1 IH]; intros lines; simpl.
  - intros H. exists [], lines. auto.
  - destruct (str c) as [s| | |]; simpl; try discriminate.
    destruct (str_childs str (l1 ++ l2)) as [l| | |] eqn:Hrest; simpl;
      try discriminate.
    intros [= <-]. destruct (IH l eq_refl) as (lines1 & lines2 & -> & -> & ->).
    exists (s :: lines1), lines2. auto.
Qed.

Lemma append_cons (c : ascii) (s t : string) :
  String c s +:+ t = String c (s +:+ t).
Proof. reflexivity. Qed.

Lemma append_nil_r (s : string) : s +:+ "" = s.
Proof.
  induction s as [|c s IH]; [reflexivity|].
  rewrite append_cons, IH. reflexivity.
Qed.

(** The first line of a rendering is the line of the node itself. *)
Lemma concat_cons (sep line : string) (lines : list string) :
  exists rest, String.concat sep (line :: lines) = line +:+ rest.
Proof.
  destruct lines as [|l lines]; simpl.
  - exists "". rewrite append_nil_r. reflexivity.
  - eauto.
Qed.

(** C8: take three distinct nodes A, B and C and append B to A, then C to A.
    Each append returns A and makes A the parent of the appended node.  The
    rendering of A then ends with the rendering of B followed by that of C,
    where B's line carries the mid-child connector and C's line the
    last-child connector; for nodes without children of their own and a
    parentless A the rendering is A's token and these two lines. *)
Theorem add_then_str (h : Heap) (A B C : nat) (nA nB nC : ASTNode) :
  A <> B -> A <> C -> B <> C ->
  h !! A = Some nA -> h !! B = Some nB -> h !! C = Some nC ->
  let r1 := ASTNode_add h A B in
  let r2 := ASTNode_add r1.1 A C in
  let h' := r2.1 in
  r1.2 = A /\ r2.2 = A /\
  h' !! A = Some (mkASTNode (_token nA) (_parent nA) (_childs nA ++ [B; C])) /\
  h' !! B = Some (mkASTNode (_token nB) (Some A) (_childs nB)) /\
  h' !! C = Some (mkASTNode (_token nC) (Some A) (_childs nC)) /\
  (forall fuel indent s,
     ASTNode_str fuel h' A indent = Returns s ->
     exists line lines sB sC restB restC,
       s = String.concat nl (line :: lines ++ [sB; sC]) /\
       sB = child_line (indent + 4) mid_child (_token nB) +:+ restB /\
       sC = child_line (indent + 4) last_child (_token nC) +:+ restC) /\
  (_parent nA = None -> _childs nA = [] -> _childs nB = [] -> _childs nC = [] ->
   forall fuel indent,
     2 <= fuel ->
     ASTNode_str fuel h' A indent
       = Returns (Token_str (_token nA)
                  +:+ nl +:+ child_line (indent + 4) mid_child (_token nB)
                  +:+ nl +:+ child_line (indent + 4) last_child (_token nC))).
Proof.
  intros HAB HAC HBC HA HB HC r1 r2 h'.
  assert (HA' : h' !! A
    = Some (mkASTNode (_token nA) (_parent nA) (_childs nA ++ [B; C]))).
  { subst h' r2 r1.
    rewrite (add_lookup_self _ _ _ HAC _ (add_lookup_self _ _ _ HAB _ HA)).
    cbn. rewrite <- app_assoc. reflexivity. }
  assert (HB' : h' !! B = Some (mkASTNode (_token nB) (Some A) (_childs nB))).
  { subst h' r2. rewrite add_lookup_ne by congruence.
    subst r1. apply add_lookup_other; assumption. }
  assert (HC' : h' !! C = Some (mkASTNode (_token nC) (Some A) (_childs nC))).
  { subst h' r2 r1.
    apply (add_lookup_other _ _ _ HAC).
    rewrite add_lookup_ne by congruence. assumption. }
  split; [reflexivity|]. split; [reflexivity|].
  clearbody h'. clear r1 r2.
  assert (HlB : is_latest h' B = Returns false).
  { unfold is_latest. rewrite HB'. cbn. rewrite HA'. cbn.
    replace (_childs nA ++ [B; C]) with ((_childs nA ++ [B]) ++ [C])
      by (rewrite <- app_assoc; reflexivity).
    rewrite last_snoc. rewrite bool_decide_eq_false_2 by congruence.
    reflexivity. }
  assert (HlC : is_latest h' C = Returns true).
  { unfold is_latest. rewrite HC'. cbn. rewrite HA'. cbn.
    replace (_childs nA ++ [B; C]) with ((_childs nA ++ [B]) ++ [C])
      by (rewrite <- app_assoc; reflexivity).
    rewrite last_snoc. rewrite bool_decide_eq_true_2 by reflexivity.
    reflexivity. }
  assert (HsB : forall fuel indent s,
    ASTNode_str fuel h' B indent = Returns s ->
    exists rest, s = child_line indent mid_child (_token nB) +:+ rest).
  { intros [|fuel] indent s; cbn [ASTNode_str]; [discriminate|].
    rewrite HB'. unfold is_root. rewrite HB'. cbn. rewrite HlB. cbn.
    destruct (str_childs _ _) as [lines| | |]; cbn; try discriminate.
    intros [= <-]. apply concat_cons. }
  assert (HsC : forall fuel indent s,
    ASTNode_str fuel h' C indent = Returns s ->
    exists rest, s = child_line indent last_child (_token nC) +:+ rest).
  { intros [|fuel] indent s; cbn [ASTNode_str]; [discriminate|].
    rewrite HC'. unfold is_root. rewrite HC'. cbn. rewrite HlC. cbn.
    destruct (str_childs _ _) as [lines| | |]; cbn; try discriminate.
    intros [= <-]. apply concat_cons. }
  repeat split; try assumption.
  - intros [|fuel] indent s; cbn [ASTNode_str]; [discriminate|].
    rewrite HA'. cbn [_childs _token].
    destruct (is_root h' A) as [root| | |]; cbn [obind]; try discriminate.
    match goal with
    | |- obind ?m _ = _ -> _ =>
        destruct m as [line| | |]; cbn [obind]; try discriminate
    end.
    destruct (str_childs _ _) as [lines| | |] eqn:Hlines; cbn [obind];
      try discriminate.
    intros [= <-].
    apply str_childs_app in Hlines
      as (lines1 & lines2 & -> & Hlines1 & Hlines2).
    cbn [str_childs] in Hlines2.
    destruct (ASTNode_str fuel h' B (indent + 4)) as [sB| | |] eqn:HrB;
      cbn [obind] in Hlines2; try discriminate.
    destruct (ASTNode_str fuel h' C (indent + 4)) as [sC| | |] eqn:HrC;
      cbn [obind] in Hlines2; try discriminate.
    injection Hlines2 as <-.
    destruct (HsB _ _ _ HrB) as [restB ->].
    destruct (HsC _ _ _ HrC) as [restC ->].
    exists line, lines1. eauto 10.
  - intros HpA HcA HcB HcC fuel indent Hfuel.
    destruct fuel as [|[|fuel]]; try lia.
    cbn [ASTNode_str]. rewrite HA'. unfold is_root at 1. rewrite HA'.
    cbn [obind _parent _token _childs]. rewrite HpA, HcA.
    cbn [bool_decide decide_rel app str_childs].
    rewrite HB', HC'. unfold is_root. rewrite HB', HC'.
    cbn [obind _parent _token _childs]. rewrite HcB, HcC, HlB, HlC.
    reflexivity.
Qed.

Lemma add_then_str_witness :
  ASTNode_str 2 (ASTNode_add (ASTNode_add three_nodes 0 1).1 0 2).1 0 0
    = Returns ("+" +:+ nl +:+ "    ├─  1" +:+ nl +:+ "    └─  2").
Proof.
  pose proof (add_then_str three_nodes 0 1 2 _ _ _
                ltac:(discriminate) ltac:(discriminate) ltac:(discriminate)
                eq_refl eq_refl eq_refl) as H.
  cbv zeta in H. destruct H as (_ & _ & _ & _ & _ & _ & H).
  exact (H eq_refl eq_refl eq_refl eq_refl 2 0 (le_n 2)).
Defined.

(* ===================================================================== *)
(** * Properties of the parser *)
(* ===================================================================== *)

(** ** Concrete sources *)

(** C2, as the code behaves: parsing the empty source does not return a
    node; the first read of [next_token] finds the token stream exhausted and
    [StopIteration] leaves [parse]. *)
Theorem parse_empty_raises (h : Heap) :
  lexer "" = ([], Return) /\
  parse_in h "" = Raises StopIteration /\
  parse "" = Raises StopIteration.
Proof. repeat split. Qed.

(** C2 does not hold as stated: [parse] returns no root node for the empty
    source. *)
Lemma parse_empty_no_root :
  ~ exists root st,
      parse "" = Returns (root, st) /\
      type <$> token_of (heap st) root = Some ROOT /\
      childs_of (heap st) root = Some [].
Proof. intros (root & st & H & _). vm_compute in H. discriminate H. Qed.

(** C3, as the code behaves: parsing "fn main(" ends, and returns no tree:
    after the "(" the token stream is exhausted and [next_token] raises
    [StopIteration], which carries no token. *)
Theorem parse_unterminated_parameters (h : Heap) :
  lexer "fn main("
    = ([mkToken "fn" FN; mkToken "main" NAME; mkToken "(" LPARENTHESES],
       Return) /\
  parse_in h "fn main(" = Raises StopIteration /\
  parse "fn main(" = Raises StopIteration.
Proof. repeat split. Qed.

(** C3 does not hold as stated: the exception is none of the parser's own
    errors. *)
Lemma parse_unterminated_parameters_no_syntax_error :
  ~ exists e, parse "fn main(" = Raises e /\ syntax_error e.
Proof.
  intros (e & H & prev & Hs). vm_compute in H. injection H as <-.
  unfold expecting_lbrace, expecting_rbrace, unexpected_token, expecting_name,
    expecting_parentheses in Hs.
  intuition discriminate.
Qed.

(** C6: parsing "fn main() { }" returns a root with exactly one child; the
    child's token has category FN, its first child holds the NAME token
    "main", and its second child is a node of category ROOT without
    children. *)
Theorem parse_fn_main :
  exists root fn name body st,
    parse "fn main() { }" = Returns (root, st) /\
    type <$> token_of (heap st) root = Some ROOT /\
    childs_of (heap st) root = Some [fn] /\
    type <$> token_of (heap st) fn = Some FN /\
    childs_of (heap st) fn = Some [name; body] /\
    token_of (heap st) name = Some (mkToken "main" NAME) /\
    childs_of (heap st) name = Some [] /\
    type <$> token_of (heap st) body = Some ROOT /\
    childs_of (heap st) body = Some [].
Proof.
  exists 0, 1, 2, 3. eexists. split; [vm_compute; reflexivity|].
  repeat split.
Qed.

(** ** What a method does to the state *)

#[local] Instance evolves_preorder : PreOrder evolves.
Proof.
  split.
  - intros st. repeat split; auto.
  - intros st1 st2 st3 (Hh & He & Hp) (Hh' & He' & Hp').
    repeat split; [etrans; eassumption | congruence | lia].
Qed.

Lemma bind_returns {A B} (m : M A) (k : A -> M B) (st : State) (r : B * State) :
  bind m k st = Returns r ->
  exists a st1, m st = Returns (a, st1) /\ k a st1 = Returns r.
Proof.
  unfold bind. destruct (m st) as [[a st1]| | |]; try discriminate. eauto.
Qed.

Lemma list_pop_Some {A} (l : list A) (x : A) (l' : list A) :
  list_pop l = Some (x, l') -> l = l' ++ [x].
Proof.
  unfold list_pop. destruct (rev l) as [|y r] eqn:Hrev; [discriminate|].
  intros [= -> <-]. rewrite <- (rev_involutive l), Hrev. reflexivity.
Qed.

Lemma list_pop_snoc {A} (l : list A) (x : A) : list_pop (l ++ [x]) = Some (x, l).
Proof. unfold list_pop. rewrite rev_unit, rev_involutive. reflexivity. Qed.

Lemma next_token_returns (st : State) (t : Token) (st' : State) :
  next_token st = Returns (t, st') ->
  heap st' = heap st /\ (_tokens st').2 = (_tokens st).2 /\
  S (pending st') = pending st.
Proof.
  unfold next_token, pending.
  destruct (list_pop (_token_stack st)) as [[v stack]|] eqn:Hpop.
  - apply list_pop_Some in Hpop. intros [= <- <-]. cbn. rewrite Hpop.
    rewrite length_app. cbn. repeat split; lia.
  - destruct (_tokens st) as [[|t' ts] [ |e| ]]; try discriminate;
      intros [= <- <-]; cbn; repeat split; lia.
Qed.

Lemma next_token_evolves (st : State) (t : Token) (st' : State) :
  next_token st = Returns (t, st') -> evolves st st' /\ pending st' < pending st.
Proof.
  intros H. apply next_token_returns in H as (Hh & He & Hp).
  unfold evolves. rewrite Hh. repeat split; auto; lia.
Qed.

Lemma set_next_token_returns (v : Token) (st : State) (u : unit) (st' : State) :
  set_next_token v st = Returns (u, st') ->
  heap st' = heap st /\ (_tokens st').2 = (_tokens st).2 /\
  pending st' = S (pending st).
Proof.
  unfold set_next_token, pending. intros [= <- <-]. cbn.
  rewrite length_app. cbn. repeat split; lia.
Qed.

Lemma new_ASTNode_returns (token : option Token) (st : State) (node : nat)
    (st' : State) :
  new_ASTNode token st = Returns (node, st') ->
  node = length (heap st) /\
  heap st' = heap st ++ [mkASTNode (default (mkToken "." ROOT) token) None []] /\
  _tokens st' = _tokens st /\ _token_stack st' = _token_stack st.
Proof. unfold new_ASTNode. cbn. intros [= <- <-]. cbn. auto. Qed.

Lemma new_ASTNode_evolves (token : option Token) (st : State) (node : nat)
    (st' : State) :
  new_ASTNode token st = Returns (node, st') ->
  evolves st st' /\ node = length (heap st) /\ node < length (heap st').
Proof.
  intros H. apply new_ASTNode_returns in H as (-> & Hh & Ht & Hs).
  unfold evolves, pending. rewrite Hh, Ht, Hs, length_app. cbn.
  repeat split; try lia. apply prefix_app_r. reflexivity.
Qed.

Lemma add_returns (self other : nat) (st : State) (node : nat) (st' : State) :
  add self other st = Returns (node, st') ->
  node = self /\ heap st' = (ASTNode_add (heap st) self other).1 /\
  _tokens st' = _tokens st /\ _token_stack st' = _token_stack st.
Proof. unfold add. cbn. intros [= <- <-]. cbn. auto. Qed.

Lemma ASTNode_add_length (h : Heap) (self other : nat) :
  length (ASTNode_add h self other).1 = length h.
Proof. unfold ASTNode_add. cbn. rewrite !length_alter. reflexivity. Qed.

(** Appending one new object to another leaves the older objects alone. *)
Lemma ASTNode_add_prefix (h0 h : Heap) (self other : nat) :
  h0 `prefix_of` h -> length h0 <= self -> length h0 <= other ->
  h0 `prefix_of` (ASTNode_add h self other).1.
Proof.
  intros [k ->] Hs Ho. unfold ASTNode_add. cbn.
  rewrite (alter_app_r_alt _ h0 k self) by assumption.
  rewrite (alter_app_r_alt _ h0 _ other) by assumption.
  apply prefix_app_r. reflexivity.
Qed.

Lemma add_evolves (st0 : State) (self other : nat) (st : State) (node : nat)
    (st' : State) :
  evolves st0 st -> length (heap st0) <= self -> length (heap st0) <= other ->
  add self other st = Returns (node, st') ->
  evolves st0 st' /\ node = self /\ length (heap st') = length (heap st).
Proof.
  intros (Hh & He & Hp) Hs Ho H.
  apply add_returns in H as (-> & Hh' & Ht & Hk).
  unfold evolves, pending. rewrite Hh', Ht, Hk, ASTNode_add_length.
  repeat split; auto. apply ASTNode_add_prefix; assumption.
Qed.

Lemma evolves_length (st st' : State) :
  evolves st st' -> length (heap st) <= length (heap st').
Proof. intros (Hh & _). apply prefix_length. assumption. Qed.

Ltac inv_ret H :=
  unfold ret in H; injection H as ? ?; subst.

Lemma _parse_func_head_returns (st : State) (node : nat) (st' : State) :
  _parse_func_head st = Returns (node, st') ->
  evolves st st' /\ length (heap st) <= node < length (heap st') /\
  pending st' < pending st.
Proof.
  unfold _parse_func_head. intros H.
  apply bind_returns in H as (name & st1 & H1 & H).
  destruct (bool_decide (type name <> NAME)); [discriminate|].
  apply bind_returns in H as (node0 & st2 & H2 & H).
  apply bind_returns in H as (prev & st3 & H3 & H).
  destruct (bool_decide (type prev <> LPARENTHESES)); [discriminate|].
  apply bind_returns in H as (prev' & st4 & H4 & H).
  apply bind_returns in H as (u & st5 & H5 & H).
  apply bind_returns in H as (prev'' & st6 & H6 & H).
  apply bind_returns in H as (u' & st7 & H7 & H).
  inv_ret H.
  assert (st5 = st4) as ->.
  { destruct (type prev'); try discriminate H5. inv_ret H5. reflexivity. }
  assert (H7' : set_next_token prev'' st6 = Returns (u', st')).
  { destruct (type prev''); try exact H7. discriminate H7. }
  clear H5 H7.
  apply next_token_returns in H1 as (Hh1 & He1 & Hp1).
  apply new_ASTNode_returns in H2 as (-> & Hh2 & Ht2 & Hs2).
  apply next_token_returns in H3 as (Hh3 & He3 & Hp3).
  apply next_token_returns in H4 as (Hh4 & He4 & Hp4).
  apply next_token_returns in H6 as (Hh6 & He6 & Hp6).
  apply set_next_token_returns in H7' as (Hh7 & He7 & Hp7).
  assert (Hp2 : pending st2 = pending st1)
    by (unfold pending; rewrite Ht2, Hs2; reflexivity).
  assert (Hheap : heap st' = heap st ++
            [mkASTNode (default (mkToken "." ROOT) (Some name)) None []])
    by congruence.
  unfold evolves. rewrite Hheap, length_app, Hh1. cbn.
  repeat split; try lia.
  - apply prefix_app_r. reflexivity.
  - rewrite He7, He6, He4, He3, Ht2. assumption.
Qed.

Lemma _parse_func_head_allocates : allocates _parse_func_head.
Proof.
  intros st node st' H. apply _parse_func_head_returns in H. tauto.
Qed.

Section ParseSourceFacts.
Variable parse_source : M nat.
Hypothesis parse_source_allocates : allocates parse_source.

Lemma _parse_scope_returns (st : State) (node : nat) (st' : State) :
  _parse_scope parse_source st = Returns (node, st') ->
  exists prev st1,
    next_token st = Returns (prev, st1) /\ type prev = LBRACE /\
    exists st2 prev',
      parse_source st1 = Returns (node, st2) /\
      next_token st2 = Returns (prev', st') /\ type prev' = RBRACE.
Proof.
  unfold _parse_scope. intros H.
  apply bind_returns in H as (prev & st1 & H1 & H).
  destruct (bool_decide_reflect (type prev <> LBRACE)) as [|Hty];
    [discriminate|].
  apply bind_returns in H as (node0 & st2 & H2 & H).
  apply bind_returns in H as (prev' & st3 & H3 & H).
  destruct (bool_decide_reflect (type prev' <> RBRACE)) as [|Hty'];
    [discriminate|].
  inv_ret H.
  exists prev, st1. repeat split; [assumption | |].
  { destruct (decide (type prev = LBRACE)); [assumption | contradiction]. }
  exists st2, prev'. repeat split; try assumption.
  destruct (decide (type prev' = RBRACE)); [assumption | contradiction].
Qed.

Lemma _parse_scope_allocates : allocates (_parse_scope parse_source).
Proof.
  intros st node st' H.
  apply _parse_scope_returns in H
    as (prev & st1 & H1 & _ & st2 & prev' & H2 & H3 & _).
  apply next_token_evolves in H1 as (E1 & _).
  apply parse_source_allocates in H2 as (E2 & Hn).
  apply next_token_evolves in H3 as (E3 & _).
  pose proof (evolves_length _ _ E1). pose proof (evolves_length _ _ E3).
  split; [etrans; [eassumption | etrans; eassumption] | lia].
Qed.

Lemma _parse_func_stmt_allocates (prev : Token) :
  allocates (_parse_func_stmt parse_source prev).
Proof.
  intros st node st'. unfold _parse_func_stmt. intros H.
  apply bind_returns in H as (node0 & st1 & H1 & H).
  apply bind_returns in H as (head & st2 & H2 & H).
  apply bind_returns in H as (r & st3 & H3 & H).
  apply bind_returns in H as (scope & st4 & H4 & H).
  apply bind_returns in H as (r' & st5 & H5 & H).
  inv_ret H.
  apply new_ASTNode_evolves in H1 as (E1 & -> & Hn1).
  apply _parse_func_head_allocates in H2 as (E2 & Hn2).
  assert (E02 : evolves st st2) by (etrans; eassumption).
  pose proof (evolves_length _ _ E1).
  eapply add_evolves in H3 as (E3 & _ & Hl3); [|exact E02|lia..].
  apply _parse_scope_allocates in H4 as (E4 & Hn4).
  assert (E04 : evolves st st4).
  { etrans; [exact E3|].
    destruct E4 as (Hh & He & Hp). repeat split; assumption. }
  pose proof (evolves_length _ _ E2).
  eapply add_evolves in H5 as (E5 & _ & Hl5); [|exact E04|lia..].
  split; [exact E5|]. pose proof (evolves_length _ _ E4). lia.
Qed.

Lemma _parse_block_allocates (prev : Token) :
  allocates (_parse_block parse_source prev).
Proof.
  intros st node st'. unfold _parse_block.
  destruct (type prev); try discriminate.
  - apply _parse_func_stmt_allocates.
  - intros H. apply new_ASTNode_evolves in H as (E & -> & Hn).
    split; [assumption | lia].
Qed.
End ParseSourceFacts.

(** [_parse_source] returns a node it created, of category ROOT, with no
    parent and at most one child. *)
Lemma _parse_source_returns (fuel : nat) (st : State) (root : nat)
    (st' : State) :
  _parse_source fuel st = Returns (root, st') ->
  evolves st st' /\ root = length (heap st) /\ root < length (heap st') /\
  exists n,
    heap st' !! root = Some n /\ _token n = mkToken "." ROOT /\
    _parent n = None /\ length (_childs n) <= 1.
Proof.
  revert st root st'. induction fuel as [|fuel IH]; intros st root st' H;
    [discriminate|].
  assert (IHa : allocates (_parse_source fuel)).
  { intros s n s' Hs. apply IH in Hs as (E & -> & Hlt & _). split; [assumption|lia]. }
  cbn [_parse_source] in H.
  apply bind_returns in H as (root0 & st1 & H1 & H).
  apply bind_returns in H as (prev & st2 & H2 & H).
  apply bind_returns in H as (u & st3 & H3 & H).
  inv_ret H.
  assert (H3' :
    set_next_token prev st2 = Returns (u, st') \/
    ((block <- _parse_block (_parse_source fuel) prev ;;
      add root block ;; ret tt) st2 = Returns (u, st'))).
  { destruct (type prev); auto. }
  clear H3.
  apply new_ASTNode_evolves in H1 as E1.
  destruct E1 as (E1 & -> & Hlt1).
  apply new_ASTNode_returns in H1 as (_ & Hh1 & _ & _). cbn in Hh1.
  apply next_token_returns in H2 as H2'. destruct H2' as (Hh2 & _ & Hp2).
  apply next_token_evolves in H2 as (E2 & _).
  assert (E02 : evolves st st2) by (etrans; eassumption).
  destruct H3' as [H3 | H3].
  - apply set_next_token_returns in H3 as (Hh3 & He3 & Hp3).
    split; [|split; [reflexivity|split]].
    + destruct E02 as (Hh & He & Hp). destruct E1 as (_ & _ & Hp1).
      unfold evolves. rewrite Hh3, He3. repeat split; auto. lia.
    + rewrite Hh3, Hh2. lia.
    + eexists. rewrite Hh3, Hh2, Hh1. split; [apply list_lookup_middle; reflexivity|].
      cbn. auto.
  - apply bind_returns in H3 as (block & st3 & Hb & H3).
    apply bind_returns in H3 as (r & st4 & Ha & H3).
    inv_ret H3.
    apply _parse_block_allocates in Hb as (Eb & Hnb); [|assumption].
    assert (Hroot : heap st3 !! length (heap st)
              = Some (mkASTNode (mkToken "." ROOT) None [])).
    { destruct Eb as ([k Hk] & _). rewrite Hk, Hh2, Hh1, <- app_assoc.
      apply list_lookup_middle. reflexivity. }
    assert (Hlen2 : length (heap st2) = S (length (heap st)))
      by (rewrite Hh2, Hh1, length_app; cbn; lia).
    apply add_returns in Ha as Ha'. destruct Ha' as (_ & Hh4 & _ & _).
    eapply add_evolves in Ha as (E4 & _ & Hl4);
      [|etrans; [exact E02 | exact Eb]|lia..].
    split; [exact E4|]. split; [reflexivity|]. split; [lia|].
    eexists. split.
    + rewrite Hh4. apply add_lookup_self; [lia | exact Hroot].
    + cbn. auto.
Qed.

Lemma _parse_source_allocates (fuel : nat) : allocates (_parse_source fuel).
Proof.
  intros st node st' H.
  apply _parse_source_returns in H as (E & -> & Hlt & _).
  split; [assumption | lia].
Qed.

(** ** The parser's fuel is enough *)

Lemma evolves_live (st st' : State) : evolves st st' -> live st -> live st'.
Proof. unfold live. intros (_ & -> & _). auto. Qed.

Lemma bind_settled {A B} (m : M A) (k : A -> M B) (st : State) :
  settled (m st) ->
  (forall a st1, m st = Returns (a, st1) -> settled (k a st1)) ->
  settled (bind m k st).
Proof.
  unfold bind. destruct (m st) as [[a st1]| | |]; cbn; auto.
Qed.

Lemma next_token_settled (st : State) : live st -> settled (next_token st).
Proof.
  unfold live, next_token.
  destruct (list_pop (_token_stack st)) as [[v stack]|]; cbn; [auto|].
  destruct (_tokens st) as [[|t ts] [ |e| ]]; cbn; auto.
Qed.

Lemma _parse_func_head_settled (st : State) :
  live st -> settled (_parse_func_head st).
Proof.
  intros Hlive. unfold _parse_func_head.
  apply bind_settled; [apply next_token_settled; assumption|].
  intros name st1 H1. apply next_token_evolves in H1 as (E1 & _).
  destruct (bool_decide (type name <> NAME)); [exact I|].
  apply bind_settled; [exact I|].
  intros node st2 H2. apply new_ASTNode_evolves in H2 as (E2 & _).
  assert (L2 : live st2) by eauto using evolves_live.
  apply bind_settled; [apply next_token_settled; assumption|].
  intros prev st3 H3. apply next_token_evolves in H3 as (E3 & _).
  assert (L3 : live st3) by eauto using evolves_live.
  destruct (bool_decide (type prev <> LPARENTHESES)); [exact I|].
  apply bind_settled; [apply next_token_settled; assumption|].
  intros prev' st4 H4. apply next_token_evolves in H4 as (E4 & _).
  assert (L4 : live st4) by eauto using evolves_live.
  apply bind_settled; [destruct (type prev'); exact I|].
  intros u st5 H5.
  assert (st5 = st4) as ->.
  { destruct (type prev'); try discriminate H5. inv_ret H5. reflexivity. }
  apply bind_settled; [apply next_token_settled; assumption|].
  intros prev'' st6 H6.
  apply bind_settled; [destruct (type prev''); exact I|].
  intros u' st7 H7. exact I.
Qed.

Section FuelFacts.
Variables (parse_source : M nat) (bound : nat).
Hypothesis parse_source_allocates : allocates parse_source.
Hypothesis parse_source_settled :
  forall st, live st -> pending st < bound -> settled (parse_source st).

Lemma _parse_scope_settled (st : State) :
  live st -> pending st <= bound -> settled (_parse_scope parse_source st).
Proof.
  intros Hlive Hp. unfold _parse_scope.
  apply bind_settled; [apply next_token_settled; assumption|].
  intros prev st1 H1. apply next_token_evolves in H1 as (E1 & Hp1).
  assert (L1 : live st1) by eauto using evolves_live.
  destruct (bool_decide (type prev <> LBRACE)); [exact I|].
  apply bind_settled; [apply parse_source_settled; [assumption | lia]|].
  intros node st2 H2. apply parse_source_allocates in H2 as (E2 & _).
  assert (L2 : live st2) by eauto using evolves_live.
  apply bind_settled; [apply next_token_settled; assumption|].
  intros prev' st3 H3.
  destruct (bool_decide (type prev' <> RBRACE)); exact I.
Qed.

Lemma _parse_func_stmt_settled (prev : Token) (st : State) :
  live st -> pending st <= bound ->
  settled (_parse_func_stmt parse_source prev st).
Proof.
  intros Hlive Hp. unfold _parse_func_stmt.
  apply bind_settled; [exact I|].
  intros node st1 H1. apply new_ASTNode_evolves in H1 as (E1 & _).
  assert (L1 : live st1) by eauto using evolves_live.
  apply bind_settled; [apply _parse_func_head_settled; assumption|].
  intros head st2 H2. apply _parse_func_head_returns in H2 as (E2 & _ & Hp2).
  assert (L2 : live st2) by eauto using evolves_live.
  apply bind_settled; [exact I|].
  intros r st3 H3. apply add_returns in H3 as (_ & _ & Ht3 & Hs3).
  apply bind_settled.
  - apply _parse_scope_settled.
    + unfold live. rewrite Ht3. exact L2.
    + destruct E1 as (_ & _ & Hp1).
      unfold pending in *. rewrite Ht3, Hs3. lia.
  - intros scope st4 H4. apply bind_settled; [exact I|].
    intros r' st5 H5. exact I.
Qed.

Lemma _parse_block_settled (prev : Token) (st : State) :
  live st -> pending st <= bound ->
  settled (_parse_block parse_source prev st).
Proof.
  intros Hlive Hp. unfold _parse_block.
  destruct (type prev); try exact I.
  apply _parse_func_stmt_settled; assumption.
Qed.
End FuelFacts.

(** One unit of fuel per token that is left to read is enough for
    [_parse_source] to come to its own end. *)
Lemma _parse_source_settled (fuel : nat) (st : State) :
  live st -> pending st < fuel -> settled (_parse_source fuel st).
Proof.
  revert st. induction fuel as [|fuel IH]; intros st Hlive Hp; [lia|].
  cbn [_parse_source].
  apply bind_settled; [exact I|].
  intros root st1 H1. apply new_ASTNode_evolves in H1 as (E1 & _).
  assert (L1 : live st1) by eauto using evolves_live.
  apply bind_settled; [apply next_token_settled; assumption|].
  intros prev st2 H2. apply next_token_evolves in H2 as (E2 & Hp2).
  assert (L2 : live st2) by eauto using evolves_live.
  destruct E1 as (_ & _ & Hp1).
  apply bind_settled; [|intros; exact I].
  assert (Hblock : settled
    ((block <- _parse_block (_parse_source fuel) prev ;;
      add root block ;; ret tt) st2)).
  { apply bind_settled.
    - apply (_parse_block_settled _ fuel (_parse_source_allocates fuel) IH);
        [assumption | lia].
    - intros block st3 H3. apply bind_settled; [exact I|]. intros; exact I. }
  destruct (type prev); try exact Hblock. exact I.
Qed.

(** [parse] always comes to its own end: it returns a node or raises. *)
Lemma parse_fuel (h : Heap) (src : string) : settled (parse_in h src).
Proof.
  unfold parse_in. apply _parse_source_settled.
  - unfold live. cbn. rewrite lexer_end. discriminate.
  - unfold pending. cbn. lia.
Qed.

(** ** Tokens after the first statement *)

Lemma unaware_bind {A B} (m : M A) (k : A -> M B) :
  unaware m -> (forall a, unaware (k a)) -> unaware (bind m k).
Proof.
  intros Hm Hk extra e st b st' H.
  apply bind_returns in H as (a & st1 & H1 & H2).
  unfold bind. rewrite (Hm extra e _ _ _ H1). apply Hk. assumption.
Qed.

Lemma unaware_ret {A} (a : A) : unaware (ret a).
Proof. intros extra e st b st' [= <- <-]. reflexivity. Qed.

Lemma unaware_raise {A} (e : Exn) : unaware (@raise A e).
Proof. intros extra e' st b st' H. discriminate H. Qed.

Lemma unaware_next_token : unaware next_token.
Proof.
  intros extra e st t st'. unfold next_token, more_tokens. cbn.
  destruct (list_pop (_token_stack st)) as [[v stack]|].
  - intros [= <- <-]. reflexivity.
  - destruct (_tokens st) as [[|t' ts] [ |e'| ]]; try discriminate;
      intros [= <- <-]; reflexivity.
Qed.

Lemma unaware_set_next_token (v : Token) : unaware (set_next_token v).
Proof. intros extra e st u st' [= <- <-]. reflexivity. Qed.

Lemma unaware_new_ASTNode (token : option Token) : unaware (new_ASTNode token).
Proof. intros extra e st node st' [= <- <-]. reflexivity. Qed.

Lemma unaware_add (self other : nat) : unaware (add self other).
Proof. intros extra e st node st' [= <- <-]. reflexivity. Qed.

Lemma unaware_if {A} (b : bool) (m1 m2 : M A) :
  unaware m1 -> unaware m2 -> unaware (if b then m1 else m2).
Proof. destruct b; auto. Qed.

Create HintDb unaware.
#[local] Hint Resolve unaware_ret unaware_raise unaware_next_token
  unaware_set_next_token unaware_new_ASTNode unaware_add : unaware.

Ltac unaware :=
  repeat first
    [ assumption
    | apply unaware_bind; [|intros ?]
    | apply unaware_if
    | solve [auto with unaware]
    | match goal with
      | |- unaware (match type ?t with _ => _ end) => destruct (type t)
      end ].

Lemma unaware_func_head : unaware _parse_func_head.
Proof.
  unfold _parse_func_head, _parse_func_args, _parse_type_hint. unaware.
Qed.

Lemma unaware_block (parse_source : M nat) (prev : Token) :
  unaware parse_source -> unaware (_parse_block parse_source prev).
Proof.
  intros Hps. unfold _parse_block, _parse_func_stmt, _parse_scope.
  pose proof unaware_func_head. unaware.
Qed.

Lemma unaware_source (fuel : nat) : unaware (_parse_source fuel).
Proof.
  induction fuel as [|fuel IH]; [intros extra e st a st' H; discriminate H|].
  cbn [_parse_source].
  apply unaware_bind; [unaware|intros root].
  apply unaware_bind; [unaware|intros prev].
  pose proof (unaware_block _ prev IH). unaware.
Qed.

(** C9: whenever [parse] returns, the root it returns has at most one child,
    and what follows the first top-level statement is not read: with any
    further tokens in the stream, however the stream then ends, [parse]
    returns the same root and leaves them in the stream.  So "nop nop"
    parses to a root with exactly one child, a NOP, and the second "nop"
    stays in the stream. *)
Theorem parse_at_most_one_statement (h : Heap) (src : string) (root : nat)
    (st : State) :
  parse_in h src = Returns (root, st) ->
  (exists cs, childs_of (heap st) root = Some cs /\ length cs <= 1) /\
  (forall extra e,
     _parse_source (S (length (lexer src).1))
       (mkState ((lexer src).1 ++ extra, e) [] h)
     = Returns (root, more_tokens extra e st)) /\
  (exists st2,
     parse "nop nop" = Returns (0, st2) /\
     childs_of (heap st2) 0 = Some [1] /\
     type <$> token_of (heap st2) 1 = Some NOP /\
     childs_of (heap st2) 1 = Some [] /\
     _tokens st2 = ([mkToken "nop" NOP], Return) /\
     _token_stack st2 = []).
Proof.
  intros H. split; [|split].
  - unfold parse_in in H.
    apply _parse_source_returns in H as (_ & _ & _ & n & Hn & _ & _ & Hc).
    exists (_childs n). unfold childs_of. rewrite Hn. auto.
  - intros extra e. unfold parse_in in H.
    exact (unaware_source _ extra e _ _ _ H).
  - eexists. split; [vm_compute; reflexivity|]. repeat split.
Qed.

Lemma parse_at_most_one_statement_witness :
  exists cs,
    childs_of
      [ mkASTNode (mkToken "." ROOT) None [1];
        mkASTNode (mkToken "nop" NOP) (Some 0) [] ] 0 = Some cs /\
    length cs <= 1.
Proof.
  exact (proj1 (parse_at_most_one_statement [] "nop nop" 0
                  (mkState ([mkToken "nop" NOP], Return) []
                     [ mkASTNode (mkToken "." ROOT) None [1];
                       mkASTNode (mkToken "nop" NOP) (Some 0) [] ])
                  eq_refl)).
Defined.

(** C10: when the first token after noise removal is a closing brace, as in
    the source "}", [parse] returns a root without children and raises
    nothing: the brace is pushed back on the token stack and stays there. *)
Theorem parse_leading_rbrace (h : Heap) (src : string) (t : Token)
    (ts : list Token) (e : End) :
  lexer src = (t :: ts, e) -> type t = RBRACE ->
  exists st,
    parse_in h src = Returns (length h, st) /\
    token_of (heap st) (length h) = Some (mkToken "." ROOT) /\
    childs_of (heap st) (length h) = Some [] /\
    _token_stack st = [t] /\
    _tokens st = (ts, e).
Proof.
  intros Hlex Hty. eexists. split.
  - unfold parse_in. rewrite Hlex. cbn [_parse_source fst length].
    unfold bind, new_ASTNode, next_token, ASTNode_init. cbn.
    rewrite Hty. reflexivity.
  - cbn. unfold token_of, childs_of.
    rewrite list_lookup_middle by reflexivity. auto.
Qed.

Lemma parse_leading_rbrace_witness :
  exists st,
    parse "}" = Returns (0, st) /\
    token_of (heap st) 0 = Some (mkToken "." ROOT) /\
    childs_of (heap st) 0 = Some [] /\
    _token_stack st = [mkToken "}" RBRACE] /\
    _tokens st = ([], Return).
Proof.
  exact (parse_leading_rbrace [] "}" (mkToken "}" RBRACE) [] Return
           eq_refl eq_refl).
Defined.

(* ===================================================================== *)
(** * Further properties of the lexer *)
(* ===================================================================== *)

(** ** The enumeration *)

(** X1: the values of [TokenType] are unique, as [enum.unique] demands, and
    the lookup by value inverts [value]: [TokenType(s)] is a member exactly
    when [s] is that member's spelling. *)
Theorem TokenType_value_lookup :
  (forall t1 t2, value t1 = value t2 -> t1 = t2) /\
  (forall ty s, value ty = StrValue s -> TokenType_call s = Some ty) /\
  (forall s ty, TokenType_call s = Some ty -> value ty = StrValue s).
Proof.
  split; [|split].
  - intros t1 t2. destruct t1, t2; simpl; congruence.
  - intros ty s. destruct ty; simpl; intros [= <-]; reflexivity.
  - intros s ty H. unfold TokenType_call in H.
    apply find_some in H as [_ H]. apply bool_decide_eq_true_1 in H.
    assumption.
Qed.

(** ** Noise removal is a filter *)

(** X2: noise removal keeps exactly the tokens that are no SPACE, COMMENT or
    NEWLINE, in their order, ends the way its input ends, and removing noise
    twice is removing it once. *)
Theorem lexer_remove_unuseful_filter (tokens : Gen) :
  lexer_remove_unuseful tokens
    = (List.filter (fun t => negb (is_noise (type t))) tokens.1, tokens.2) /\
  lexer_remove_unuseful (lexer_remove_unuseful tokens)
    = lexer_remove_unuseful tokens.
Proof.
  assert (H : forall g, lexer_remove_unuseful g
    = (List.filter (fun t => negb (is_noise (type t))) g.1, g.2)).
  { intros [ts e]. unfold lexer_remove_unuseful. cbn [fst snd].
    induction ts as [|t ts IH]; [reflexivity|].
    cbn [gen_for List.filter]. rewrite IH.
    destruct (type t); reflexivity. }
  split; [apply H|].
  rewrite !H. cbn [fst snd]. f_equal.
  induction tokens.1 as [|t ts IH]; [reflexivity|].
  cbn [List.filter]. destruct (negb (is_noise (type t))) eqn:Ht.
  - cbn [List.filter]. rewrite Ht, IH. reflexivity.
  - exact IH.
Qed.
(* ===================================================================== *)
(** * Further properties of the parser *)
(* ===================================================================== *)

(** ** The pushback stack *)

(** X3: a token that is pushed back is the next token read, and reading it
    restores the state; tokens pushed back come out last in, first out, and
    while the stack holds a token the lexer's stream is not touched. *)
Theorem next_token_pushback (st : State) (v v' : Token) :
  (set_next_token v ;; next_token) st = Returns (v, st) /\
  (set_next_token v ;; set_next_token v' ;;
   a <- next_token ;; b <- next_token ;; ret (a, b)) st
    = Returns ((v', v), st) /\
  (forall t st', next_token st = Returns (t, st') ->
     _token_stack st <> [] -> _tokens st' = _tokens st).
Proof.
  destruct st as [tokens stack h].
  split; [|split].
  - unfold bind, set_next_token, next_token. cbn.
    rewrite list_pop_snoc. reflexivity.
  - unfold bind, set_next_token, next_token, ret. cbn.
    rewrite list_pop_snoc. cbn. rewrite list_pop_snoc. reflexivity.
  - intros t st'. unfold next_token. cbn.
    destruct (list_pop stack) as [[x r]|] eqn:Hpop.
    + intros [= <- <-] _. reflexivity.
    + intros _ Hne. exfalso. apply Hne.
      unfold list_pop in Hpop. destruct (rev stack) eqn:Hrev; [|discriminate].
      rewrite <- (rev_involutive stack), Hrev. reflexivity.
Qed.

(** ** The first token decides *)

(** X4: a source without tokens after noise removal (empty, blank, only
    comments) makes [parse] raise [StopIteration]. *)
Theorem parse_no_tokens (h : Heap) (src : string) :
  (lexer src).1 = [] -> parse_in h src = Raises StopIteration.
Proof.
  intros H. unfold parse_in. rewrite H. cbn [length _parse_source].
  unfold bind, new_ASTNode, next_token. cbn.
  rewrite (surjective_pairing (lexer src)), H, lexer_end. reflexivity.
Qed.

Lemma parse_no_tokens_witness :
  parse_in [] ("  // only a comment" +:+ nl) = Raises StopIteration.
Proof.
  exact (parse_no_tokens [] ("  // only a comment" +:+ nl) eq_refl).
Defined.

(** X5: when the first token is neither a closing brace, nor NOP, nor FN,
    [parse] raises the error "Unexpected token" that carries it. *)
Theorem parse_unexpected_token (h : Heap) (src : string) (t : Token)
    (ts : list Token) (e : End) :
  lexer src = (t :: ts, e) ->
  type t <> RBRACE -> type t <> NOP -> type t <> FN ->
  parse_in h src = Raises (unexpected_token t).
Proof.
  intros Hlex H1 H2 H3. unfold parse_in. rewrite Hlex.
  cbn [length fst _parse_source].
  unfold bind, new_ASTNode, next_token, _parse_block. cbn.
  destruct (type t); try reflexivity; contradiction.
Qed.

Lemma parse_unexpected_token_witness :
  parse_in [] "1 + 2" = Raises (ValueError "Unexpected token: 1").
Proof.
  exact (parse_unexpected_token [] "1 + 2" (mkToken "1" NAME) _ _ eq_refl
           ltac:(discriminate) ltac:(discriminate) ltac:(discriminate)).
Defined.

(** X6: when the first token is a NOP, [parse] returns a new root whose only
    child is a new leaf that holds this token and has the root as its parent;
    the rest of the stream is not read. *)
Theorem parse_nop (h : Heap) (src : string) (t : Token) (ts : list Token)
    (e : End) :
  lexer src = (t :: ts, e) -> type t = NOP ->
  parse_in h src
    = Returns (length h,
               mkState (ts, e) []
                 (h ++ [ mkASTNode (mkToken "." ROOT) None [S (length h)];
                         mkASTNode t (Some (length h)) [] ])).
Proof.
  intros Hlex Hty. unfold parse_in. rewrite Hlex.
  cbn [length fst _parse_source].
  unfold bind, new_ASTNode, next_token, _parse_block, add, ret. cbn.
  rewrite Hty. cbn. rewrite !length_app. cbn.
  do 2 f_equal. f_equal. unfold ASTNode_add. cbn.
  rewrite <- app_assoc. cbn.
  replace (length h + 1) with (S (length h)) by lia.
  rewrite (alter_app_r_alt _ h _ (length h)) by lia.
  rewrite Nat.sub_diag. cbn.
  rewrite (alter_app_r_alt _ h _ (S (length h))) by lia.
  replace (S (length h) - length h) with 1 by lia. reflexivity.
Qed.

Lemma parse_nop_witness :
  parse_in [] "nop"
    = Returns (0, mkState ([], Return) []
                    [ mkASTNode (mkToken "." ROOT) None [1];
                      mkASTNode (mkToken "nop" NOP) (Some 0) [] ]).
Proof.
  exact (parse_nop [] "nop" (mkToken "nop" NOP) [] Return eq_refl eq_refl).
Defined.

(** ** Errors of a function statement *)

Ltac known_type t H :=
  let r := fresh "raw" in
  let ty := fresh "ty" in
  destruct t as [r ty]; cbn [type] in H; subst ty.

Ltac other_type t :=
  let r := fresh "raw" in
  let ty := fresh "ty" in
  destruct t as [r ty]; cbn [type] in *;
  destruct ty; try congruence; try reflexivity.

(** X7: after an FN token, [parse] raises "function should follow with name"
    on a token that is no NAME, "function should follow with ()" on a token
    after the name that is no opening parenthesis, [NotImplementedError] on
    anything but a closing parenthesis after it (parameters are not
    implemented), and [AttributeError] on an arrow after the parentheses (the
    method [_parse_type_hint] does not exist); each error carries the token
    read last, the two last ones nothing. *)
Theorem parse_func_head_errors (h : Heap) (src : string) (f : Token) :
  type f = FN ->
  (forall t ts e,
     lexer src = (f :: t :: ts, e) -> type t <> NAME ->
     parse_in h src = Raises (expecting_name t)) /\
  (forall n t ts e,
     lexer src = (f :: n :: t :: ts, e) ->
     type n = NAME -> type t <> LPARENTHESES ->
     parse_in h src = Raises (expecting_parentheses t)) /\
  (forall n p t ts e,
     lexer src = (f :: n :: p :: t :: ts, e) ->
     type n = NAME -> type p = LPARENTHESES -> type t <> RPARENTHESES ->
     parse_in h src = Raises NotImplementedError) /\
  (forall n p q t ts e,
     lexer src = (f :: n :: p :: q :: t :: ts, e) ->
     type n = NAME -> type p = LPARENTHESES -> type q = RPARENTHESES ->
     type t = ARROW ->
     exists msg, parse_in h src = Raises (AttributeError msg)).
Proof.
  intros Hf. known_type f Hf. repeat split.
  - intros t ts e Hlex Ht. unfold parse_in. rewrite Hlex. other_type t.
  - intros n t ts e Hlex Hn Ht. known_type n Hn.
    unfold parse_in. rewrite Hlex. other_type t.
  - intros n p t ts e Hlex Hn Hp Ht. known_type n Hn. known_type p Hp.
    unfold parse_in. rewrite Hlex. other_type t.
  - intros n p q t ts e Hlex Hn Hp Hq Ht.
    known_type n Hn. known_type p Hp. known_type q Hq. known_type t Ht.
    unfold parse_in. rewrite Hlex. eexists. reflexivity.
Qed.

Lemma parse_func_head_errors_witness :
  parse_in [] "fn (" = Raises (expecting_name (mkToken "(" LPARENTHESES)) /\
  parse_in [] "fn main {" = Raises (expecting_parentheses (mkToken "{" LBRACE)) /\
  parse_in [] "fn main(a)" = Raises NotImplementedError /\
  exists msg, parse_in [] "fn main() -> int" = Raises (AttributeError msg).
Proof.
  split; [|split; [|split]].
  - exact (proj1 (parse_func_head_errors [] "fn (" (mkToken "fn" FN) eq_refl)
             (mkToken "(" LPARENTHESES) [] Return eq_refl ltac:(discriminate)).
  - exact (proj1 (proj2
             (parse_func_head_errors [] "fn main {" (mkToken "fn" FN) eq_refl))
             (mkToken "main" NAME) (mkToken "{" LBRACE) [] Return
             eq_refl eq_refl ltac:(discriminate)).
  - exact (proj1 (proj2 (proj2
             (parse_func_head_errors [] "fn main(a)" (mkToken "fn" FN) eq_refl)))
             (mkToken "main" NAME) (mkToken "(" LPARENTHESES)
             (mkToken "a" NAME) [mkToken ")" RPARENTHESES] Return
             eq_refl eq_refl eq_refl ltac:(discriminate)).
  - exact (proj2 (proj2 (proj2
             (parse_func_head_errors [] "fn main() -> int" (mkToken "fn" FN)
                eq_refl)))
             (mkToken "main" NAME) (mkToken "(" LPARENTHESES)
             (mkToken ")" RPARENTHESES) (mkToken "->" ARROW)
             [mkToken "int" NAME] Return
             eq_refl eq_refl eq_refl eq_refl eq_refl).
Defined.

(** X8: after the head of a function, [parse] raises "expecting {" on a token
    that is neither an arrow nor an opening brace; and a scope holds one
    statement at most: on a token after the statement that is no closing
    brace, [parse] raises "expecting }".  Each error carries the token. *)
Theorem parse_scope_errors (h : Heap) (src : string) (f n p q : Token) :
  type f = FN -> type n = NAME ->
  type p = LPARENTHESES -> type q = RPARENTHESES ->
  (forall t ts e,
     lexer src = (f :: n :: p :: q :: t :: ts, e) ->
     type t <> ARROW -> type t <> LBRACE ->
     parse_in h src = Raises (expecting_lbrace t)) /\
  (forall l s t ts e,
     lexer src = (f :: n :: p :: q :: l :: s :: t :: ts, e) ->
     type l = LBRACE -> type s = NOP -> type t <> RBRACE ->
     parse_in h src = Raises (expecting_rbrace t)).
Proof.
  intros Hf Hn Hp Hq.
  known_type f Hf. known_type n Hn. known_type p Hp. known_type q Hq.
  split.
  - intros t ts e Hlex Ht1 Ht2. unfold parse_in. rewrite Hlex. other_type t.
  - intros l s t ts e Hlex Hl Hs Ht. known_type l Hl. known_type s Hs.
    unfold parse_in. rewrite Hlex. other_type t.
Qed.

Lemma parse_scope_errors_witness :
  parse_in [] "fn main() nop" = Raises (expecting_lbrace (mkToken "nop" NOP)) /\
  parse_in [] "fn main() { nop nop }"
    = Raises (expecting_rbrace (mkToken "nop" NOP)).
Proof.
  pose proof (parse_scope_errors [] "fn main() nop" (mkToken "fn" FN)
                (mkToken "main" NAME) (mkToken "(" LPARENTHESES)
                (mkToken ")" RPARENTHESES) eq_refl eq_refl eq_refl eq_refl)
    as [H1 _].
  pose proof (parse_scope_errors [] "fn main() { nop nop }" (mkToken "fn" FN)
                (mkToken "main" NAME) (mkToken "(" LPARENTHESES)
                (mkToken ")" RPARENTHESES) eq_refl eq_refl eq_refl eq_refl)
    as [_ H2].
  split.
  - exact (H1 (mkToken "nop" NOP) [] Return eq_refl
             ltac:(discriminate) ltac:(discriminate)).
  - exact (H2 (mkToken "{" LBRACE) (mkToken "nop" NOP) (mkToken "nop" NOP)
             [mkToken "}" RBRACE] Return eq_refl eq_refl eq_refl
             ltac:(discriminate)).
Defined.

(** ** What [parse] does to the object store *)

(** X9: when [parse] returns, the root is a new object of category ROOT
    without a parent, and every object that existed before the call is as it
    was. *)
Theorem parse_new_root (h : Heap) (src : string) (root : nat) (st : State) :
  parse_in h src = Returns (root, st) ->
  root = length h /\
  h `prefix_of` heap st /\
  (forall i node, h !! i = Some node -> heap st !! i = Some node) /\
  exists n,
    heap st !! root = Some n /\ _token n = mkToken "." ROOT /\
    _parent n = None.
Proof.
  intros H. unfold parse_in in H.
  apply _parse_source_returns in H
    as ((Hpre & _) & -> & _ & n & Hn & Htok & Hpar & _).
  cbn in Hpre. repeat split; auto.
  - intros i node Hi. destruct Hpre as [k ->].
    apply lookup_app_l_Some. assumption.
  - eauto.
Qed.

Lemma parse_new_root_witness :
  exists n,
    [ mkASTNode (mkToken "x" NAME) None [];
      mkASTNode (mkToken "." ROOT) None [2];
      mkASTNode (mkToken "nop" NOP) (Some 1) [] ] !! 1 = Some n /\
    _token n = mkToken "." ROOT /\ _parent n = None.
Proof.
  exact (proj2 (proj2 (proj2
    (parse_new_root [mkASTNode (mkToken "x" NAME) None []] "nop" 1
       (mkState ([], Return) []
          [ mkASTNode (mkToken "x" NAME) None [];
            mkASTNode (mkToken "." ROOT) None [2];
            mkASTNode (mkToken "nop" NOP) (Some 1) [] ])
       eq_refl)))).
Defined.

(** ** The parser terminates *)

(** X10: on every source [parse] comes to an end: it returns a node or it
    raises an exception; the recursion through nested scopes is bounded by
    the number of tokens. *)
Theorem parse_terminates (h : Heap) (src : string) :
  (exists root st, parse_in h src = Returns (root, st)) \/
  (exists e, parse_in h src = Raises e).
Proof.
  pose proof (parse_fuel h src) as H.
  destruct (parse_in h src) as [[root st]|e| |]; cbn in H; try contradiction;
    eauto.
Qed.


(* ===================================================================== *)
(** * Further properties of [ASTNode] *)
(* ===================================================================== *)

(** What [self + other] leaves in the store, also when [self] is [other]. *)
Lemma add_lookup (h : Heap) (self other i : nat) :
  (ASTNode_add h self other).1 !! i
    = (fun n => mkASTNode (_token n)
                  (if decide (i = other) then Some self else _parent n)
                  (if decide (i = self) then _childs n ++ [other]
                   else _childs n))
      <$> h !! i.
Proof.
  unfold ASTNode_add. cbn [fst].
  destruct (decide (i = other)) as [Ho|Ho], (decide (i = self)) as [Hs|Hs].
  - subst other. subst i. rewrite !list_lookup_alter_eq.
    destruct (h !! self); reflexivity.
  - subst i. rewrite list_lookup_alter_eq, list_lookup_alter_ne by congruence.
    destruct (h !! other); reflexivity.
  - subst i. rewrite list_lookup_alter_ne, list_lookup_alter_eq by congruence.
    destruct (h !! self) as [[]|]; reflexivity.
  - rewrite !list_lookup_alter_ne by congruence.
    destruct (h !! i) as [[]|]; reflexivity.
Qed.

(** X11: after [self + other] the node [other] is a member of [self], is no
    root, and is the latest child of [self], whose children are the former
    ones followed by [other]; every third object is as it was.  This holds
    also when a node is appended to itself. *)
Theorem add_makes_latest (h : Heap) (self other : nat) (ns no : ASTNode) :
  h !! self = Some ns -> h !! other = Some no ->
  let h' := (ASTNode_add h self other).1 in
  ASTNode_contains h' self other = Returns true /\
  is_root h' other = Returns false /\
  is_latest h' other = Returns true /\
  childs_of h' self = Some (_childs ns ++ [other]) /\
  token_of h' self = Some (_token ns) /\
  token_of h' other = Some (_token no) /\
  (forall i, i <> self -> i <> other -> h' !! i = h !! i).
Proof.
  intros Hs Ho h'.
  assert (Hself : exists par,
    h' !! self = Some (mkASTNode (_token ns) par (_childs ns ++ [other]))).
  { subst h'. rewrite add_lookup, Hs. cbn.
    destruct (decide (self = self)) as [_|]; [eauto | congruence]. }
  assert (Hother : exists cs,
    h' !! other = Some (mkASTNode (_token no) (Some self) cs)).
  { subst h'. rewrite add_lookup, Ho. cbn.
    destruct (decide (other = other)) as [_|]; [eauto | congruence]. }
  destruct Hself as [par Hself], Hother as [cs Hother].
  assert (Hrest : forall i, i <> self -> i <> other -> h' !! i = h !! i).
  { intros i H1 H2. subst h'. rewrite add_lookup.
    destruct (h !! i) as [[]|]; [|reflexivity]. cbn.
    rewrite !decide_False by assumption. reflexivity. }
  clearbody h'.
  repeat split.
  - unfold ASTNode_contains. rewrite Hself. cbn. f_equal.
    apply bool_decide_eq_true_2. apply elem_of_app. right.
    apply list_elem_of_singleton. reflexivity.
  - unfold is_root. rewrite Hother. reflexivity.
  - unfold is_latest. rewrite Hother. cbn. rewrite Hself. cbn.
    rewrite last_snoc. f_equal. apply bool_decide_eq_true_2. reflexivity.
  - unfold childs_of. rewrite Hself. reflexivity.
  - unfold token_of. rewrite Hself. reflexivity.
  - unfold token_of. rewrite Hother. reflexivity.
  - exact Hrest.
Qed.

Lemma add_makes_latest_witness :
  is_latest (ASTNode_add three_nodes 0 1).1 1 = Returns true.
Proof.
  pose proof (add_makes_latest three_nodes 0 1 _ _ eq_refl eq_refl) as H.
  cbv zeta in H. exact (proj1 (proj2 (proj2 H))).
Defined.

(** X12: the empty store, [ASTNode(...)] and [self + other] on existing
    objects keep the store such that every object with a parent is among the
    children of that parent; in such a store [is_latest] returns a boolean
    for every object: [childs[-1]] never raises [IndexError]. *)
Theorem parent_listed_kept :
  parent_listed [] /\
  (forall h token, parent_listed h -> parent_listed (ASTNode_init token h).1) /\
  (forall h self other,
     parent_listed h -> self < length h -> other < length h ->
     parent_listed (ASTNode_add h self other).1) /\
  (forall h i,
     parent_listed h -> i < length h -> exists b, is_latest h i = Returns b).
Proof.
  split; [|split; [|split]].
  - intros i n p H. rewrite lookup_nil in H. discriminate.
  - intros h token Hwf i n p Hi Hp. cbn [ASTNode_init fst] in *.
    apply lookup_app_Some in Hi as [Hi | [_ Hi]].
    + destruct (Hwf i n p Hi Hp) as (pn & Hpn & Hin).
      exists pn. split; [apply lookup_app_l_Some|]; assumption.
    + destruct (i - length h) as [|k]; cbn in Hi.
      * injection Hi as <-. discriminate Hp.
      * destruct k; discriminate Hi.
  - intros h self other Hwf Hs Ho i n p Hi Hp.
    rewrite add_lookup in Hi.
    destruct (h !! i) as [ni|] eqn:Hni; [|discriminate].
    cbn in Hi. injection Hi as <-. cbn [_parent] in Hp.
    assert (Hgrow : forall q qn, h !! q = Some qn -> i ∈ _childs qn ->
      exists pn, (ASTNode_add h self other).1 !! q = Some pn /\ i ∈ _childs pn).
    { intros q qn Hq Hin. rewrite add_lookup, Hq. cbn. eexists. split; [reflexivity|].
      cbn. destruct (decide (q = self)); [|assumption].
      apply elem_of_app. left. assumption. }
    destruct (decide (i = other)) as [->|Hne].
    + injection Hp as <-.
      destruct (lookup_lt_is_Some_2 h self Hs) as [ns Hns].
      rewrite add_lookup, Hns. cbn. eexists. split; [reflexivity|]. cbn.
      rewrite decide_True by reflexivity.
      apply elem_of_app. right. apply list_elem_of_singleton. reflexivity.
    + destruct (Hwf i ni p Hni Hp) as (pn & Hpn & Hin). eauto.
  - intros h i Hwf Hi.
    destruct (lookup_lt_is_Some_2 h i Hi) as [n Hn].
    unfold is_latest. rewrite Hn.
    destruct (_parent n) as [p|] eqn:Hp; [|eauto].
    destruct (Hwf i n p Hn Hp) as (pn & -> & Hin).
    destruct (last (_childs pn)) as [c|] eqn:Hlast; [eauto|].
    apply last_None in Hlast. rewrite Hlast in Hin.
    apply elem_of_nil in Hin. contradiction.
Qed.


(* ===================================================================== *)
(** * The trees that [parse] builds *)
(* ===================================================================== *)

Lemma shaped_lookup (h : Heap) (k : Shape) (n : nat) :
  shaped h k n -> is_Some (h !! n).
Proof. destruct 1; eauto. Qed.

(** A tree stays what it is when the objects below its top are kept and its
    top keeps its token and its children. *)
Lemma shaped_preserved (h : Heap) (k : Shape) (n : nat) :
  shaped h k n ->
  forall h',
    (forall i node, n < i -> h !! i = Some node -> h' !! i = Some node) ->
    (forall node, h !! n = Some node ->
       exists node', h' !! n = Some node' /\ _token node' = _token node /\
                     _childs node' = _childs node) ->
    shaped h' k n.
Proof.
  induction 1 as [r n Hn Hty Hcs | r n s ns Hn Hty Hcs Hlt Hs Hp Hsub IH
                 | s n Hn Hty Hcs
                 | s n name nn body nb Hn Hty Hcs Hlt1 Hlt2 Hname Htn Hcn Hpn
                     Hbody Hpb Hsub IH];
    intros h' Hbelow Htop;
    destruct (Htop n Hn) as (n' & Hn' & Htok & Hch).
  - apply (shaped_empty h' r n' Hn'); congruence.
  - apply (shaped_one h' r n' s ns Hn'); try congruence; try assumption.
    + apply Hbelow; assumption.
    + apply IH.
      * intros i node Hi. apply Hbelow. lia.
      * intros node Hnode. exists node. split; [|auto].
        apply Hbelow; assumption.
  - apply (shaped_nop h' s n' Hn'); congruence.
  - apply (shaped_fn h' s n' name nn body nb Hn'); try congruence;
      try assumption.
    + apply Hbelow; assumption.
    + apply Hbelow; [lia | assumption].
    + apply IH.
      * intros i node Hi. apply Hbelow. lia.
      * intros node Hnode. exists node. split; [|auto].
        apply Hbelow; [lia | assumption].
Qed.

Lemma shaped_prefix (h h' : Heap) (k : Shape) (n : nat) :
  h `prefix_of` h' -> shaped h k n -> shaped h' k n.
Proof.
  intros [ext ->] H. apply (shaped_preserved _ _ _ H).
  - intros i node _ Hi. apply lookup_app_l_Some. assumption.
  - intros node Hnode. exists node. split; [|auto].
    apply lookup_app_l_Some. assumption.
Qed.

(** Appending a tree to an older node keeps the tree. *)
Lemma shaped_add (h : Heap) (k : Shape) (self n : nat) :
  self < n -> shaped h k n -> shaped (ASTNode_add h self n).1 k n.
Proof.
  intros Hlt H. apply (shaped_preserved _ _ _ H).
  - intros i node Hi Hnode. rewrite add_lookup, Hnode. cbn.
    rewrite !decide_False by lia. destruct node; reflexivity.
  - intros node Hnode. rewrite add_lookup, Hnode. cbn.
    eexists. split; [reflexivity|]. cbn.
    rewrite decide_False by lia. auto.
Qed.

(** The head of a function is one new leaf that holds a NAME token. *)
Lemma _parse_func_head_heap (st : State) (node : nat) (st' : State) :
  _parse_func_head st = Returns (node, st') ->
  exists name,
    type name = NAME /\ node = length (heap st) /\
    heap st' = heap st ++ [mkASTNode name None []].
Proof.
  unfold _parse_func_head. intros H.
  apply bind_returns in H as (name & st1 & H1 & H).
  destruct (bool_decide_reflect (type name <> NAME)) as [|Hname];
    [discriminate|].
  apply bind_returns in H as (node0 & st2 & H2 & H).
  apply bind_returns in H as (prev & st3 & H3 & H).
  destruct (bool_decide (type prev <> LPARENTHESES)); [discriminate|].
  apply bind_returns in H as (prev' & st4 & H4 & H).
  apply bind_returns in H as (u & st5 & H5 & H).
  apply bind_returns in H as (prev'' & st6 & H6 & H).
  apply bind_returns in H as (u' & st7 & H7 & H).
  inv_ret H.
  assert (st5 = st4) as ->.
  { destruct (type prev'); try discriminate H5. inv_ret H5. reflexivity. }
  assert (H7' : set_next_token prev'' st6 = Returns (u', st')).
  { destruct (type prev''); try exact H7. discriminate H7. }
  apply next_token_returns in H1 as (Hh1 & _).
  apply new_ASTNode_returns in H2 as (-> & Hh2 & _).
  apply next_token_returns in H3 as (Hh3 & _).
  apply next_token_returns in H4 as (Hh4 & _).
  apply next_token_returns in H6 as (Hh6 & _).
  apply set_next_token_returns in H7' as (Hh7 & _).
  exists name. split; [|split].
  - destruct (decide (type name = NAME)); [assumption | contradiction].
  - congruence.
  - cbn in Hh2. congruence.
Qed.

Section ShapeFacts.
Variable parse_source : M nat.
Hypothesis parse_source_allocates : allocates parse_source.
Hypothesis parse_source_shaped :
  forall st n st',
    parse_source st = Returns (n, st') -> shaped (heap st') Source n.

Lemma _parse_func_stmt_shaped (prev : Token) (st : State) (node : nat)
    (st' : State) :
  type prev = FN ->
  _parse_func_stmt parse_source prev st = Returns (node, st') ->
  shaped (heap st') Statement node.
Proof.
  intros Hfn. unfold _parse_func_stmt. intros H.
  apply bind_returns in H as (node0 & st1 & H1 & H).
  apply bind_returns in H as (head & st2 & H2 & H).
  apply bind_returns in H as (r & st3 & H3 & H).
  apply bind_returns in H as (scope & st4 & H4 & H).
  apply bind_returns in H as (r' & st5 & H5 & H).
  inv_ret H.
  apply new_ASTNode_returns in H1 as (-> & Hh1 & _). cbn in Hh1.
  apply _parse_func_head_heap in H2 as (name & Hname & -> & Hh2).
  apply add_returns in H3 as (_ & Hh3 & Ht3 & Hs3).
  apply _parse_scope_returns in H4
    as (p & st3a & Hn1 & _ & st3b & p' & Hps & Hn2 & _).
  apply next_token_returns in Hn1 as (Hha & _).
  apply next_token_returns in Hn2 as (Hhb & _).
  pose proof (parse_source_shaped _ _ _ Hps) as Hbody.
  apply parse_source_allocates in Hps as ((Hpre & _) & Hrange).
  apply add_returns in H5 as (_ & Hh5 & _).
  set (n0 := length (heap st)) in *.
  assert (Hl1 : length (heap st1) = S n0)
    by (rewrite Hh1, length_app; cbn; lia).
  assert (Hl3 : length (heap st3) = S (S n0)).
  { rewrite Hh3, ASTNode_add_length, Hh2, length_app, Hl1. cbn. lia. }
  rewrite Hha, Hl3 in Hrange. rewrite Hha in Hpre. rewrite <- Hhb in *.
  assert (Hne : n0 <> length (heap st1)) by lia.
  assert (H2top : heap st2 !! n0 = Some (mkASTNode prev None [])).
  { rewrite Hh2, Hh1, <- app_assoc. apply list_lookup_middle. reflexivity. }
  assert (H2head : heap st2 !! length (heap st1)
            = Some (mkASTNode name None [])).
  { rewrite Hh2. apply list_lookup_middle. reflexivity. }
  assert (H3top : heap st3 !! n0
            = Some (mkASTNode prev None [length (heap st1)])).
  { rewrite Hh3, (add_lookup_self _ _ _ Hne _ H2top). reflexivity. }
  assert (H3head : heap st3 !! length (heap st1)
            = Some (mkASTNode name (Some n0) [])).
  { rewrite Hh3, (add_lookup_other _ _ _ Hne _ H2head). reflexivity. }
  destruct Hpre as [ext Hext].
  destruct (shaped_lookup _ _ _ Hbody) as [nb Hnb].
  assert (Hne' : n0 <> scope) by lia.
  assert (H4top : heap st4 !! n0
            = Some (mkASTNode prev None [length (heap st1)])).
  { rewrite Hext. apply lookup_app_l_Some. exact H3top. }
  assert (H4head : heap st4 !! length (heap st1)
            = Some (mkASTNode name (Some n0) [])).
  { rewrite Hext. apply lookup_app_l_Some. exact H3head. }
  rewrite Hh5.
  apply (shaped_fn _ n0 (mkASTNode prev None [length (heap st1); scope])
           (length (heap st1)) (mkASTNode name (Some n0) [])
           scope (mkASTNode (_token nb) (Some n0) (_childs nb))).
  - rewrite (add_lookup_self _ _ _ Hne' _ H4top). reflexivity.
  - exact Hfn.
  - reflexivity.
  - lia.
  - lia.
  - rewrite add_lookup_ne by lia. exact H4head.
  - exact Hname.
  - reflexivity.
  - reflexivity.
  - rewrite (add_lookup_other _ _ _ Hne' _ Hnb). reflexivity.
  - reflexivity.
  - apply shaped_add; [lia | exact Hbody].
Qed.

Lemma _parse_block_shaped (prev : Token) (st : State) (node : nat)
    (st' : State) :
  _parse_block parse_source prev st = Returns (node, st') ->
  shaped (heap st') Statement node.
Proof.
  unfold _parse_block. destruct (type prev) eqn:Hty; try discriminate.
  - apply _parse_func_stmt_shaped. assumption.
  - intros H. apply new_ASTNode_returns in H as (-> & Hh & _). cbn in Hh.
    eapply shaped_nop.
    + rewrite Hh. apply list_lookup_middle. reflexivity.
    + exact Hty.
    + reflexivity.
Qed.
End ShapeFacts.

Lemma _parse_source_shaped (fuel : nat) (st : State) (root : nat)
    (st' : State) :
  _parse_source fuel st = Returns (root, st') ->
  shaped (heap st') Source root.
Proof.
  revert st root st'. induction fuel as [|fuel IH]; intros st root st' H;
    [discriminate|].
  pose proof (_parse_source_returns _ _ _ _ H)
    as (_ & -> & _ & n & Hn & Htok & _ & Hlen).
  cbn [_parse_source] in H.
  apply bind_returns in H as (root0 & st1 & H1 & H).
  apply bind_returns in H as (prev & st2 & H2 & H).
  apply bind_returns in H as (u & st3 & H3 & H).
  inv_ret H.
  apply new_ASTNode_returns in H1 as (_ & Hh1 & _). cbn in Hh1.
  apply next_token_returns in H2 as (Hh2 & _).
  assert (H3' :
    (_childs n = []) \/
    ((block <- _parse_block (_parse_source fuel) prev ;;
      add (length (heap st)) block ;; ret tt) st2 = Returns (u, st'))).
  { destruct (type prev); auto.
    left. apply set_next_token_returns in H3 as (Hh3 & _).
    rewrite Hh3, Hh2, Hh1 in Hn.
    rewrite list_lookup_middle in Hn by reflexivity.
    injection Hn as <-. reflexivity. }
  destruct H3' as [Hnil | H3'].
  - eapply shaped_empty; [exact Hn | rewrite Htok; reflexivity | exact Hnil].
  - apply bind_returns in H3' as (block & st4 & Hb & H3').
    apply bind_returns in H3' as (r & st5 & Ha & H3').
    inv_ret H3'.
    pose proof (_parse_block_shaped _ (_parse_source_allocates fuel) IH
                  _ _ _ _ Hb) as Hblock.
    apply _parse_block_allocates in Hb as ((Hpre & _) & Hrange);
      [|apply _parse_source_allocates].
    apply add_returns in Ha as (_ & Hh5 & _).
    assert (Hl2 : length (heap st2) = S (length (heap st)))
      by (rewrite Hh2, Hh1, length_app; cbn; lia).
    destruct (shaped_lookup _ _ _ Hblock) as [nb Hnb].
    destruct Hpre as [ext Hext].
    assert (Hroot : heap st4 !! length (heap st)
              = Some (mkASTNode (mkToken "." ROOT) None [])).
    { rewrite Hext, Hh2, Hh1, <- app_assoc.
      apply list_lookup_middle. reflexivity. }
    assert (Hne : length (heap st) <> block) by lia.
    rewrite Hh5.
    apply (shaped_one _ (length (heap st))
             (mkASTNode (mkToken "." ROOT) None [block]) block
             (mkASTNode (_token nb) (Some (length (heap st))) (_childs nb))).
    + rewrite (add_lookup_self _ _ _ Hne _ Hroot). reflexivity.
    + reflexivity.
    + reflexivity.
    + lia.
    + rewrite (add_lookup_other _ _ _ Hne _ Hnb). reflexivity.
    + reflexivity.
    + apply shaped_add; [lia | exact Hblock].
Qed.

(** X13: the tree that [parse] returns conforms to the grammar: its root is
    a ROOT node with no child or one statement; a statement is a NOP leaf or
    an FN node with exactly two children, a NAME leaf and the ROOT node of
    its scope, which has the same form.  Every child points back to its
    parent and is a newer object than its parent. *)
Theorem parse_conforms (h : Heap) (src : string) (root : nat) (st : State) :
  parse_in h src = Returns (root, st) -> shaped (heap st) Source root.
Proof. apply _parse_source_shaped. Qed.

Lemma parse_conforms_witness :
  shaped
    [ mkASTNode (mkToken "." ROOT) None [1];
      mkASTNode (mkToken "fn" FN) (Some 0) [2; 3];
      mkASTNode (mkToken "main" NAME) (Some 1) [];
      mkASTNode (mkToken "." ROOT) (Some 1) [] ] Source 0.
Proof.
  exact (parse_conforms [] "fn main() { }" 0
           (mkState ([], Return) []
              [ mkASTNode (mkToken "." ROOT) None [1];
                mkASTNode (mkToken "fn" FN) (Some 0) [2; 3];
                mkASTNode (mkToken "main" NAME) (Some 1) [];
                mkASTNode (mkToken "." ROOT) (Some 1) [] ])
           eq_refl).
Defined.

(** ** Rendering the trees that [parse] builds *)

Lemma str_leaf (fuel : nat) (h : Heap) (n : nat) (node : ASTNode)
    (indent : nat) :
  h !! n = Some node -> _childs node = [] ->
  (exists b, is_latest h n = Returns b) ->
  exists s, ASTNode_str (S fuel) h n indent = Returns s.
Proof.
  intros Hn Hcs [b Hb]. cbn [ASTNode_str]. rewrite Hn.
  unfold is_root. rewrite Hn. cbn [obind]. rewrite Hb, Hcs.
  destruct (bool_decide (_parent node = None)); cbn; eauto.
Qed.

(** A tree of the grammar is rendered whenever the recursion may go as deep
    as there are objects from its top on. *)
Lemma shaped_str (h : Heap) (k : Shape) (n : nat) :
  shaped h k n ->
  forall fuel indent,
    length h - n < fuel ->
    (exists b, is_latest h n = Returns b) ->
    exists s, ASTNode_str fuel h n indent = Returns s.
Proof.
  induction 1 as [r n Hn Hty Hcs | r n s ns Hn Hty Hcs Hlt Hs Hp Hsub IH
                 | s n Hn Hty Hcs
                 | s n name nn body nb Hn Hty Hcs Hlt1 Hlt2 Hname Htn Hcn Hpn
                     Hbody Hpb Hsub IH];
    intros fuel indent Hfuel Hlatest;
    (destruct fuel as [|fuel]; [lia|]).
  - eapply str_leaf; eassumption.
  - pose proof (lookup_lt_Some _ _ _ Hs) as Hslt.
    destruct (IH fuel (indent + 4)) as [ss Hss]; [lia | |].
    { unfold is_latest. rewrite Hs, Hp, Hn, Hcs. cbn. eauto. }
    destruct Hlatest as [b Hb].
    cbn [ASTNode_str]. rewrite Hn. unfold is_root. rewrite Hn. cbn [obind].
    rewrite Hb, Hcs. cbn [str_childs]. rewrite Hss.
    destruct (bool_decide (_parent n = None)); cbn; eauto.
  - eapply str_leaf; eassumption.
  - pose proof (lookup_lt_Some _ _ _ Hbody) as Hblt.
    destruct fuel as [|fuel]; [lia|].
    destruct (str_leaf fuel h name nn (indent + 4) Hname Hcn) as [sn Hsn].
    { unfold is_latest. rewrite Hname, Hpn, Hn, Hcs. cbn. eauto. }
    destruct (IH (S fuel) (indent + 4)) as [sb Hsb]; [lia | |].
    { unfold is_latest. rewrite Hbody, Hpb, Hn, Hcs. cbn. eauto. }
    destruct Hlatest as [b Hb].
    remember (S fuel) as fuel' eqn:Hfuel'.
    cbn [ASTNode_str]. rewrite Hn. unfold is_root. rewrite Hn. cbn [obind].
    rewrite Hb, Hcs. cbn [str_childs]. rewrite Hsn, Hsb.
    destruct (bool_decide (_parent n = None)); cbn; eauto.
Qed.

(** X14: the tree that [parse] returns can be rendered: [__str__] of the
    root returns a string whenever the recursion may go as deep as there are
    objects in the store (it raises nothing, [IndexError] of [is_latest]
    included), and the string starts with the root's token ".". *)
Theorem parse_str (h : Heap) (src : string) (root : nat) (st : State) :
  parse_in h src = Returns (root, st) ->
  forall fuel indent,
    length (heap st) < fuel ->
    exists rest,
      ASTNode_str fuel (heap st) root indent = Returns ("." +:+ rest).
Proof.
  intros H fuel indent Hfuel.
  pose proof (_parse_source_shaped _ _ _ _ H) as Hshape.
  apply _parse_source_returns in H
    as (_ & _ & _ & n & Hn & Htok & Hpar & _).
  assert (Hlatest : exists b, is_latest (heap st) root = Returns b).
  { unfold is_latest. rewrite Hn, Hpar. eauto. }
  destruct (shaped_str _ _ _ Hshape fuel indent) as [s Hs]; [lia | assumption |].
  rewrite Hs. destruct fuel as [|fuel]; [discriminate|].
  cbn [ASTNode_str] in Hs. rewrite Hn in Hs. unfold is_root in Hs.
  rewrite Hn, Hpar in Hs.
  rewrite bool_decide_eq_true_2 in Hs by reflexivity. cbn [obind] in Hs.
  destruct (str_childs _ _) as [lines| | |]; cbn [obind] in Hs;
    try discriminate.
  injection Hs as <-. rewrite Htok. cbn [Token_str type raw].
  destruct lines as [|l lines]; [exists ""; reflexivity | eauto].
Qed.

Lemma parse_str_witness :
  exists rest,
    ASTNode_str 5
      [ mkASTNode (mkToken "." ROOT) None [1];
        mkASTNode (mkToken "fn" FN) (Some 0) [2; 3];
        mkASTNode (mkToken "main" NAME) (Some 1) [];
        mkASTNode (mkToken "." ROOT) (Some 1) [] ] 0 0
    = Returns ("." +:+ rest).
Proof.
  exact (parse_str [] "fn main() { }" 0
           (mkState ([], Return) []
              [ mkASTNode (mkToken "." ROOT) None [1];
                mkASTNode (mkToken "fn" FN) (Some 0) [2; 3];
                mkASTNode (mkToken "main" NAME) (Some 1) [];
                mkASTNode (mkToken "." ROOT) (Some 1) [] ])
           eq_refl 5 0 ltac:(cbn; lia)).
Defined.

(* ===================================================================== *)
(** * Further properties of the lexer: whole sources *)
(* ===================================================================== *)

(** ** Strings *)

Lemma append_assoc (a b c : string) : (a +:+ b) +:+ c = a +:+ (b +:+ c).
Proof.
  induction a as [|x a IH]; [reflexivity|].
  rewrite !append_cons, IH. reflexivity.
Qed.

Lemma get_lt (s : string) (i : nat) (c : ascii) :
  String.get i s = Some c -> i < String.length s.
Proof.
  revert i. induction s as [|d s IH]; intros [|i]; simpl; try discriminate;
    try lia.
  intros H. apply IH in H. lia.
Qed.

Lemma get_Some (s : string) (i : nat) :
  i < String.length s -> exists c, String.get i s = Some c.
Proof.
  revert i. induction s as [|d s IH]; intros [|i]; simpl; try lia; eauto.
  intros H. apply IH. lia.
Qed.

Lemma get_char_in (s : string) (i : nat) (c : ascii) :
  String.get i s = Some c -> char_in c s = true.
Proof.
  revert i. induction s as [|d s IH]; intros [|i]; simpl; try discriminate.
  - intros [= ->]. rewrite Ascii.eqb_refl. reflexivity.
  - intros H. rewrite (IH _ H). apply orb_true_r.
Qed.

Lemma substring_zero (s : string) (i : nat) : substring i 0 s = "".
Proof.
  revert i. induction s as [|d s IH]; intros [|i]; simpl; auto.
Qed.

Lemma substring_beyond (s : string) (i n : nat) :
  String.length s <= i -> substring i n s = "".
Proof.
  revert i. induction s as [|d s IH]; intros [|i]; simpl; intros H;
    try reflexivity; try lia.
  - destruct n; reflexivity.
  - apply IH. lia.
Qed.

Lemma substring_full (s : string) : substring 0 (String.length s) s = s.
Proof. induction s as [|d s IH]; simpl; congruence. Qed.

Lemma substring_get (s : string) (i n : nat) (c : ascii) :
  String.get i s = Some c ->
  substring i (S n) s = String c (substring (S i) n s).
Proof.
  revert i. induction s as [|d s IH]; intros [|i]; simpl; try discriminate.
  - intros [= ->]. destruct s, n; reflexivity.
  - intros H. rewrite (IH _ H). reflexivity.
Qed.

Lemma substring_split (s : string) (i a b : nat) :
  substring i (a + b) s = substring i a s +:+ substring (i + a) b s.
Proof.
  revert i. induction a as [|a IH]; intros i.
  - rewrite substring_zero, Nat.add_0_r. reflexivity.
  - destruct (String.get i s) as [c|] eqn:Hget.
    + cbn [Nat.add]. rewrite !(substring_get _ _ _ _ Hget), IH.
      rewrite append_cons. do 2 f_equal. f_equal. lia.
    + assert (String.length s <= i).
      { destruct (Nat.le_gt_cases (String.length s) i) as [|Hlt]; [assumption|].
        destruct (get_Some _ _ Hlt) as [c Hc]. congruence. }
      rewrite !substring_beyond by lia. reflexivity.
Qed.

(** ** The inner loops *)

(** Where a scan stops: at the end of the text or at the first character
    that does not continue the run. *)
Lemma scan_stops (continue : ascii -> bool) (src : string) (fuel stop r : nat) :
  scan continue src stop fuel = Some r ->
  stop <= r /\
  (stop <= String.length src -> r <= String.length src) /\
  (forall i, stop <= i < r ->
     exists c, String.get i src = Some c /\ continue c = true) /\
  (r < String.length src ->
     exists c, String.get r src = Some c /\ continue c = false).
Proof.
  revert stop. induction fuel as [|fuel IH]; intros stop; cbn [scan];
    destruct (Nat.ltb_spec stop (String.length src)) as [Hlt|Hge];
    try (intros [= <-]; repeat split; intros; lia).
  - destruct (get_Some _ _ Hlt) as [c Hc]. rewrite Hc.
    destruct (continue c) eqn:Hcont; [discriminate|].
    intros [= <-]. repeat split; try lia; eauto.
  - destruct (get_Some _ _ Hlt) as [c Hc]. rewrite Hc.
    destruct (continue c) eqn:Hcont.
    + intros H. apply IH in H as (H1 & H2 & H3 & H4).
      repeat split; try lia; auto.
      intros i Hi. destruct (decide (i = stop)) as [->|]; [eauto|].
      apply H3. lia.
    + intros [= <-]. repeat split; try lia; eauto.
Qed.

(** A run that goes on to the end of the text is scanned to the end. *)
Lemma scan_to_end (continue : ascii -> bool) (src : string) (stop : nat) :
  stop <= String.length src ->
  (forall i c, stop <= i -> String.get i src = Some c -> continue c = true) ->
  scan continue src stop (String.length src) = Some (String.length src).
Proof.
  intros Hle Hall.
  destruct (scan_returns continue src (String.length src) stop) as (r & Hr & _);
    [lia|].
  rewrite Hr. f_equal.
  apply scan_stops in Hr as (H1 & H2 & _ & H4).
  destruct (Nat.lt_ge_cases r (String.length src)) as [Hlt|Hge].
  - destruct (H4 Hlt) as (c & Hc & Hfalse).
    rewrite (Hall r c H1 Hc) in Hfalse. discriminate.
  - specialize (H2 Hle). lia.
Qed.


Lemma all_in_get (pool s : string) (i : nat) (c : ascii) :
  all_in pool s = true -> String.get i s = Some c -> char_in c pool = true.
Proof.
  revert i. induction s as [|d s IH]; intros [|i]; simpl; try discriminate;
    intros H Hget; apply andb_true_iff in H as [Hd Hs].
  - injection Hget as <-. assumption.
  - eauto.
Qed.

Lemma none_in_get (pool s : string) (i : nat) (c : ascii) :
  none_in pool s = true -> String.get i s = Some c -> char_in c pool = false.
Proof.
  revert i. induction s as [|d s IH]; intros [|i]; simpl; try discriminate;
    intros H Hget; apply andb_true_iff in H as [Hd Hs].
  - injection Hget as <-. apply negb_true_iff. assumption.
  - eauto.
Qed.

Lemma TokenType_call_value (s : string) (ty : TokenType) :
  TokenType_call s = Some ty -> value ty = StrValue s.
Proof.
  unfold TokenType_call. intros H.
  apply find_some in H as [_ H]. apply bool_decide_eq_true_1 in H.
  assumption.
Qed.

(** ** Blank sources *)

(** X15: a non-empty source of spaces and tabs only is one SPACE token for
    the coarse segmentation, whose raw text is the whole source, and the
    lexer's token stream for it is empty. *)
Theorem lexer_blank (src : string) :
  nonempty src = true -> all_in blanks src = true ->
  lexer_by_tokens src = ([mkToken src SPACE], Return) /\
  lexer src = ([], Return).
Proof.
  intros Hne Hall.
  assert (H1 : lexer_by_tokens src = ([mkToken src SPACE], Return)).
  { destruct src as [|ch rest]; [discriminate|].
    pose proof (all_in_get _ _ 0 ch Hall eq_refl) as Hch.
    unfold lexer_by_tokens.
    set (src := String ch rest) in *.
    assert (Hlen : String.length src = S (String.length rest)) by reflexivity.
    rewrite Hlen at 1. cbn [lexer_by_tokens_loop].
    rewrite Hlen at 1. cbn [Nat.ltb Nat.leb].
    change (String.get 0 src) with (Some ch). cbv iota beta.
    assert (Hnl : Ascii.eqb ch newline = false /\ Ascii.eqb ch "/" = false
                  /\ (Ascii.eqb ch " " || Ascii.eqb ch tab = true)).
    { unfold blanks in Hch. cbn [char_in] in Hch.
      rewrite orb_false_r in Hch.
      apply orb_true_iff in Hch as [H|H]; apply Ascii.eqb_eq in H; subst ch;
        repeat split. }
    destruct Hnl as (-> & -> & ->).
    rewrite (scan_to_end _ src (0 + 1)).
    - cbn [gen_yield fst snd]. unfold slice.
      rewrite Nat.sub_0_r, substring_full.
      replace (String.length src - 1 + 1) with (String.length src) by lia.
      destruct (String.length rest) as [|n] eqn:Hrest;
        cbn [lexer_by_tokens_loop]; rewrite Nat.ltb_irrefl; reflexivity.
    - lia.
    - intros i c _ Hc. exact (all_in_get _ _ _ _ Hall Hc). }
  split; [exact H1|].
  unfold lexer, _lexer. rewrite H1. reflexivity.
Qed.

Lemma lexer_blank_witness :
  lexer (String " " (String tab " ")) = ([], Return).
Proof.
  exact (proj2 (lexer_blank (String " " (String tab " ")) eq_refl eq_refl)).
Defined.

(** ** Words *)

(** Operator extraction leaves a run without operator characters in one
    piece. *)
Lemma extract_operator_chars_word (chars remains : string) :
  none_in OPERATORS chars = true ->
  extract_operator_chars chars remains ""
    = (if nonempty (remains +:+ chars)
       then [mkToken (remains +:+ chars) UNKNOWN] else [], Return).
Proof.
  revert remains. induction chars as [|ch chars IH]; intros remains Hnone.
  - cbn [extract_operator_chars nonempty]. rewrite append_nil_r.
    destruct (nonempty remains); reflexivity.
  - cbn [none_in] in Hnone. apply andb_true_iff in Hnone as [Hch Hnone].
    apply negb_true_iff in Hch.
    cbn [extract_operator_chars nonempty]. rewrite Hch, (IH _ Hnone).
    rewrite append_assoc. reflexivity.
Qed.

(** The coarse segmentation of a word: one token of category UNKNOWN. *)
Lemma lexer_by_tokens_word (w : string) :
  nonempty w = true ->
  none_in whitespace w = true ->
  String.get 0 w <> Some dquote ->
  String.get 0 w <> Some "/"%char ->
  lexer_by_tokens w = ([mkToken w UNKNOWN], Return).
Proof.
  intros Hne Hws Hdq Hslash.
  destruct w as [|ch rest]; [discriminate|].
  pose proof (none_in_get _ _ 0 ch Hws eq_refl) as Hch.
  unfold lexer_by_tokens.
  set (src := String ch rest) in *.
  assert (Hlen : String.length src = S (String.length rest)) by reflexivity.
  rewrite Hlen at 1. cbn [lexer_by_tokens_loop].
  rewrite Hlen at 1. cbn [Nat.ltb Nat.leb].
  change (String.get 0 src) with (Some ch) in *. cbv iota beta.
  unfold whitespace in Hch. cbn [char_in] in Hch.
  rewrite orb_false_r in Hch.
  apply orb_false_iff in Hch as [Hsp Hch].
  apply orb_false_iff in Hch as [Htab Hnl].
  rewrite Hnl, Hsp, Htab.
  assert (Ascii.eqb ch "/" = false) as ->.
  { apply Ascii.eqb_neq. congruence. }
  assert (Ascii.eqb ch dquote = false) as ->.
  { apply Ascii.eqb_neq. congruence. }
  cbn [orb].
  rewrite (scan_to_end _ src 0).
  - cbn [gen_yield fst snd]. unfold slice.
    rewrite Nat.sub_0_r, substring_full.
    replace (String.length src - 1 + 1) with (String.length src) by lia.
    destruct (String.length rest) as [|n] eqn:Hrest;
      cbn [lexer_by_tokens_loop]; rewrite Nat.ltb_irrefl; reflexivity.
  - lia.
  - intros i c _ Hc. apply negb_true_iff.
    exact (none_in_get _ _ _ _ Hws Hc).
Qed.

(** X16: a word, that is a non-empty text without operator characters,
    spaces, tabs and newlines that does not start with a double quote, is
    one token for the lexer, whose raw text is the word: of category FN,
    PRINT or NOP when the word is that reserved word, and of category NAME
    otherwise (also when it consists of digits). *)
Theorem lexer_word (w : string) :
  nonempty w = true ->
  none_in OPERATORS w = true ->
  none_in whitespace w = true ->
  String.get 0 w <> Some dquote ->
  exists ty,
    lexer w = ([mkToken w ty], Return) /\
    (w = "fn" /\ ty = FN \/ w = "print" /\ ty = PRINT \/
     w = "nop" /\ ty = NOP \/
     w <> "fn" /\ w <> "print" /\ w <> "nop" /\ ty = NAME).
Proof.
  intros Hne Hops Hws Hdq.
  assert (Hslash : String.get 0 w <> Some "/"%char).
  { intros H. apply (none_in_get _ _ _ _ Hops) in H. discriminate H. }
  pose proof (lexer_by_tokens_word w Hne Hws Hdq Hslash) as H1.
  assert (H2 : lexer_extract_operator (lexer_by_tokens w)
                = ([mkToken w UNKNOWN], Return)).
  { rewrite H1. unfold lexer_extract_operator. cbn [fst snd gen_for type raw].
    rewrite (extract_operator_chars_word w "" Hops).
    change ("" +:+ w) with w. rewrite Hne. reflexivity. }
  unfold lexer, _lexer. rewrite H2.
  unfold lexer_identify_word. cbn [fst snd gen_for type raw].
  destruct (TokenType_call w) as [ty|] eqn:Hcall.
  - exists ty. apply TokenType_call_value in Hcall.
    destruct ty; cbn [value] in Hcall; try discriminate Hcall;
      injection Hcall as <-; try discriminate Hops;
      (split; [reflexivity | tauto]).
  - exists NAME. split; [reflexivity|].
    do 3 right. repeat split; try reflexivity;
      intros ->; discriminate Hcall.
Qed.

Lemma lexer_word_witness :
  exists ty,
    lexer "x1" = ([mkToken "x1" ty], Return) /\
    ("x1" = "fn" /\ ty = FN \/ "x1" = "print" /\ ty = PRINT \/
     "x1" = "nop" /\ ty = NOP \/
     "x1" <> "fn" /\ "x1" <> "print" /\ "x1" <> "nop" /\ ty = NAME).
Proof.
  exact (lexer_word "x1" eq_refl eq_refl eq_refl ltac:(discriminate)).
Defined.

(* ===================================================================== *)
(** * Further properties of the lexer: the stages *)
(* ===================================================================== *)

(** ** Spelling *)

Lemma spelled_cons (t : Token) (ts : list Token) :
  spelled (t :: ts) = raw t +:+ spelled ts.
Proof.
  unfold spelled. destruct ts as [|u ts]; cbn [map String.concat].
  - rewrite append_nil_r. reflexivity.
  - reflexivity.
Qed.

Lemma spelled_app (ts us : list Token) :
  spelled (ts ++ us) = spelled ts +:+ spelled us.
Proof.
  induction ts as [|t ts IH]; [reflexivity|].
  cbn [app]. rewrite !spelled_cons, IH, append_assoc. reflexivity.
Qed.

(** ** [TokenType.yield_tokens] on any text *)

(** ** Operator extraction *)

Lemma none_in_snoc (pool s : string) (c : ascii) :
  none_in pool s = true -> char_in c pool = false ->
  none_in pool (s +:+ String c EmptyString) = true.
Proof.
  intros Hs Hc. induction s as [|d s IH]; simpl in *.
  - rewrite Hc. reflexivity.
  - apply andb_true_iff in Hs as [-> Hs]. simpl. auto.
Qed.

Lemma yield_tokens_operators (run : string) :
  nonempty run = true -> all_in OPERATORS run = true ->
  Forall operator_token (yield_tokens run).1.
Proof.
  induction run as [|c run IH]; [discriminate|].
  intros _ Hall. pose proof Hall as Hrun.
  cbn [all_in] in Hall. apply andb_true_iff in Hall as [Hc Hall].
  cbn [yield_tokens].
  destruct (TokenType_call (String c run)) as [ty|] eqn:Hwhole.
  { repeat constructor; cbn [type raw]; auto.
    exact (TokenType_call_value _ _ Hwhole). }
  destruct (operator_char_is_member c Hc) as [ty Hty]. rewrite Hty.
  cbn [gen_yield fst]. constructor.
  - repeat split; cbn [type raw all_in].
    + exact (TokenType_call_value _ _ Hty).
    + rewrite Hc. reflexivity.
  - destruct run as [|d run]; [congruence|].
    apply IH; [reflexivity | assumption].
Qed.

Lemma extract_operator_chars_spelled (chars remains operators : string) :
  nonempty remains && nonempty operators = false ->
  all_in OPERATORS operators = true ->
  spelled (extract_operator_chars chars remains operators).1
    = remains +:+ operators +:+ chars.
Proof.
  revert remains operators.
  induction chars as [|ch chars IH]; intros remains operators Hone Hops.
  - cbn [extract_operator_chars]. rewrite append_nil_r.
    destruct (nonempty remains) eqn:Hr, (nonempty operators) eqn:Ho;
      try discriminate Hone.
    + destruct operators; [|discriminate Ho]. rewrite append_nil_r.
      reflexivity.
    + destruct remains; [|discriminate Hr].
      rewrite gen_from_tokens by reflexivity. cbn [gen_empty fst app].
      apply yield_tokens_spelled, yield_tokens_end; assumption.
    + destruct remains; [|discriminate Hr].
      destruct operators; [|discriminate Ho]. reflexivity.
  - cbn [extract_operator_chars].
    destruct (char_in ch OPERATORS) eqn:Hch.
    + destruct (nonempty remains) eqn:Hr.
      * destruct operators; [|discriminate Hone].
        cbn [gen_yield fst]. rewrite spelled_cons. cbn [raw].
        rewrite IH by (try apply all_in_snoc; auto). reflexivity.
      * destruct remains; [|discriminate Hr].
        rewrite IH by (try apply all_in_snoc; auto).
        cbn [String.append]. rewrite append_assoc. reflexivity.
    + destruct (nonempty operators) eqn:Ho.
      * destruct remains;
          [|cbn [nonempty andb] in Hone; discriminate Hone].
        rewrite gen_from_tokens by (apply yield_tokens_end; assumption).
        rewrite spelled_app, yield_tokens_spelled
          by (apply yield_tokens_end; assumption).
        rewrite IH by (rewrite ?andb_false_r; reflexivity).
        reflexivity.
      * destruct operators; [|discriminate Ho].
        rewrite IH by (rewrite ?andb_false_r; reflexivity).
        rewrite append_assoc. reflexivity.
Qed.

Lemma none_in_nil (s : string) : none_in "" s = true.
Proof. induction s as [|c s IH]; [reflexivity | exact IH]. Qed.

(** The pieces of a token: word pieces, which have no character that the
    token does not have, and operator tokens. *)
Lemma extract_operator_chars_kinds (pool chars remains operators : string) :
  none_in pool chars = true -> none_in pool remains = true ->
  none_in OPERATORS remains = true ->
  all_in OPERATORS operators = true ->
  Forall (fun t => word_piece t /\ none_in pool (raw t) = true \/
                   operator_token t)
    (extract_operator_chars chars remains operators).1.
Proof.
  revert remains operators.
  induction chars as [|ch chars IH]; intros remains operators Hc Hp Hr Hops.
  - cbn [extract_operator_chars].
    rewrite gen_from_tokens by (destruct (nonempty remains); reflexivity).
    apply Forall_app. split.
    + destruct (nonempty remains) eqn:Hne; repeat constructor; auto.
    + destruct (nonempty operators) eqn:Hne; [|constructor].
      eapply Forall_impl; [apply yield_tokens_operators; assumption|].
      auto.
  - cbn [none_in] in Hc. apply andb_true_iff in Hc as [Hch Hc].
    apply negb_true_iff in Hch.
    cbn [extract_operator_chars].
    destruct (char_in ch OPERATORS) eqn:Hop.
    + destruct (nonempty remains) eqn:Hne.
      * cbn [gen_yield fst]. constructor; [left; repeat split; auto|].
        apply IH; try reflexivity; try assumption.
        apply all_in_snoc; assumption.
      * apply IH; try assumption. apply all_in_snoc; assumption.
    + destruct (nonempty operators) eqn:Hne.
      * rewrite gen_from_tokens by (apply yield_tokens_end; assumption).
        apply Forall_app. split.
        -- eapply Forall_impl; [apply yield_tokens_operators; assumption|].
           auto.
        -- apply IH; try reflexivity; try assumption;
             apply none_in_snoc; assumption.
      * apply IH; try assumption; apply none_in_snoc; assumption.
Qed.

Lemma spelled_concat (tss : list (list Token)) :
  spelled (concat tss) = String.concat "" (map spelled tss).
Proof.
  assert (H : forall ss, String.concat "" ss = fold_right String.append "" ss).
  { induction ss as [|s ss IHs]; [reflexivity|].
    cbn [fold_right]. rewrite <- IHs.
    destruct ss as [|s' ss]; cbn [String.concat].
    - rewrite append_nil_r. reflexivity.
    - reflexivity. }
  rewrite H. induction tss as [|ts tss IH]; [reflexivity|].
  cbn [concat map fold_right]. rewrite spelled_app, IH. reflexivity.
Qed.

Lemma lexer_extract_operator_tokens (ts : list Token) (e : End) :
  (lexer_extract_operator (ts, e)).1
    = concat (map (fun t =>
        match type t with
        | UNKNOWN => extract_operator_chars (raw t) "" ""
        | _ => gen_yield t gen_empty
        end.1) ts).
Proof.
  unfold lexer_extract_operator. cbn [fst snd].
  apply gen_for_tokens. intros t.
  destruct (type t); try reflexivity.
  apply extract_operator_chars_end. reflexivity.
Qed.

(** Operator extraction loses no character. *)
Lemma lexer_extract_operator_spelled (tokens : Gen) :
  spelled (lexer_extract_operator tokens).1 = spelled tokens.1.
Proof.
  destruct tokens as [ts e]. rewrite lexer_extract_operator_tokens.
  cbn [fst]. induction ts as [|t ts IH]; [reflexivity|].
  cbn [map concat]. rewrite spelled_app, IH, spelled_cons. f_equal.
  destruct (type t); try reflexivity.
  apply (extract_operator_chars_spelled (raw t) "" ""); reflexivity.
Qed.

(** What holds for the classified tokens of the input, for the word pieces
    (which have no character of [pool] when the unclassified tokens of the
    input have none) and for operator tokens holds for every token of the
    output. *)
Lemma lexer_extract_operator_kinds (pool : string) (P : Token -> Prop)
    (tokens : Gen) :
  Forall (fun t => (type t = UNKNOWN -> none_in pool (raw t) = true) /\
                   (type t <> UNKNOWN -> P t)) tokens.1 ->
  (forall u, word_piece u -> none_in pool (raw u) = true -> P u) ->
  (forall u, operator_token u -> P u) ->
  Forall P (lexer_extract_operator tokens).1.
Proof.
  destruct tokens as [ts e]. rewrite lexer_extract_operator_tokens.
  cbn [fst]. intros Hts Hword Hop.
  induction Hts as [|t ts [Hu Ht] Hts IH]; [constructor|].
  cbn [map concat]. apply Forall_app. split; [|exact IH].
  destruct (type t) eqn:Hty;
    try (repeat constructor; apply Ht; discriminate).
  eapply Forall_impl;
    [apply (extract_operator_chars_kinds pool (raw t) "" "");
     auto using none_in_nil|].
  intros u [[Hw Hp]|Hu']; auto.
Qed.

(** ** One iteration of the coarse segmentation *)

Lemma substring_clip (s : string) (i n : nat) :
  String.length s <= i + n ->
  substring i n s = substring i (String.length s - i) s.
Proof.
  intros Hle.
  replace n with ((String.length s - i) + (n - (String.length s - i))) at 1
    by lia.
  rewrite substring_split, (substring_beyond s (i + _)) by lia.
  apply append_nil_r.
Qed.

Lemma none_in_intro (pool s : string) :
  (forall i c, String.get i s = Some c -> char_in c pool = false) ->
  none_in pool s = true.
Proof.
  induction s as [|d s IH]; intros H; [reflexivity|].
  cbn [none_in]. rewrite (H 0 d eq_refl). cbn [negb andb].
  apply IH. intros i c Hc. exact (H (S i) c Hc).
Qed.

Lemma all_in_intro (pool s : string) :
  (forall i c, String.get i s = Some c -> char_in c pool = true) ->
  all_in pool s = true.
Proof.
  induction s as [|d s IH]; intros H; [reflexivity|].
  cbn [all_in]. rewrite (H 0 d eq_refl). cbn [andb].
  apply IH. intros i c Hc. exact (H (S i) c Hc).
Qed.

(** The characters of a slice are characters of the text. *)
Lemma substring_get_in (s : string) (a n i : nat) (c : ascii) :
  String.get i (substring a n s) = Some c ->
  i < n /\ String.get (a + i) s = Some c.
Proof.
  intros H. destruct (Nat.lt_ge_cases i n) as [Hlt|Hge].
  - split; [assumption|].
    rewrite substring_correct1 in H by assumption.
    rewrite Nat.add_comm. assumption.
  - rewrite substring_correct2 in H by assumption. discriminate.
Qed.

Lemma substring_nonempty (s : string) (a n : nat) (c : ascii) :
  String.get a s = Some c -> 0 < n -> nonempty (substring a n s) = true.
Proof.
  intros Hget Hn. destruct n as [|n]; [lia|].
  rewrite (substring_get _ _ _ _ Hget). reflexivity.
Qed.

(** One iteration of the loop of [lexer_by_tokens]: it yields one token of
    the coarse segmentation and moves on; the token is the text from [index]
    up to the next index, unless it is a comment that a newline ends: then
    the next index is behind that newline. *)
Lemma lexer_by_tokens_loop_step (src : string) (fuel index : nat) :
  index < String.length src ->
  exists t next,
    lexer_by_tokens_loop (S fuel) src index
      = gen_yield t (lexer_by_tokens_loop fuel src next) /\
    index < next /\
    coarse t /\
    (raw t = substring index (next - index) src \/
     type t = COMMENT /\ String.get index src = Some "/"%char /\
     next <= String.length src /\
     String.get (next - 1) src = Some newline /\
     raw t = substring index (next - 1 - index) src).
Proof.
  intros Hlt. cbn [lexer_by_tokens_loop].
  destruct (Nat.ltb_spec index (String.length src)) as [_|?]; [|lia].
  destruct (get_Some _ _ Hlt) as [ch Hget]. rewrite Hget.
  assert (Hone : String ch "" = substring index (index + 1 - index) src).
  { replace (index + 1 - index) with 1 by lia.
    rewrite (substring_get _ _ _ _ Hget), substring_zero. reflexivity. }
  destruct (Ascii.eqb ch newline) eqn:Hnl.
  { apply Ascii.eqb_eq in Hnl. subst ch.
    exists (mkToken (String newline "") NEWLINE), (index + 1).
    split; [reflexivity|]. split; [lia|]. split; [|left; exact Hone].
    left. split; reflexivity. }
  destruct (Ascii.eqb ch "/") eqn:Hslash.
  { apply Ascii.eqb_eq in Hslash. subst ch.
    destruct ((index + 1 <? String.length src)
              && bool_decide (String.get (index + 1) src = Some "/"%char))
      eqn:Hcom.
    - apply andb_true_iff in Hcom as [H1 H2].
      apply Nat.ltb_lt in H1. apply bool_decide_eq_true_1 in H2.
      destruct (scan_returns (fun c => negb (Ascii.eqb c newline)) src
                  (String.length src) (index + 2)) as (stop & Hscan & Hle);
        [lia|].
      rewrite Hscan.
      pose proof (scan_stops _ _ _ _ _ Hscan) as (_ & Hbound & Hrun & Hstop).
      specialize (Hbound ltac:(lia)).
      exists (mkToken (slice src index stop) COMMENT), (stop + 1).
      split; [reflexivity|]. split; [lia|].
      assert (Hraw : slice src index stop
                = String "/" (String "/"
                    (substring (index + 2) (stop - index - 2) src))).
      { unfold slice.
        replace (stop - index) with (S (S (stop - index - 2))) by lia.
        rewrite (substring_get _ _ _ _ Hget).
        replace (S index) with (index + 1) by lia.
        rewrite (substring_get _ _ _ _ H2). repeat f_equal; lia. }
      split.
      + right. left. cbn [type raw]. split; [reflexivity|]. rewrite Hraw.
        split; [apply prefix_correct; cbn [String.length substring];
                rewrite substring_zero; reflexivity|].
        cbn [none_in].
        change (negb (char_in "/" (String newline ""))) with true.
        cbn [andb]. apply none_in_intro. intros i c Hc.
        apply substring_get_in in Hc as [Hi Hc].
        destruct (Hrun (index + 2 + i)) as (c' & Hc' & Hcont); [lia|].
        rewrite Hc in Hc'. injection Hc' as <-.
        cbn [char_in]. apply negb_true_iff in Hcont. rewrite Hcont.
        reflexivity.
      + destruct (Nat.lt_ge_cases stop (String.length src)) as [Hs|Hs].
        * right. destruct (Hstop Hs) as (c & Hc & Hcont).
          apply negb_false_iff, Ascii.eqb_eq in Hcont. subst c.
          split; [reflexivity|]. split; [reflexivity|]. split; [lia|].
          replace (stop + 1 - 1) with stop by lia.
          split; [assumption | reflexivity].
        * left. cbn [raw]. unfold slice.
          rewrite (substring_clip src index (stop + 1 - index)) by lia.
          f_equal. lia.
    - exists (mkToken "/" UNKNOWN), (index + 1).
      split; [reflexivity|]. split; [lia|]. split; [|left; exact Hone].
      do 4 right. repeat split. }
  destruct (Ascii.eqb ch " " || Ascii.eqb ch tab) eqn:Hsp.
  { destruct (scan_returns
                (fun c => char_in c (String " " (String tab EmptyString))) src
                (String.length src) (index + 1)) as (stop & Hscan & Hle);
      [lia|].
    rewrite Hscan.
    pose proof (scan_stops _ _ _ _ _ Hscan) as (_ & _ & Hrun & _).
    exists (mkToken (slice src index stop) SPACE), stop.
    replace (stop - 1 + 1) with stop by lia.
    split; [reflexivity|]. split; [lia|]. split; [|left; reflexivity].
    do 2 right. left. cbn [type raw]. split; [reflexivity|]. split.
    - apply (substring_nonempty _ _ _ _ Hget). lia.
    - apply all_in_intro. intros i c Hc.
      apply substring_get_in in Hc as [Hi Hc].
      destruct i as [|i].
      + rewrite Nat.add_0_r, Hget in Hc. injection Hc as <-.
        unfold blanks. cbn [char_in]. rewrite orb_false_r. exact Hsp.
      + destruct (Hrun (index + S i)) as (c' & Hc' & Hcont); [lia|].
        rewrite Hc in Hc'. injection Hc' as <-. exact Hcont. }
  destruct (Ascii.eqb ch dquote) eqn:Hdq.
  { apply Ascii.eqb_eq in Hdq. subst ch.
    destruct (scan_returns (fun c => negb (Ascii.eqb c dquote)) src
                (String.length src) (index + 1)) as (stop & Hscan & Hle);
      [lia|].
    rewrite Hscan.
    exists (mkToken (slice src index (stop + 1)) STRING), (stop + 1).
    split; [reflexivity|]. split; [lia|]. split; [|left; reflexivity].
    do 3 right. left. cbn [type raw]. split; [reflexivity|].
    unfold slice. rewrite substring_correct1 by lia. exact Hget. }
  destruct (scan_advances
              (fun c => negb (char_in c
                 (String " " (String tab (String newline EmptyString)))))
              src index ch Hlt Hget) as (stop & Hscan & Hle).
  { apply orb_false_iff in Hsp as [Hs Ht].
    cbn [char_in]. rewrite Hs, Ht, Hnl. reflexivity. }
  rewrite Hscan.
  pose proof (scan_stops _ _ _ _ _ Hscan) as (_ & _ & Hrun & _).
  exists (mkToken (slice src index stop) UNKNOWN), stop.
  replace (stop - 1 + 1) with stop by lia.
  split; [reflexivity|]. split; [lia|]. split; [|left; reflexivity].
  do 4 right. cbn [type raw]. split; [reflexivity|]. split.
  - apply (substring_nonempty _ _ _ _ Hget). lia.
  - apply none_in_intro. intros i c Hc.
    apply substring_get_in in Hc as [Hi Hc].
    destruct (Hrun (index + i)) as (c' & Hc' & Hcont); [lia|].
    rewrite Hc in Hc'. injection Hc' as <-.
    apply negb_true_iff in Hcont. exact Hcont.
Qed.
(** ** Word identification *)

(** No category that a text spells is UNKNOWN. *)
Lemma TokenType_call_known (s : string) (ty : TokenType) :
  TokenType_call s = Some ty -> ty <> UNKNOWN.
Proof.
  intros H ->. apply TokenType_call_value in H. discriminate H.
Qed.

Lemma lexer_identify_word_cons (t : Token) (ts : list Token) (e : End) :
  lexer_identify_word (t :: ts, e)
    = gen_yield
        (match type t with
         | UNKNOWN => mkToken (raw t) (default NAME (TokenType_call (raw t)))
         | _ => t
         end)
        (lexer_identify_word (ts, e)).
Proof.
  unfold lexer_identify_word. cbn [fst snd gen_for].
  destruct (type t); try reflexivity.
  destruct (TokenType_call (raw t)); reflexivity.
Qed.

(** Word identification does not touch the texts. *)
Lemma lexer_identify_word_raw (tokens : Gen) :
  map raw (lexer_identify_word tokens).1 = map raw tokens.1.
Proof.
  destruct tokens as [ts e]. cbn [fst].
  induction ts as [|t ts IH]; [reflexivity|].
  rewrite lexer_identify_word_cons. cbn [gen_yield fst map]. rewrite IH.
  f_equal. destruct (type t); reflexivity.
Qed.

(** What holds for the classified tokens of the input, and for the
    unclassified ones once they are given the category they spell, or NAME
    when they spell none, holds for every token of the output. *)
Lemma lexer_identify_word_kinds (P Q : Token -> Prop) (tokens : Gen) :
  Forall Q tokens.1 ->
  (forall t, Q t -> type t <> UNKNOWN -> P t) ->
  (forall t ty, Q t -> type t = UNKNOWN ->
     TokenType_call (raw t) = Some ty -> P (mkToken (raw t) ty)) ->
  (forall t, Q t -> type t = UNKNOWN ->
     TokenType_call (raw t) = None -> P (mkToken (raw t) NAME)) ->
  Forall P (lexer_identify_word tokens).1.
Proof.
  destruct tokens as [ts e]. cbn [fst]. intros Hts Hkeep Hsome Hnone.
  induction Hts as [|t ts Ht Hts IH]; [constructor|].
  rewrite lexer_identify_word_cons. cbn [gen_yield fst].
  constructor; [|exact IH].
  destruct (type t) eqn:Hty; try (apply Hkeep; [assumption | congruence]).
  destruct (TokenType_call (raw t)) as [ty|] eqn:Hcall; cbn [default]; auto.
Qed.

(** X19: word identification ends the way its input ends, yields one token
    for each token of its input, with the same text, and leaves no token
    UNKNOWN.  A stream without UNKNOWN tokens passes unchanged, so that
    identifying twice is identifying once. *)
Theorem lexer_identify_word_classifies (tokens : Gen) :
  (lexer_identify_word tokens).2 = tokens.2 /\
  map raw (lexer_identify_word tokens).1 = map raw tokens.1 /\
  Forall (fun t => type t <> UNKNOWN) (lexer_identify_word tokens).1 /\
  (Forall (fun t => type t <> UNKNOWN) tokens.1 ->
   lexer_identify_word tokens = tokens) /\
  lexer_identify_word (lexer_identify_word tokens)
    = lexer_identify_word tokens.
Proof.
  assert (Hknown : forall g,
    Forall (fun t => type t <> UNKNOWN) (lexer_identify_word g).1).
  { intros g. apply (lexer_identify_word_kinds _ (fun _ => True)).
    - apply Forall_true. auto.
    - auto.
    - intros t ty _ _ H. exact (TokenType_call_known _ _ H).
    - discriminate. }
  assert (Hfix : forall g, Forall (fun t => type t <> UNKNOWN) g.1 ->
    lexer_identify_word g = g).
  { intros [ts e]. cbn [fst]. intros Hts.
    induction Hts as [|t ts Ht Hts IH]; [reflexivity|].
    rewrite lexer_identify_word_cons, IH. unfold gen_yield. cbn [fst snd].
    destruct (type t); congruence. }
  split; [apply lexer_identify_word_end|].
  split; [apply lexer_identify_word_raw|].
  split; [apply Hknown|]. split; [apply Hfix|].
  apply Hfix, Hknown.
Qed.

(** ** Noise removal *)

Lemma lexer_remove_unuseful_kinds (P Q : Token -> Prop) (tokens : Gen) :
  Forall Q tokens.1 ->
  (forall t, Q t -> is_noise (type t) = false -> P t) ->
  Forall P (lexer_remove_unuseful tokens).1.
Proof.
  destruct tokens as [ts e]. unfold lexer_remove_unuseful. cbn [fst snd].
  intros Hts Hkeep.
  induction Hts as [|t ts Ht Hts IH]; [constructor|].
  cbn [gen_for].
  rewrite gen_from_tokens by (destruct (type t); reflexivity).
  apply Forall_app. split; [|exact IH].
  destruct (type t) eqn:Hty; try constructor;
    try (apply Hkeep; [assumption | rewrite Hty; reflexivity]);
    constructor.
Qed.

(** ** The coarse segmentation, for every source *)

Lemma lexer_by_tokens_loop_done (fuel : nat) (src : string) (index : nat) :
  String.length src <= index ->
  lexer_by_tokens_loop fuel src index = gen_empty.
Proof.
  intros Hge. destruct fuel; cbn [lexer_by_tokens_loop];
    destruct (Nat.ltb_spec index (String.length src)); try lia; reflexivity.
Qed.

Lemma lexer_by_tokens_loop_coarse (src : string) (fuel index : nat) :
  String.length src - index <= fuel ->
  Forall coarse (lexer_by_tokens_loop fuel src index).1.
Proof.
  revert index. induction fuel as [|fuel IH]; intros index Hfuel.
  - rewrite lexer_by_tokens_loop_done by lia. constructor.
  - destruct (Nat.lt_ge_cases index (String.length src)) as [Hlt|Hge].
    + destruct (lexer_by_tokens_loop_step src fuel index Hlt)
        as (t & next & -> & Hnext & Ht & _).
      cbn [gen_yield fst]. constructor; [exact Ht|]. apply IH. lia.
    + rewrite lexer_by_tokens_loop_done by lia. constructor.
Qed.

(** X20: the coarse segmentation classifies NEWLINE, COMMENT, SPACE and
    STRING only, and every token it yields has the text of its category: a
    NEWLINE is one newline character; a COMMENT starts with two slashes and
    has no newline; a SPACE is a non-empty run of spaces and tabs; a STRING
    starts with a double quote; an UNKNOWN is not empty and has no space, tab
    or newline. *)
Theorem lexer_by_tokens_coarse (src : string) :
  Forall coarse (lexer_by_tokens src).1.
Proof. apply lexer_by_tokens_loop_coarse. lia. Qed.

(** ** The tokens of the lexer *)

Lemma coarse_nonempty (t : Token) : coarse t -> nonempty (raw t) = true.
Proof.
  intros [[_ ->] | [(_ & H & _) | [(_ & H & _) | [[_ H] | (_ & H & _)]]]];
    try reflexivity; try assumption.
  - apply prefix_correct in H. destruct (raw t); [discriminate H|reflexivity].
  - destruct (raw t); [discriminate H|reflexivity].
Qed.

(** X21: every token of the lexer is a STRING that starts with a double
    quote; or a NAME, which is no reserved word and has no operator
    character, space, tab or newline; or an operator or reserved word of the
    category that has its text as value.  So no token is UNKNOWN, ROOT,
    INDENT or DEDENT, no text is empty, and every token prints as its
    text. *)
Theorem lexer_kinds (src : string) :
  Forall (fun t => lexed t /\ Token_str t = raw t) (lexer src).1.
Proof.
  unfold lexer, _lexer.
  apply (lexer_remove_unuseful_kinds _
           (fun t => is_noise (type t) = true \/ lexed t)).
  2:{ intros t [Hn|Ht] Hnoise; [congruence|]. split; [exact Ht|].
      destruct Ht as [_ [[Hty _] | [[Hty _] | Hv]]];
        unfold Token_str; try rewrite Hty; try reflexivity.
      destruct (type t); try reflexivity; discriminate Hv. }
  apply (lexer_identify_word_kinds _
           (fun t => (type t <> UNKNOWN /\ coarse t) \/
                     (word_piece t /\ none_in whitespace (raw t) = true) \/
                     operator_token t)).
  - apply (lexer_extract_operator_kinds whitespace).
    + eapply Forall_impl;
        [apply (lexer_by_tokens_loop_coarse src (String.length src) 0); lia|].
      intros t Ht. split; [|auto].
      intros Hty. destruct Ht as [[H _] | [[H _] | [[H _] | [[H _] | H]]]];
        try congruence.
      apply H.
    + auto.
    + auto.
  - intros t [[_ Ht] | [[[Hty _] _] | Ht]] Hknown; [| congruence |].
    + destruct Ht as [[H _] | [[H _] | [[H _] | [[H Hq] | [H _]]]]];
        try (left; rewrite H; reflexivity); [|congruence].
      right. split; [|left; split; assumption].
      destruct (raw t); [discriminate Hq | reflexivity].
    + right. destruct Ht as (Hv & Hne & _). split; [assumption|].
      right. right. assumption.
  - intros t ty [[Hk _] | [[(_ & Hne & _) _] | (Hv & _)]] Hty Hcall;
      [congruence | | rewrite Hty in Hv; discriminate Hv].
    right. split; [exact Hne|]. right. right.
    exact (TokenType_call_value _ _ Hcall).
  - intros t [[Hk _] | [[(_ & Hne & Hops) Hws] | (Hv & _)]] Hty Hcall;
      [congruence | | rewrite Hty in Hv; discriminate Hv].
    right. split; [exact Hne|]. right. left. auto.
Qed.
(** ** What the segmentation keeps of the source *)

Lemma substring_rest (s : string) (i next : nat) :
  i <= next ->
  substring i (String.length s - i) s
    = substring i (next - i) s +:+ substring next (String.length s - next) s.
Proof.
  intros Hle. destruct (Nat.le_gt_cases next (String.length s)) as [Hn|Hn].
  - replace (String.length s - i)
      with ((next - i) + (String.length s - next)) by lia.
    rewrite substring_split. do 2 f_equal. lia.
  - replace (String.length s - next) with 0 by lia.
    rewrite substring_zero, append_nil_r.
    symmetry. apply substring_clip. lia.
Qed.

Lemma lexer_by_tokens_loop_spelled (src : string) (fuel index : nat) :
  none_in "/" src = true \/ none_in (String newline "") src = true ->
  String.length src - index <= fuel ->
  spelled (lexer_by_tokens_loop fuel src index).1
    = substring index (String.length src - index) src.
Proof.
  intros Hsrc. revert index.
  assert (Hdone : forall fuel index, String.length src <= index ->
    spelled (lexer_by_tokens_loop fuel src index).1
      = substring index (String.length src - index) src).
  { intros f i Hge. rewrite lexer_by_tokens_loop_done by lia.
    replace (String.length src - i) with 0 by lia.
    rewrite substring_zero. reflexivity. }
  induction fuel as [|fuel IH]; intros index Hfuel; [apply Hdone; lia|].
  destruct (Nat.lt_ge_cases index (String.length src)) as [Hlt|Hge];
    [|apply Hdone; lia].
  destruct (lexer_by_tokens_loop_step src fuel index Hlt)
    as (t & next & -> & Hnext & _ & [Hraw | (_ & Hslash & _ & Hnl & _)]).
  - cbn [gen_yield fst]. rewrite spelled_cons, Hraw, IH by lia.
    symmetry. apply substring_rest. lia.
  - exfalso. destruct Hsrc as [Hno|Hno].
    + apply (none_in_get _ _ _ _ Hno) in Hslash. discriminate Hslash.
    + apply (none_in_get _ _ _ _ Hno) in Hnl. discriminate Hnl.
Qed.

Lemma unlined_app (a b : string) :
  unlined (a +:+ b) = unlined a +:+ unlined b.
Proof.
  induction a as [|c a IH]; [reflexivity|].
  rewrite append_cons. cbn [unlined]. rewrite IH.
  destruct (Ascii.eqb c newline); reflexivity.
Qed.

Lemma lexer_by_tokens_loop_unlined (src : string) (fuel index : nat) :
  String.length src - index <= fuel ->
  unlined (spelled (lexer_by_tokens_loop fuel src index).1)
    = unlined (substring index (String.length src - index) src).
Proof.
  revert index.
  assert (Hdone : forall fuel index, String.length src <= index ->
    unlined (spelled (lexer_by_tokens_loop fuel src index).1)
      = unlined (substring index (String.length src - index) src)).
  { intros f i Hge. rewrite lexer_by_tokens_loop_done by lia.
    replace (String.length src - i) with 0 by lia.
    rewrite substring_zero. reflexivity. }
  induction fuel as [|fuel IH]; intros index Hfuel; [apply Hdone; lia|].
  destruct (Nat.lt_ge_cases index (String.length src)) as [Hlt|Hge];
    [|apply Hdone; lia].
  destruct (lexer_by_tokens_loop_step src fuel index Hlt)
    as (t & next & -> & Hnext & _ & [Hraw | (_ & _ & Hle & Hnl & Hraw)]).
  - cbn [gen_yield fst]. rewrite spelled_cons, unlined_app, Hraw, IH by lia.
    rewrite <- unlined_app. f_equal.
    symmetry. apply substring_rest. lia.
  - cbn [gen_yield fst]. rewrite spelled_cons, unlined_app, Hraw, IH by lia.
    rewrite (substring_rest src index (next - 1)) by lia.
    rewrite (substring_rest src (next - 1) next) by lia.
    replace (next - (next - 1)) with 1 by lia.
    rewrite (substring_get _ _ _ _ Hnl), substring_zero.
    rewrite !unlined_app. reflexivity.
Qed.

(* ===================================================================== *)
(** * The language of the parser *)
(* ===================================================================== *)

(** ** Trees of statements in the store *)

(** The tree of a statement stays what it is when the objects below its top
    are kept and its top keeps its token and its children. *)
Lemma holds_preserved (h : Heap) (s : list Token) (n : nat) :
  holds h s n ->
  forall h',
    (forall i node, n < i -> h !! i = Some node -> h' !! i = Some node) ->
    (forall node, h !! n = Some node ->
       exists node', h' !! n = Some node' /\ _token node' = _token node /\
                     _childs node' = _childs node) ->
    holds h' s n.
Proof.
  induction 1 as [t s n Ht Hn Htok Hcs
                 | f nm lp rp lb rb s n name nn body nb
                     Hf Hnm Hlp Hrp Hlb Hrb Hn Htok Hcs Hlt1 Hlt2
                     Hname Htn Hcn Hbody Htb Hcb
                 | f nm lp rp lb inner rb s n name nn body nb c
                     Hf Hnm Hlp Hrp Hlb Hrb Hn Htok Hcs Hlt1 Hlt2
                     Hname Htn Hcn Hbody Htb Hcb Hlt3 Hsub IH];
    intros h' Hbelow Htop;
    destruct (Htop n Hn) as (n' & Hn' & Htok' & Hch).
  - apply (holds_nop h' t s n' Ht Hn'); congruence.
  - apply (holds_fn_empty h' f nm lp rp lb rb s n' name nn body nb);
      try assumption; try congruence; apply Hbelow; assumption.
  - apply (holds_fn h' f nm lp rp lb inner rb s n' name nn body nb c);
      try assumption; try congruence; try (apply Hbelow; assumption).
    apply IH.
    + intros i node Hi. apply Hbelow. lia.
    + intros node Hnode. exists node. split; [|auto].
      apply Hbelow; [lia | assumption].
Qed.

Lemma holds_statement (h : Heap) (s : list Token) (n : nat) :
  holds h s n -> statement s.
Proof.
  induction 1; [apply statement_nop | apply statement_fn_empty
               | apply statement_fn]; assumption.
Qed.

(** ** Statements are accepted *)

Lemma bind_eq {A B} (m : M A) (k : A -> M B) (st st1 : State) (a : A) :
  m st = Returns (a, st1) -> bind m k st = k a st1.
Proof. unfold bind. intros ->. reflexivity. Qed.

Lemma _parse_func_head_accepts (n lp rp x : Token) (ts : list Token) (e : End)
    (h : Heap) :
  type n = NAME -> type lp = LPARENTHESES -> type rp = RPARENTHESES ->
  type x <> ARROW ->
  _parse_func_head (mkState (n :: lp :: rp :: x :: ts, e) [] h)
    = Returns (length h, mkState (ts, e) [x] (h ++ [mkASTNode n None []])).
Proof.
  intros Hn Hlp Hrp Hx. known_type n Hn. known_type lp Hlp.
  known_type rp Hrp. destruct x as [r ty]. cbn [type] in Hx.
  destruct ty; try congruence; reflexivity.
Qed.

Section Accepts.
Variable parse_source : M nat.

Lemma _parse_scope_accepts (lb rb : Token) (tk : list Token * End) (h : Heap)
    (node : nat) (st2 st3 : State) :
  type lb = LBRACE ->
  parse_source (mkState tk [] h) = Returns (node, st2) ->
  next_token st2 = Returns (rb, st3) -> type rb = RBRACE ->
  _parse_scope parse_source (mkState tk [lb] h) = Returns (node, st3).
Proof.
  intros Hlb Hsrc Hnext Hrb. unfold _parse_scope.
  rewrite (bind_eq _ _ _ (mkState tk [] h) lb) by reflexivity.
  rewrite bool_decide_eq_false_2 by (intros H; apply H; exact Hlb).
  rewrite (bind_eq _ _ _ _ _ Hsrc), (bind_eq _ _ _ _ _ Hnext).
  rewrite bool_decide_eq_false_2 by (intros H; apply H; exact Hrb).
  reflexivity.
Qed.

Lemma _parse_block_fn_accepts (f n lp rp lb rb : Token) (ts : list Token)
    (e : End) (h : Heap) (node : nat) (st2 st3 : State) :
  type f = FN -> type n = NAME ->
  type lp = LPARENTHESES -> type rp = RPARENTHESES -> type lb = LBRACE ->
  parse_source
    (mkState (ts, e) []
       (ASTNode_add (h ++ [mkASTNode f None []; mkASTNode n None []])
          (length h) (S (length h))).1)
    = Returns (node, st2) ->
  next_token st2 = Returns (rb, st3) -> type rb = RBRACE ->
  _parse_block parse_source f (mkState (n :: lp :: rp :: lb :: ts, e) [] h)
    = Returns (length h,
               mkState (_tokens st3) (_token_stack st3)
                 (ASTNode_add (heap st3) (length h) node).1).
Proof.
  intros Hf Hn Hlp Hrp Hlb Hsrc Hnext Hrb.
  unfold _parse_block. rewrite Hf. unfold _parse_func_stmt.
  rewrite (bind_eq _ _ _ (mkState (n :: lp :: rp :: lb :: ts, e) []
                           (h ++ [mkASTNode f None []])) (length h))
    by reflexivity.
  rewrite (bind_eq _ _ _ _ _
             (_parse_func_head_accepts n lp rp lb ts e _ Hn Hlp Hrp
                ltac:(rewrite Hlb; discriminate))).
  rewrite length_app. cbn [length].
  replace (length h + 1) with (S (length h)) by lia.
  rewrite <- app_assoc. cbn [app].
  rewrite (bind_eq _ _ _
             (mkState (ts, e) [lb]
                (ASTNode_add (h ++ [mkASTNode f None []; mkASTNode n None []])
                   (length h) (S (length h))).1) (length h))
    by reflexivity.
  rewrite (bind_eq _ _ _ _ _
             (_parse_scope_accepts lb rb _ _ _ _ _ Hlb Hsrc Hnext Hrb)).
  reflexivity.
Qed.
End Accepts.

Lemma _parse_source_rbrace (fuel : nat) (rb : Token) (ts : list Token)
    (e : End) (h : Heap) :
  0 < fuel -> type rb = RBRACE ->
  _parse_source fuel (mkState (rb :: ts, e) [] h)
    = Returns (length h,
               mkState (ts, e) [rb]
                 (h ++ [mkASTNode (mkToken "." ROOT) None []])).
Proof.
  intros Hfuel Hrb. destruct fuel as [|fuel]; [lia|].
  known_type rb Hrb. reflexivity.
Qed.

Lemma _parse_source_block (fuel : nat) (prev : Token) (ts : list Token)
    (e : End) (h : Heap) (st : State) :
  type prev <> RBRACE ->
  _parse_block (_parse_source fuel) prev
    (mkState (ts, e) [] (h ++ [mkASTNode (mkToken "." ROOT) None []]))
    = Returns (S (length h), st) ->
  _parse_source (S fuel) (mkState (prev :: ts, e) [] h)
    = Returns (length h,
               mkState (_tokens st) (_token_stack st)
                 (ASTNode_add (heap st) (length h) (S (length h))).1).
Proof.
  intros Hprev Hblock. cbn [_parse_source].
  rewrite (bind_eq _ _ _ (mkState (prev :: ts, e) []
                           (h ++ [mkASTNode (mkToken "." ROOT) None []]))
             (length h)) by reflexivity.
  rewrite (bind_eq _ _ _ (mkState (ts, e) []
                           (h ++ [mkASTNode (mkToken "." ROOT) None []]))
             prev) by reflexivity.
  unfold bind at 1.
  assert (Hgo : (match type prev with
                 | RBRACE => set_next_token prev
                 | _ => block <- _parse_block (_parse_source fuel) prev ;;
                        add (length h) block ;; ret tt
                 end)
                = (block <- _parse_block (_parse_source fuel) prev ;;
                   add (length h) block ;; ret tt)).
  { destruct (type prev); try reflexivity. contradiction. }
  rewrite Hgo, (bind_eq _ _ _ _ _ Hblock). reflexivity.
Qed.

(** ** The tree of an accepted statement *)

Ltac decide_index :=
  repeat first [rewrite decide_False by lia | rewrite decide_True by lia].

Lemma lookup_new (h ext : Heap) (k : nat) :
  (h ++ ext) !! (length h + k) = ext !! k.
Proof.
  rewrite lookup_app_r by lia. f_equal. lia.
Qed.

(** The objects of a function statement once its scope is parsed and the
    statement is appended to the root. *)
Lemma fn_assembly (h h1 : Heap) (f n : Token) (nb : ASTNode) :
  (ASTNode_add
     (h ++ [mkASTNode (mkToken "." ROOT) None []; mkASTNode f None [];
            mkASTNode n None []])
     (S (length h)) (S (S (length h)))).1 `prefix_of` h1 ->
  h1 !! S (S (S (length h))) = Some nb ->
  let h3 := (ASTNode_add
               (ASTNode_add h1 (S (length h)) (S (S (S (length h))))).1
               (length h) (S (length h))).1 in
  h3 !! length h = Some (mkASTNode (mkToken "." ROOT) None [S (length h)]) /\
  h3 !! S (length h)
    = Some (mkASTNode f (Some (length h))
              [S (S (length h)); S (S (S (length h)))]) /\
  h3 !! S (S (length h)) = Some (mkASTNode n (Some (S (length h))) []) /\
  h3 !! S (S (S (length h)))
    = Some (mkASTNode (_token nb) (Some (S (length h))) (_childs nb)) /\
  (forall i node,
     S (S (S (length h))) < i -> h1 !! i = Some node -> h3 !! i = Some node).
Proof.
  intros [ext Hext] Hnb h3. subst h3.
  set (r := length h) in *.
  set (h0 := h ++ [mkASTNode (mkToken "." ROOT) None []; mkASTNode f None [];
                   mkASTNode n None []]) in *.
  assert (H0 : h0 !! r = Some (mkASTNode (mkToken "." ROOT) None [])).
  { pose proof (lookup_new h [mkASTNode (mkToken "." ROOT) None [];
                              mkASTNode f None []; mkASTNode n None []] 0) as H.
    rewrite Nat.add_0_r in H. exact H. }
  assert (H1 : h0 !! S r = Some (mkASTNode f None [])).
  { pose proof (lookup_new h [mkASTNode (mkToken "." ROOT) None [];
                              mkASTNode f None []; mkASTNode n None []] 1) as H.
    replace (length h + 1) with (S r) in H by (unfold r; lia). exact H. }
  assert (H2 : h0 !! S (S r) = Some (mkASTNode n None [])).
  { pose proof (lookup_new h [mkASTNode (mkToken "." ROOT) None [];
                              mkASTNode f None []; mkASTNode n None []] 2) as H.
    replace (length h + 2) with (S (S r)) in H by (unfold r; lia). exact H. }
  assert (G0 : h1 !! r = Some (mkASTNode (mkToken "." ROOT) None [])).
  { rewrite Hext. apply lookup_app_l_Some.
    rewrite add_lookup, H0. cbn. decide_index. reflexivity. }
  assert (G1 : h1 !! S r = Some (mkASTNode f None [S (S r)])).
  { rewrite Hext. apply lookup_app_l_Some.
    rewrite add_lookup, H1. cbn.
    decide_index. reflexivity. }
  assert (G2 : h1 !! S (S r) = Some (mkASTNode n (Some (S r)) [])).
  { rewrite Hext. apply lookup_app_l_Some.
    rewrite add_lookup, H2. cbn.
    decide_index. reflexivity. }
  repeat split.
  - rewrite !add_lookup, G0. cbn.
    decide_index. reflexivity.
  - rewrite !add_lookup, G1. cbn.
    decide_index. reflexivity.
  - rewrite !add_lookup, G2. cbn. decide_index. reflexivity.
  - rewrite !add_lookup, Hnb. cbn.
    decide_index. reflexivity.
  - intros i node Hi Hnode. rewrite !add_lookup, Hnode. cbn.
    decide_index. destruct node; reflexivity.
Qed.

Lemma _parse_source_fn_accepts (fuel : nat) (f n lp rp lb rb : Token)
    (ts : list Token) (e : End) (h : Heap) (node : nat) (st2 st3 : State) :
  type f = FN -> type n = NAME ->
  type lp = LPARENTHESES -> type rp = RPARENTHESES -> type lb = LBRACE ->
  _parse_source fuel
    (mkState (ts, e) []
       (ASTNode_add
          (h ++ [mkASTNode (mkToken "." ROOT) None []; mkASTNode f None [];
                 mkASTNode n None []])
          (S (length h)) (S (S (length h)))).1)
    = Returns (node, st2) ->
  next_token st2 = Returns (rb, st3) -> type rb = RBRACE ->
  _parse_source (S fuel) (mkState (f :: n :: lp :: rp :: lb :: ts, e) [] h)
    = Returns (length h,
               mkState (_tokens st3) (_token_stack st3)
                 (ASTNode_add
                    (ASTNode_add (heap st3) (S (length h)) node).1
                    (length h) (S (length h))).1).
Proof.
  intros Hf Hn Hlp Hrp Hlb Hsrc Hnext Hrb.
  pose proof (_parse_block_fn_accepts (_parse_source fuel) f n lp rp lb rb
                ts e (h ++ [mkASTNode (mkToken "." ROOT) None []])
                node st2 st3 Hf Hn Hlp Hrp Hlb) as Hb.
  rewrite <- app_assoc, length_app in Hb. cbn [app length] in Hb.
  replace (length h + 1) with (S (length h)) in Hb by lia.
  specialize (Hb Hsrc Hnext Hrb).
  apply _parse_source_block in Hb; [exact Hb|].
  rewrite Hf. discriminate.
Qed.

Lemma scopes_le (tokens : list Token) : scopes tokens <= length tokens.
Proof.
  unfold scopes. induction tokens as [|t ts IH]; [reflexivity|].
  cbn [List.filter]. destruct (bool_decide (type t = LBRACE)); cbn; lia.
Qed.

(** A function statement has one scope more than the statement between its
    braces. *)
Lemma scopes_fn (f n lp rp lb : Token) (body : list Token) (rb : Token) :
  type f = FN -> type n = NAME ->
  type lp = LPARENTHESES -> type rp = RPARENTHESES ->
  type lb = LBRACE -> type rb = RBRACE ->
  scopes (f :: n :: lp :: rp :: lb :: body ++ [rb]) = S (scopes body).
Proof.
  intros Hf Hn Hlp Hrp Hlb Hrb. unfold scopes. cbn [List.filter].
  rewrite Hf, Hn, Hlp, Hrp, Hlb, List.filter_app. cbn [List.filter].
  rewrite Hrb. cbn. rewrite app_nil_r. reflexivity.
Qed.

(** [_parse_source] reads a statement that the stream starts with, and
    returns a new root whose only child is the tree of the statement; it
    goes one level deeper than the statement has scopes. *)
Lemma _parse_source_builds (s : list Token) :
  statement s ->
  forall fuel rest e h,
    scopes s < fuel ->
    exists h' c,
      _parse_source fuel (mkState (s ++ rest, e) [] h)
        = Returns (length h, mkState (rest, e) [] h') /\
      h' !! length h = Some (mkASTNode (mkToken "." ROOT) None [c]) /\
      length h < c /\ holds h' s c.
Proof.
  induction 1 as [t Ht | f n lp rp lb rb Hf Hn Hlp Hrp Hlb Hrb
                       | f n lp rp lb body rb Hf Hn Hlp Hrp Hlb Hbody IH Hrb];
    intros fuel rest e h Hfuel;
    (destruct fuel as [|fuel]; [lia|]).
  - assert (Hblock : _parse_block (_parse_source fuel) t
              (mkState (rest, e) []
                 (h ++ [mkASTNode (mkToken "." ROOT) None []]))
              = Returns (S (length h),
                         mkState (rest, e) []
                           (h ++ [mkASTNode (mkToken "." ROOT) None [];
                                  mkASTNode t None []]))).
    { unfold _parse_block. rewrite Ht. unfold new_ASTNode, ASTNode_init.
      cbn. rewrite length_app, <- app_assoc. cbn.
      replace (length h + 1) with (S (length h)) by lia. reflexivity. }
    apply _parse_source_block in Hblock; [|rewrite Ht; discriminate].
    cbn [_tokens _token_stack heap app] in *.
    eexists _, (S (length h)). split; [exact Hblock|].
    pose proof (lookup_new h [mkASTNode (mkToken "." ROOT) None [];
                              mkASTNode t None []] 0) as H0.
    pose proof (lookup_new h [mkASTNode (mkToken "." ROOT) None [];
                              mkASTNode t None []] 1) as H1.
    rewrite Nat.add_0_r in H0.
    replace (length h + 1) with (S (length h)) in H1 by lia.
    split; [|split; [lia|]].
    + rewrite add_lookup, H0. cbn. decide_index. reflexivity.
    + eapply (holds_nop _ t _ _ Ht).
      * rewrite add_lookup, H1. cbn. decide_index. reflexivity.
      * reflexivity.
      * reflexivity.
  - pose proof (scopes_fn f n lp rp lb [] rb Hf Hn Hlp Hrp Hlb Hrb) as Hs.
    cbn [app] in Hs. rewrite Hs in Hfuel. cbn [app].
    set (h0 := (ASTNode_add
                  (h ++ [mkASTNode (mkToken "." ROOT) None [];
                         mkASTNode f None []; mkASTNode n None []])
                  (S (length h)) (S (S (length h)))).1).
    assert (Hl0 : length h0 = S (S (S (length h)))).
    { unfold h0. rewrite ASTNode_add_length, length_app. cbn. lia. }
    pose proof (_parse_source_rbrace fuel rb rest e h0 ltac:(lia) Hrb) as Hsrc.
    pose proof (_parse_source_fn_accepts fuel f n lp rp lb rb (rb :: rest) e h
                  _ _ (mkState (rest, e) [] _) Hf Hn Hlp Hrp Hlb Hsrc eq_refl
                  Hrb) as Hret.
    cbn [_tokens _token_stack heap] in Hret. rewrite Hl0 in Hret.
    destruct (fn_assembly h (h0 ++ [mkASTNode (mkToken "." ROOT) None []])
                f n (mkASTNode (mkToken "." ROOT) None []))
      as (G0 & G1 & G2 & G3 & _).
    { apply prefix_app_r. reflexivity. }
    { rewrite <- Hl0. apply list_lookup_middle. reflexivity. }
    eexists _, (S (length h)). split; [exact Hret|].
    split; [exact G0|]. split; [lia|].
    eapply (holds_fn_empty _ f n lp rp lb rb _ _ _ _ _ _
              Hf Hn Hlp Hrp Hlb Hrb G1);
      [reflexivity | reflexivity | lia | lia | exact G2 | reflexivity
      | reflexivity | exact G3 | reflexivity | reflexivity].
  - rewrite scopes_fn in Hfuel by assumption.
    cbn [app]. rewrite <- app_assoc. cbn [app].
    set (h0 := (ASTNode_add
                  (h ++ [mkASTNode (mkToken "." ROOT) None [];
                         mkASTNode f None []; mkASTNode n None []])
                  (S (length h)) (S (S (length h)))).1).
    assert (Hl0 : length h0 = S (S (S (length h)))).
    { unfold h0. rewrite ASTNode_add_length, length_app. cbn. lia. }
    destruct (IH fuel (rb :: rest) e h0 ltac:(lia))
      as (h1 & c & Hsrc & Hroot & Hc & Hinner).
    pose proof (_parse_source_allocates _ _ _ _ Hsrc) as [[Hpre _] _].
    cbn [heap] in Hpre.
    pose proof (_parse_source_fn_accepts fuel f n lp rp lb rb
                  (body ++ rb :: rest) e h
                  _ _ (mkState (rest, e) [] h1) Hf Hn Hlp Hrp Hlb Hsrc eq_refl
                  Hrb) as Hret.
    cbn [_tokens _token_stack heap] in Hret. rewrite Hl0 in Hret, Hroot, Hc.
    destruct (fn_assembly h h1 f n _ Hpre Hroot)
      as (G0 & G1 & G2 & G3 & Hkeep).
    eexists _, (S (length h)). split; [exact Hret|].
    split; [exact G0|]. split; [lia|].
    eapply (holds_fn _ f n lp rp lb body rb _ _ _ _ _ _ c
              Hf Hn Hlp Hrp Hlb Hrb G1);
      [reflexivity | reflexivity | lia | lia | exact G2 | reflexivity
      | reflexivity | exact G3 | reflexivity | reflexivity | lia |].
    apply (holds_preserved _ _ _ Hinner).
    + intros i node Hi. apply Hkeep. lia.
    + intros node Hnode. exists node. split; [|auto].
      apply Hkeep; [lia | assumption].
Qed.

(** ** Only statements are accepted *)

Lemma next_token_fresh (st : State) (t : Token) (st' : State) :
  _token_stack st = [] -> next_token st = Returns (t, st') ->
  (_tokens st).1 = t :: (_tokens st').1 /\ _token_stack st' = [].
Proof.
  unfold next_token. intros ->. cbn.
  destruct (_tokens st) as [[|t' ts] [ |e| ]]; try discriminate;
    intros [= <- <-]; cbn; auto.
Qed.

Lemma next_token_held (st : State) (v t : Token) (st' : State) :
  _token_stack st = [v] -> next_token st = Returns (t, st') ->
  t = v /\ _tokens st' = _tokens st /\ _token_stack st' = [].
Proof.
  unfold next_token. intros ->. cbn. intros [= <- <-]. cbn. auto.
Qed.

Lemma _parse_func_head_sound (st : State) (node : nat) (st' : State) :
  _token_stack st = [] ->
  _parse_func_head st = Returns (node, st') ->
  exists n lp rp x,
    type n = NAME /\ type lp = LPARENTHESES /\ type rp = RPARENTHESES /\
    (_tokens st).1 = n :: lp :: rp :: x :: (_tokens st').1 /\
    _token_stack st' = [x].
Proof.
  unfold _parse_func_head. intros Hstack H.
  apply bind_returns in H as (name & st1 & H1 & H).
  destruct (bool_decide_reflect (type name <> NAME)) as [|Hn];
    [discriminate|].
  apply bind_returns in H as (node0 & st2 & H2 & H).
  apply bind_returns in H as (prev & st3 & H3 & H).
  destruct (bool_decide_reflect (type prev <> LPARENTHESES)) as [|Hlp];
    [discriminate|].
  apply bind_returns in H as (prev' & st4 & H4 & H).
  apply bind_returns in H as (u & st5 & H5 & H).
  apply bind_returns in H as (prev'' & st6 & H6 & H).
  apply bind_returns in H as (u' & st7 & H7 & H).
  inv_ret H.
  assert (Hrp : type prev' = RPARENTHESES /\ st5 = st4).
  { destruct (type prev'); try discriminate H5. inv_ret H5. auto. }
  destruct Hrp as [Hrp ->]. clear H5.
  assert (H7' : set_next_token prev'' st6 = Returns (u', st')).
  { destruct (type prev''); try exact H7. discriminate H7. }
  clear H7.
  apply (next_token_fresh _ _ _ Hstack) in H1 as (Ht1 & Hs1).
  apply new_ASTNode_returns in H2 as (_ & _ & Ht2 & Hs2).
  rewrite Hs1 in Hs2. rewrite <- Ht2 in Ht1.
  apply (next_token_fresh _ _ _ Hs2) in H3 as (Ht3 & Hs3).
  apply (next_token_fresh _ _ _ Hs3) in H4 as (Ht4 & Hs4).
  apply (next_token_fresh _ _ _ Hs4) in H6 as (Ht6 & Hs6).
  unfold set_next_token in H7'. injection H7' as _ <-. cbn.
  exists name, prev, prev', prev''.
  repeat split.
  - destruct (decide (type name = NAME)); [assumption | contradiction].
  - destruct (decide (type prev = LPARENTHESES)); [assumption | contradiction].
  - assumption.
  - congruence.
  - rewrite Hs6. reflexivity.
Qed.

Section Sound.
Variable parse_source : M nat.
Hypothesis parse_source_sound : forall st root st',
  _token_stack st = [] -> parse_source st = Returns (root, st') ->
  recognised (_tokens st).1 st'.

Lemma _parse_scope_sound (st : State) (x : Token) (node : nat) (st' : State) :
  _token_stack st = [x] ->
  _parse_scope parse_source st = Returns (node, st') ->
  type x = LBRACE /\
  exists body rb,
    (body = [] \/ statement body) /\ type rb = RBRACE /\
    (_tokens st).1 = body ++ rb :: (_tokens st').1 /\ _token_stack st' = [].
Proof.
  intros Hstack H.
  apply _parse_scope_returns in H
    as (prev & st1 & H1 & Hlb & st2 & prev' & H2 & H3 & Hrb).
  apply (next_token_held _ _ _ _ Hstack) in H1 as (-> & Ht1 & Hs1).
  split; [exact Hlb|].
  apply (parse_source_sound _ _ _ Hs1) in H2.
  rewrite Ht1 in H2.
  destruct H2 as [(s & Hs & Hts & Hs2) | (t & Ht & Hts & Hs2)].
  - apply (next_token_fresh _ _ _ Hs2) in H3 as (Ht3 & Hs3).
    exists s, prev'. rewrite Hts, Ht3. auto.
  - apply (next_token_held _ _ _ _ Hs2) in H3 as (-> & Ht3 & Hs3).
    exists [], t. rewrite Hts, Ht3. auto.
Qed.

Lemma _parse_block_sound (prev : Token) (st : State) (node : nat)
    (st' : State) :
  _token_stack st = [] ->
  _parse_block parse_source prev st = Returns (node, st') ->
  exists c, statement (prev :: c) /\ (_tokens st).1 = c ++ (_tokens st').1 /\
            _token_stack st' = [].
Proof.
  intros Hstack. unfold _parse_block.
  destruct (type prev) eqn:Hprev; try discriminate.
  - unfold _parse_func_stmt. intros H.
    apply bind_returns in H as (node0 & st1 & H1 & H).
    apply bind_returns in H as (head & st2 & H2 & H).
    apply bind_returns in H as (r & st3 & H3 & H).
    apply bind_returns in H as (scope & st4 & H4 & H).
    apply bind_returns in H as (r' & st5 & H5 & H).
    inv_ret H.
    apply new_ASTNode_returns in H1 as (_ & _ & Ht1 & Hs1).
    rewrite Hstack in Hs1.
    apply (_parse_func_head_sound _ _ _ Hs1) in H2
      as (n & lp & rp & x & Hn & Hlp & Hrp & Ht2 & Hs2).
    apply add_returns in H3 as (_ & _ & Ht3 & Hs3).
    rewrite Hs2 in Hs3.
    apply (_parse_scope_sound _ _ _ _ Hs3) in H4
      as (Hlb & body & rb & Hbody & Hrb & Ht4 & Hs4).
    apply add_returns in H5 as (_ & _ & Ht5 & Hs5).
    exists (n :: lp :: rp :: x :: body ++ [rb]).
    split; [|split].
    + destruct Hbody as [-> | Hbody].
      * apply statement_fn_empty; assumption.
      * apply statement_fn; assumption.
    + cbn [app]. rewrite <- app_assoc. cbn [app].
      rewrite <- Ht1, Ht2, Ht5, <- Ht3, Ht4. reflexivity.
    + congruence.
  - intros H. apply new_ASTNode_returns in H as (_ & _ & Ht & Hs).
    exists []. split; [apply statement_nop; assumption|].
    split; [rewrite Ht; reflexivity | congruence].
Qed.
End Sound.

Lemma _parse_source_sound (fuel : nat) (st : State) (root : nat)
    (st' : State) :
  _token_stack st = [] -> _parse_source fuel st = Returns (root, st') ->
  recognised (_tokens st).1 st'.
Proof.
  revert st root st'. induction fuel as [|fuel IH]; intros st root st' Hstack H;
    [discriminate|].
  cbn [_parse_source] in H.
  apply bind_returns in H as (root0 & st1 & H1 & H).
  apply bind_returns in H as (prev & st2 & H2 & H).
  apply bind_returns in H as (u & st3 & H3 & H).
  inv_ret H.
  apply new_ASTNode_returns in H1 as (_ & _ & Ht1 & Hs1).
  rewrite Hstack in Hs1.
  apply (next_token_fresh _ _ _ Hs1) in H2 as (Ht2 & Hs2).
  rewrite Ht1 in Ht2.
  destruct (decide (type prev = RBRACE)) as [Hrb|Hrb].
  - rewrite Hrb in H3. unfold set_next_token in H3. injection H3 as _ <-.
    right. exists prev. cbn. rewrite Hs2. auto.
  - assert (H3' : (block <- _parse_block (_parse_source fuel) prev ;;
                   add root block ;; ret tt) st2 = Returns (u, st')).
    { destruct (type prev); try exact H3. contradiction. }
    clear H3.
    apply bind_returns in H3' as (block & st3 & Hb & H3).
    apply bind_returns in H3 as (r & st4 & Ha & H3).
    inv_ret H3.
    apply (_parse_block_sound _ IH _ _ _ _ Hs2) in Hb as (c & Hc & Ht3 & Hs3).
    apply add_returns in Ha as (_ & _ & Ht4 & Hs4).
    left. exists (prev :: c). split; [exact Hc|].
    split; [rewrite Ht2, Ht3, Ht4; reflexivity | congruence].
Qed.

(** X25: [parse] accepts nothing but statements.  When [parse] returns, it
    returns a new root, and either the tokens of the source start with a
    statement of the grammar, which is all that [parse] has read, no token
    is held back, and the only child of the root is the tree of that
    statement; or they start with a closing brace, which is the one token
    held back on the stack, and the root is the only new object and has no
    child. *)
Theorem parse_recognises (h : Heap) (src : string) (root : nat) (st : State) :
  parse_in h src = Returns (root, st) ->
  root = length h /\
  ((exists s c,
      statement s /\ (lexer src).1 = s ++ (_tokens st).1 /\
      _token_stack st = [] /\
      heap st !! root = Some (mkASTNode (mkToken "." ROOT) None [c]) /\
      holds (heap st) s c) \/
   (exists t,
      type t = RBRACE /\ (lexer src).1 = t :: (_tokens st).1 /\
      _token_stack st = [t] /\
      heap st = h ++ [mkASTNode (mkToken "." ROOT) None []])).
Proof.
  unfold parse_in. pose proof (lexer_end src) as Hend.
  destruct (lexer src) as [ts e]. cbn [fst snd] in *. subst e.
  intros H. pose proof H as Hrec.
  apply _parse_source_sound in Hrec; [|reflexivity].
  cbn [_tokens fst] in Hrec.
  destruct Hrec as [(s & Hs & Hts & Hstack) | (t & Ht & Hts & Hstack)].
  - destruct (_parse_source_builds s Hs (S (length (s ++ (_tokens st).1)))
                (_tokens st).1 Return h) as (h' & c & E & Hroot & _ & Hc).
    { pose proof (scopes_le s). rewrite length_app. lia. }
    rewrite Hts, E in H. injection H as <- <-. cbn [_tokens heap fst].
    split; [reflexivity|]. left. exists s, c. auto.
  - rewrite Hts in H.
    rewrite (_parse_source_rbrace (S (length (t :: (_tokens st).1))) t _
               Return h ltac:(lia) Ht) in H.
    injection H as <- <-. cbn [_tokens heap fst].
    split; [reflexivity|]. right. exists t. auto.
Qed.

Lemma parse_recognises_witness :
  0 = length (@nil ASTNode) /\
  ((exists s c,
      statement s /\ (lexer "nop nop").1 = s ++ [mkToken "nop" NOP] /\
      @nil Token = [] /\
      [ mkASTNode (mkToken "." ROOT) None [1];
        mkASTNode (mkToken "nop" NOP) (Some 0) [] ] !! 0
        = Some (mkASTNode (mkToken "." ROOT) None [c]) /\
      holds [ mkASTNode (mkToken "." ROOT) None [1];
              mkASTNode (mkToken "nop" NOP) (Some 0) [] ] s c) \/
   (exists t,
      type t = RBRACE /\ (lexer "nop nop").1 = [t; mkToken "nop" NOP] /\
      @nil Token = [t] /\
      [ mkASTNode (mkToken "." ROOT) None [1];
        mkASTNode (mkToken "nop" NOP) (Some 0) [] ]
        = [] ++ [mkASTNode (mkToken "." ROOT) None []])).
Proof.
  apply (parse_recognises [] "nop nop" 0
           (mkState ([mkToken "nop" NOP], Return) []
              [ mkASTNode (mkToken "." ROOT) None [1];
                mkASTNode (mkToken "nop" NOP) (Some 0) [] ])).
  vm_compute. reflexivity.
Defined.

(* ===================================================================== *)
(** * The lexer on a bounded stack *)
(* ===================================================================== *)

(** ** [yield_tokens] *)

Lemma length_append (s t : string) :
  String.length (s +:+ t) = String.length s + String.length t.
Proof.
  induction s as [|c s IH]; [reflexivity|].
  rewrite append_cons. cbn [String.length]. rewrite IH. reflexivity.
Qed.

(** With room for one activation per character, [yield_tokens] runs as on a
    stack without bound. *)
Lemma yield_tokens_within_enough (run : string) (frames : nat) :
  nonempty run = true -> String.length run <= frames ->
  yield_tokens_within frames run = yield_tokens run.
Proof.
  revert frames. induction run as [|c run IH]; [discriminate|].
  intros frames _ Hlen. cbn [String.length] in Hlen.
  destruct frames as [|frames]; [lia|].
  cbn [yield_tokens_within yield_tokens].
  destruct (TokenType_call (String c run)) eqn:Hwhole; [reflexivity|].
  destruct (TokenType_call (String c "")) eqn:Hfirst; [|reflexivity].
  destruct run as [|d run]; [congruence|].
  rewrite IH by (cbn [String.length nonempty] in *; auto; lia).
  reflexivity.
Qed.

(** A run of operator characters is resolved, or the stack is exhausted. *)
Lemma yield_tokens_within_end (frames : nat) (run : string) :
  nonempty run = true -> all_in OPERATORS run = true ->
  (yield_tokens_within frames run).2 = Return \/
  (yield_tokens_within frames run).2 = Raise RecursionError.
Proof.
  revert run. induction frames as [|frames IH]; intros run Hne Hall;
    [right; reflexivity|].
  destruct run as [|c run]; [discriminate|].
  cbn [all_in] in Hall. apply andb_true_iff in Hall as [Hc Hall].
  cbn [yield_tokens_within].
  destruct (TokenType_call (String c run)) eqn:Hwhole; [left; reflexivity|].
  destruct (operator_char_is_member c Hc) as [ty Hty]. rewrite Hty.
  cbn [gen_yield snd].
  destruct run as [|d run]; [congruence|].
  apply IH; [reflexivity | assumption].
Qed.

Lemma yield_tokens_within_operators (frames : nat) (run : string) :
  all_in OPERATORS run = true ->
  Forall operator_token (yield_tokens_within frames run).1.
Proof.
  revert run. induction frames as [|frames IH]; intros run Hall;
    [constructor|].
  cbn [yield_tokens_within].
  destruct (TokenType_call run) as [ty|] eqn:Hwhole.
  { repeat constructor; cbn [type raw]; auto.
    - exact (TokenType_call_value _ _ Hwhole).
    - destruct run; [discriminate Hwhole | reflexivity]. }
  destruct run as [|c run]; [constructor|].
  cbn [all_in] in Hall. apply andb_true_iff in Hall as [Hc Hall].
  destruct (TokenType_call (String c "")) as [ty|] eqn:Hty; [|constructor].
  cbn [gen_yield fst]. constructor; [|apply IH; assumption].
  repeat split; cbn [type raw all_in].
  - exact (TokenType_call_value _ _ Hty).
  - rewrite Hc. reflexivity.
Qed.

(** The tokens that [yield_tokens] yields before it ends spell the start of
    the run. *)
Lemma yield_tokens_within_spelled (frames : nat) (run : string) :
  exists rest,
    run = spelled (yield_tokens_within frames run).1 +:+ rest /\
    ((yield_tokens_within frames run).2 = Return -> rest = "").
Proof.
  revert run. induction frames as [|frames IH]; intros run.
  { exists run. split; [reflexivity | discriminate]. }
  cbn [yield_tokens_within].
  destruct (TokenType_call run) as [ty|] eqn:Hwhole.
  { exists "". split; [|reflexivity].
    cbn [gen_yield gen_empty fst]. rewrite spelled_cons. cbn [raw].
    change (spelled []) with "". rewrite !append_nil_r. reflexivity. }
  destruct run as [|c run].
  { exists "". split; [reflexivity | discriminate]. }
  destruct (TokenType_call (String c "")) as [ty|] eqn:Hty.
  - destruct (IH run) as (rest & Hrun & Hret).
    exists rest. cbn [gen_yield fst snd]. split; [|exact Hret].
    rewrite spelled_cons. cbn [raw]. rewrite append_assoc, <- Hrun.
    reflexivity.
  - exists (String c run). split; [reflexivity | discriminate].
Qed.

(** ** Operator extraction *)

Lemma extract_operator_chars_within_enough (frames : nat)
    (chars remains operators : string) :
  String.length operators + String.length chars <= frames ->
  extract_operator_chars_within frames chars remains operators
    = extract_operator_chars chars remains operators.
Proof.
  revert remains operators.
  induction chars as [|ch chars IH]; intros remains operators Hlen;
    cbn [String.length] in Hlen.
  - cbn [extract_operator_chars_within extract_operator_chars].
    destruct (nonempty operators) eqn:Hne; [|reflexivity].
    rewrite yield_tokens_within_enough by (auto; lia). reflexivity.
  - cbn [extract_operator_chars_within extract_operator_chars].
    destruct (char_in ch OPERATORS).
    + rewrite !IH by (rewrite length_append; cbn [String.length]; lia).
      reflexivity.
    + rewrite !IH by (cbn [String.length]; lia).
      destruct (nonempty operators) eqn:Hne; [|reflexivity].
      rewrite yield_tokens_within_enough by (auto; lia). reflexivity.
Qed.

Lemma extract_operator_chars_within_end (frames : nat)
    (chars remains operators : string) :
  all_in OPERATORS operators = true ->
  (extract_operator_chars_within frames chars remains operators).2 = Return \/
  (extract_operator_chars_within frames chars remains operators).2
    = Raise RecursionError.
Proof.
  revert remains operators.
  induction chars as [|ch chars IH]; intros remains operators Hops.
  - cbn [extract_operator_chars_within].
    rewrite gen_from_end by (destruct (nonempty remains); reflexivity).
    destruct (nonempty operators) eqn:Hne; [|left; reflexivity].
    apply yield_tokens_within_end; assumption.
  - cbn [extract_operator_chars_within].
    destruct (char_in ch OPERATORS) eqn:Hch.
    + destruct (nonempty remains); cbn [gen_yield snd];
        apply IH, all_in_snoc; assumption.
    + destruct (nonempty operators) eqn:Hne; [|apply IH; assumption].
      destruct (yield_tokens_within_end frames operators Hne Hops) as [H|H].
      * rewrite gen_from_end by exact H. apply IH. reflexivity.
      * right. unfold gen_from. rewrite H. exact H.
Qed.

Lemma extract_operator_chars_within_kinds (frames : nat)
    (pool chars remains operators : string) :
  none_in pool chars = true -> none_in pool remains = true ->
  none_in OPERATORS remains = true ->
  all_in OPERATORS operators = true ->
  Forall (fun t => word_piece t /\ none_in pool (raw t) = true \/
                   operator_token t)
    (extract_operator_chars_within frames chars remains operators).1.
Proof.
  assert (Hyield : forall run, all_in OPERATORS run = true ->
    Forall (fun t => word_piece t /\ none_in pool (raw t) = true \/
                     operator_token t) (yield_tokens_within frames run).1).
  { intros run Hrun. eapply Forall_impl;
      [apply yield_tokens_within_operators; assumption | auto]. }
  assert (Hfrom : forall g k : Gen,
    Forall (fun t => word_piece t /\ none_in pool (raw t) = true \/
                     operator_token t) g.1 ->
    Forall (fun t => word_piece t /\ none_in pool (raw t) = true \/
                     operator_token t) k.1 ->
    Forall (fun t => word_piece t /\ none_in pool (raw t) = true \/
                     operator_token t) (gen_from g k).1).
  { intros g k Hg Hk. unfold gen_from.
    destruct g.2; [apply Forall_app; split|..]; assumption. }
  revert remains operators.
  induction chars as [|ch chars IH]; intros remains operators Hc Hp Hr Hops.
  - cbn [extract_operator_chars_within]. apply Hfrom.
    + destruct (nonempty remains) eqn:Hne; repeat constructor; auto.
    + destruct (nonempty operators) eqn:Hne; [auto | constructor].
  - cbn [none_in] in Hc. apply andb_true_iff in Hc as [Hch Hc].
    apply negb_true_iff in Hch.
    cbn [extract_operator_chars_within].
    destruct (char_in ch OPERATORS) eqn:Hop.
    + destruct (nonempty remains) eqn:Hne.
      * cbn [gen_yield fst]. constructor; [left; repeat split; auto|].
        apply IH; try reflexivity; try assumption.
        apply all_in_snoc; assumption.
      * apply IH; try assumption. apply all_in_snoc; assumption.
    + destruct (nonempty operators) eqn:Hne.
      * apply Hfrom; [auto|].
        apply IH; try reflexivity; try assumption;
          apply none_in_snoc; assumption.
      * apply IH; try assumption; apply none_in_snoc; assumption.
Qed.

(** A loop whose body can only raise [e0] ends the way the generator it
    iterates over ends, or raises [e0]. *)
Lemma gen_for_end_or (body : Token -> Gen) (ts : list Token) (e : End)
    (e0 : Exn) :
  (forall t, (body t).2 = Return \/ (body t).2 = Raise e0) ->
  (gen_for body ts e).2 = e \/ (gen_for body ts e).2 = Raise e0.
Proof.
  intros Hbody. induction ts as [|t ts IH]; [left; reflexivity|].
  cbn [gen_for]. destruct (Hbody t) as [H|H].
  - rewrite gen_from_end by exact H. exact IH.
  - right. unfold gen_from. rewrite H. exact H.
Qed.

Lemma gen_for_Forall (P : Token -> Prop) (body : Token -> Gen)
    (ts : list Token) (e : End) :
  Forall (fun t => Forall P (body t).1) ts ->
  Forall P (gen_for body ts e).1.
Proof.
  induction 1 as [|t ts Ht Hts IH]; [constructor|].
  cbn [gen_for]. unfold gen_from.
  destruct (body t).2; [apply Forall_app; split|..]; assumption.
Qed.

Lemma lexer_extract_operator_within_end (frames : nat) (tokens : Gen) :
  (lexer_extract_operator_within frames tokens).2 = tokens.2 \/
  (lexer_extract_operator_within frames tokens).2 = Raise RecursionError.
Proof.
  apply gen_for_end_or. intros t.
  destruct (type t); try (left; reflexivity).
  apply extract_operator_chars_within_end. reflexivity.
Qed.

Lemma lexer_extract_operator_within_enough (frames : nat) (tokens : Gen) :
  Forall (fun t => type t = UNKNOWN -> String.length (raw t) <= frames)
    tokens.1 ->
  lexer_extract_operator_within frames tokens = lexer_extract_operator tokens.
Proof.
  destruct tokens as [ts e]. cbn [fst].
  unfold lexer_extract_operator_within, lexer_extract_operator.
  cbn [fst snd]. induction 1 as [|t ts Ht Hts IH]; [reflexivity|].
  cbn [gen_for]. rewrite IH. f_equal.
  destruct (type t); try reflexivity.
  apply extract_operator_chars_within_enough. cbn [String.length]. auto.
Qed.

Lemma lexer_extract_operator_within_kinds (frames : nat) (pool : string)
    (P : Token -> Prop) (tokens : Gen) :
  Forall (fun t => (type t = UNKNOWN -> none_in pool (raw t) = true) /\
                   (type t <> UNKNOWN -> P t)) tokens.1 ->
  (forall u, word_piece u -> none_in pool (raw u) = true -> P u) ->
  (forall u, operator_token u -> P u) ->
  Forall P (lexer_extract_operator_within frames tokens).1.
Proof.
  destruct tokens as [ts e]. cbn [fst]. intros Hts Hword Hop.
  apply gen_for_Forall. eapply Forall_impl; [exact Hts|].
  intros t [Hu Ht]. cbn beta.
  destruct (type t) eqn:Hty;
    try (repeat constructor; apply Ht; discriminate).
  eapply Forall_impl;
    [apply (extract_operator_chars_within_kinds frames pool (raw t) "" "");
     auto using none_in_nil|].
  intros u [[Hw Hp]|Hu']; auto.
Qed.

(** ** The whole lexer *)

Lemma substring_length_le (s : string) (i n : nat) :
  String.length (substring i n s) <= String.length s.
Proof.
  revert i n. induction s as [|c s IH]; intros [|i] [|n]; cbn; try lia.
  - specialize (IH 0 n). lia.
  - specialize (IH i 0). lia.
  - specialize (IH i (S n)). lia.
Qed.

(** No token of the coarse segmentation is longer than the source. *)
Lemma lexer_by_tokens_loop_short (src : string) (fuel index : nat) :
  String.length src - index <= fuel ->
  Forall (fun t => String.length (raw t) <= String.length src)
    (lexer_by_tokens_loop fuel src index).1.
Proof.
  revert index. induction fuel as [|fuel IH]; intros index Hfuel.
  - rewrite lexer_by_tokens_loop_done by lia. constructor.
  - destruct (Nat.lt_ge_cases index (String.length src)) as [Hlt|Hge].
    + destruct (lexer_by_tokens_loop_step src fuel index Hlt)
        as (t & next & -> & Hnext & _ & Hraw).
      cbn [gen_yield fst]. constructor; [|apply IH; lia].
      destruct Hraw as [-> | (_ & _ & _ & _ & ->)];
        apply substring_length_le.
    + rewrite lexer_by_tokens_loop_done by lia. constructor.
Qed.

(** With room for one activation per character of the source, the lexer runs
    as on a stack without bound. *)
Lemma lexer_extract_operator_within_source (frames : nat) (src : string) :
  String.length src <= frames ->
  lexer_extract_operator_within frames (lexer_by_tokens src)
    = lexer_extract_operator (lexer_by_tokens src).
Proof.
  intros Hlen. apply lexer_extract_operator_within_enough.
  eapply Forall_impl;
    [apply (lexer_by_tokens_loop_short src (String.length src) 0); lia|].
  cbn beta. intros t Ht _. lia.
Qed.




(** ** A run that exhausts the stack *)







(** ** [TokenType.yield_tokens] on any text *)

(** X17: [TokenType.yield_tokens] on an arbitrary ASCII text, with room for
    [frames] nested activations.  Every token it yields has a category whose
    value is the token's raw text.  When it ends normally the text is not
    empty and the tokens spell it.  Otherwise it raises: [RecursionError]
    when the room is used up, after one token per activation, which spell
    the start of the text; [IndexError] on the empty text (nothing is
    yielded); and else the [ValueError] of one character of the text, after
    tokens that spell the text before that character: neither that
    character nor the text from it on is the value of a member, and the
    message is the [repr] of the character followed by
    " is not a valid TokenType". *)
Theorem yield_tokens_outcome (frames : nat) (run : string) :
  is_ascii run = true ->
  Forall (fun t => value (type t) = StrValue (raw t))
    (yield_tokens_within frames run).1 /\
  match (yield_tokens_within frames run).2 with
  | Return =>
      nonempty run = true /\ spelled (yield_tokens_within frames run).1 = run
  | Raise e =>
      e = RecursionError /\
      length (yield_tokens_within frames run).1 = frames /\
      (exists rest,
         run = spelled (yield_tokens_within frames run).1 +:+ rest) \/
      run = "" /\ (yield_tokens_within frames run).1 = [] /\
      e = IndexError \/
      exists c rest,
        run = spelled (yield_tokens_within frames run).1 +:+ String c rest /\
        TokenType_call (String c rest) = None /\
        TokenType_call (String c "") = None /\
        e = ValueError (repr (String c "") +:+ " is not a valid TokenType")
  | OutOfFuel => False
  end.
Proof.
  intros _. revert run.
  induction frames as [|frames IH]; intros run.
  { split; [constructor|]. left. repeat split. exists run. reflexivity. }
  cbn [yield_tokens_within].
  destruct (TokenType_call run) as [ty|] eqn:Hwhole.
  { split.
    - repeat constructor. exact (TokenType_call_value _ _ Hwhole).
    - cbn [gen_yield gen_empty fst snd]. split; [|reflexivity].
      destruct run; [discriminate Hwhole | reflexivity]. }
  destruct run as [|c run].
  { split; [constructor|]. right. left. repeat split. }
  destruct (TokenType_call (String c "")) as [ty|] eqn:Hfirst.
  2:{ split; [constructor|]. right. right. exists c, run. repeat split;
        assumption. }
  destruct (IH run) as [IHkinds IHend].
  destruct (yield_tokens_within frames run) as [ts e].
  cbn [gen_yield fst snd] in *.
  split.
  { constructor; [exact (TokenType_call_value _ _ Hfirst) | assumption]. }
  destruct e as [|e|]; [| |assumption].
  + destruct IHend as [_ IHs]. split; [reflexivity|].
    rewrite spelled_cons, IHs. reflexivity.
  + destruct IHend as [(-> & Hlen & rest & Hrun)
                      | [(-> & _) | (d & rest & Hrun & Hrest & Hd & ->)]].
    * left. split; [reflexivity|]. split; [cbn; lia|].
      exists rest. rewrite spelled_cons. cbn [raw].
      rewrite append_assoc, <- Hrun. reflexivity.
    * congruence.
    * right. right. exists d, rest.
      split; [|split; [assumption | split; [assumption | reflexivity]]].
      rewrite spelled_cons. cbn [raw]. rewrite append_assoc, <- Hrun.
      reflexivity.
Qed.

Lemma yield_tokens_outcome_witness :
  Forall (fun t => value (type t) = StrValue (raw t))
    (yield_tokens_within 5 "+a").1 /\
  match (yield_tokens_within 5 "+a").2 with
  | Return =>
      nonempty "+a" = true /\ spelled (yield_tokens_within 5 "+a").1 = "+a"
  | Raise e =>
      e = RecursionError /\
      length (yield_tokens_within 5 "+a").1 = 5 /\
      (exists rest,
         "+a" = spelled (yield_tokens_within 5 "+a").1 +:+ rest) \/
      "+a" = "" /\ (yield_tokens_within 5 "+a").1 = [] /\
      e = IndexError \/
      exists c rest,
        "+a" = spelled (yield_tokens_within 5 "+a").1 +:+ String c rest /\
        TokenType_call (String c rest) = None /\
        TokenType_call (String c "") = None /\
        e = ValueError (repr (String c "") +:+ " is not a valid TokenType")
  | OutOfFuel => False
  end.
Proof. exact (yield_tokens_outcome 5 "+a" eq_refl). Defined.

(** ** Operator extraction *)

(** X18: operator extraction on any token stream, with room for [frames]
    nested activations of [yield_tokens].  It ends the way its input ends,
    or raises [RecursionError].  When no unclassified token of the input is
    longer than [frames], it ends the way its input ends and loses no
    character: its tokens spell the text its input spells.  Each token it
    yields is a classified token of the input, unchanged, or a non-empty
    piece of an unclassified token that is either UNKNOWN without operator
    characters, or made of operator characters and of the category that has
    this spelling. *)
Theorem lexer_extract_operator_lossless (frames : nat) (tokens : Gen) :
  ((lexer_extract_operator_within frames tokens).2 = tokens.2 \/
   (lexer_extract_operator_within frames tokens).2 = Raise RecursionError) /\
  (Forall (fun t => type t = UNKNOWN -> String.length (raw t) <= frames)
     tokens.1 ->
   (lexer_extract_operator_within frames tokens).2 = tokens.2 /\
   spelled (lexer_extract_operator_within frames tokens).1
     = spelled tokens.1) /\
  Forall (fun u => In u tokens.1 /\ type u <> UNKNOWN \/
                   word_piece u \/ operator_token u)
    (lexer_extract_operator_within frames tokens).1.
Proof.
  split; [apply lexer_extract_operator_within_end|]. split.
  - intros Hfit. rewrite (lexer_extract_operator_within_enough _ _ Hfit).
    split; [apply lexer_extract_operator_end
           | apply lexer_extract_operator_spelled].
  - apply (lexer_extract_operator_within_kinds frames ""); auto.
    apply List.Forall_forall. intros t Hin.
    split; [intros _; apply none_in_nil|].
    intros Hty. left. split; assumption.
Qed.

(** ** What the segmentation keeps of the source *)

(** X22: for a source without a slash, and for a source without a newline,
    the coarse segmentation loses no character: the texts of its tokens,
    put together, are the source; and so are the texts of the tokens after
    operator extraction and after word identification, when the stack has
    room for as many nested activations of [yield_tokens] as the source has
    characters. *)
Theorem lexer_by_tokens_lossless (frames : nat) (src : string) :
  none_in "/" src = true \/ none_in (String newline "") src = true ->
  spelled (lexer_by_tokens src).1 = src /\
  (String.length src <= frames ->
   spelled (lexer_extract_operator_within frames (lexer_by_tokens src)).1
     = src /\
   spelled (lexer_identify_word
              (lexer_extract_operator_within frames
                 (lexer_by_tokens src))).1 = src).
Proof.
  intros Hsrc.
  assert (H1 : spelled (lexer_by_tokens src).1 = src).
  { unfold lexer_by_tokens.
    rewrite (lexer_by_tokens_loop_spelled src _ 0 Hsrc) by lia.
    rewrite Nat.sub_0_r. apply substring_full. }
  split; [exact H1|]. intros Hlen.
  rewrite (lexer_extract_operator_within_source _ _ Hlen).
  assert (H2 : spelled (lexer_extract_operator (lexer_by_tokens src)).1 = src).
  { rewrite lexer_extract_operator_spelled. exact H1. }
  split; [exact H2|].
  unfold spelled in *. rewrite lexer_identify_word_raw. exact H2.
Qed.

Lemma lexer_by_tokens_lossless_witness :
  spelled (lexer_by_tokens "fn main() { nop }").1 = "fn main() { nop }" /\
  (String.length "fn main() { nop }" <= 17 ->
   spelled (lexer_extract_operator_within 17
              (lexer_by_tokens "fn main() { nop }")).1
     = "fn main() { nop }" /\
   spelled (lexer_identify_word
              (lexer_extract_operator_within 17
                 (lexer_by_tokens "fn main() { nop }"))).1
     = "fn main() { nop }").
Proof.
  exact (lexer_by_tokens_lossless 17 "fn main() { nop }" (or_introl eq_refl)).
Defined.

(** X23: for every source, the coarse segmentation loses no character other
    than a newline: without their newline characters, the texts of its
    tokens put together and the source are the same text; and so it is after
    operator extraction and after word identification, when the stack has
    room for as many nested activations of [yield_tokens] as the source has
    characters. *)
Theorem lexer_by_tokens_keeps_text (frames : nat) (src : string) :
  unlined (spelled (lexer_by_tokens src).1) = unlined src /\
  (String.length src <= frames ->
   unlined (spelled (lexer_identify_word
                       (lexer_extract_operator_within frames
                          (lexer_by_tokens src))).1)
     = unlined src).
Proof.
  assert (H1 : unlined (spelled (lexer_by_tokens src).1) = unlined src).
  { unfold lexer_by_tokens.
    rewrite (lexer_by_tokens_loop_unlined src _ 0) by lia.
    rewrite Nat.sub_0_r, substring_full. reflexivity. }
  split; [exact H1|]. intros Hlen.
  rewrite (lexer_extract_operator_within_source _ _ Hlen).
  unfold spelled at 1. rewrite lexer_identify_word_raw.
  fold (spelled (lexer_extract_operator (lexer_by_tokens src)).1).
  rewrite lexer_extract_operator_spelled. exact H1.
Qed.

(* ===================================================================== *)
(** * The parser on a bounded stack *)
(* ===================================================================== *)

Lemma bind_raises {A B} (m : M A) (k : A -> M B) (st : State) (e : Exn) :
  m st = Raises e -> bind m k st = Raises e.
Proof. unfold bind. intros ->. reflexivity. Qed.

(** A method that calls a [_parse_source] that returns more often returns
    more often. *)
Section Deeper.
Variables parse_source parse_source' : M nat.
Hypothesis parse_source_deeper : forall st r,
  parse_source st = Returns r -> parse_source' st = Returns r.

Lemma _parse_scope_deeper (st : State) (r : nat * State) :
  _parse_scope parse_source st = Returns r ->
  _parse_scope parse_source' st = Returns r.
Proof.
  unfold _parse_scope. intros H.
  apply bind_returns in H as (prev & st1 & H1 & H).
  rewrite (bind_eq _ _ _ _ _ H1).
  destruct (bool_decide (type prev <> LBRACE)); [discriminate|].
  apply bind_returns in H as (node & st2 & H2 & H).
  rewrite (bind_eq _ _ _ _ _ (parse_source_deeper _ _ H2)). exact H.
Qed.

Lemma _parse_block_deeper (prev : Token) (st : State) (r : nat * State) :
  _parse_block parse_source prev st = Returns r ->
  _parse_block parse_source' prev st = Returns r.
Proof.
  unfold _parse_block. destruct (type prev); try (intros H; exact H).
  unfold _parse_func_stmt. intros H.
  apply bind_returns in H as (node & st1 & H1 & H).
  rewrite (bind_eq _ _ _ _ _ H1).
  apply bind_returns in H as (head & st2 & H2 & H).
  rewrite (bind_eq _ _ _ _ _ H2).
  apply bind_returns in H as (u & st3 & H3 & H).
  rewrite (bind_eq _ _ _ _ _ H3).
  apply bind_returns in H as (scope & st4 & H4 & H).
  rewrite (bind_eq _ _ _ _ _ (_parse_scope_deeper _ _ H4)). exact H.
Qed.
End Deeper.

(** What [_parse_source] returns within some fuel, it returns on a stack
    with room for as many activations. *)
Lemma _parse_source_within_returns (depth : nat) (st : State)
    (r : nat * State) :
  _parse_source depth st = Returns r ->
  _parse_source_within depth st = Returns r.
Proof.
  revert st r. induction depth as [|depth IH]; intros st r H;
    [discriminate|].
  cbn [_parse_source _parse_source_within] in *.
  apply bind_returns in H as (root & st1 & H1 & H).
  rewrite (bind_eq _ _ _ _ _ H1).
  apply bind_returns in H as (prev & st2 & H2 & H).
  rewrite (bind_eq _ _ _ _ _ H2).
  apply bind_returns in H as (u & st3 & H3 & H).
  assert (H3' :
    match type prev with
    | RBRACE => set_next_token prev
    | _ => block <- _parse_block (_parse_source_within depth) prev ;;
           add root block ;; ret tt
    end st2 = Returns (u, st3)).
  { destruct (type prev); try exact H3;
      apply bind_returns in H3 as (block & st4 & H4 & H3);
      rewrite (bind_eq _ _ _ _ _ (_parse_block_deeper _ _ IH _ _ _ H4));
      exact H3. }
  rewrite (bind_eq _ _ _ _ _ H3'). exact H.
Qed.

Section Raises.
Variable parse_source : M nat.

Lemma _parse_block_fn_raises (f n lp rp lb : Token) (ts : list Token)
    (e : End) (h : Heap) (x : Exn) :
  type f = FN -> type n = NAME ->
  type lp = LPARENTHESES -> type rp = RPARENTHESES -> type lb = LBRACE ->
  parse_source
    (mkState (ts, e) []
       (ASTNode_add (h ++ [mkASTNode f None []; mkASTNode n None []])
          (length h) (S (length h))).1)
    = Raises x ->
  _parse_block parse_source f (mkState (n :: lp :: rp :: lb :: ts, e) [] h)
    = Raises x.
Proof.
  intros Hf Hn Hlp Hrp Hlb Hsrc.
  unfold _parse_block. rewrite Hf. unfold _parse_func_stmt.
  rewrite (bind_eq _ _ _ (mkState (n :: lp :: rp :: lb :: ts, e) []
                           (h ++ [mkASTNode f None []])) (length h))
    by reflexivity.
  rewrite (bind_eq _ _ _ _ _
             (_parse_func_head_accepts n lp rp lb ts e _ Hn Hlp Hrp
                ltac:(rewrite Hlb; discriminate))).
  rewrite length_app. cbn [length].
  replace (length h + 1) with (S (length h)) by lia.
  rewrite <- app_assoc. cbn [app].
  rewrite (bind_eq _ _ _
             (mkState (ts, e) [lb]
                (ASTNode_add (h ++ [mkASTNode f None []; mkASTNode n None []])
                   (length h) (S (length h))).1) (length h))
    by reflexivity.
  apply bind_raises. unfold _parse_scope.
  rewrite (bind_eq _ _ _
             (mkState (ts, e) []
                (ASTNode_add (h ++ [mkASTNode f None []; mkASTNode n None []])
                   (length h) (S (length h))).1) lb) by reflexivity.
  rewrite bool_decide_eq_false_2 by (intros H; apply H; exact Hlb).
  apply bind_raises. exact Hsrc.
Qed.
End Raises.

Lemma _parse_source_within_fn_raises (depth : nat) (f n lp rp lb : Token)
    (ts : list Token) (e : End) (h : Heap) (x : Exn) :
  type f = FN -> type n = NAME ->
  type lp = LPARENTHESES -> type rp = RPARENTHESES -> type lb = LBRACE ->
  (forall h', _parse_source_within depth (mkState (ts, e) [] h') = Raises x) ->
  _parse_source_within (S depth)
    (mkState (f :: n :: lp :: rp :: lb :: ts, e) [] h) = Raises x.
Proof.
  intros Hf Hn Hlp Hrp Hlb Hsrc. cbn [_parse_source_within].
  rewrite (bind_eq _ _ _ (mkState (f :: n :: lp :: rp :: lb :: ts, e) []
                           (h ++ [mkASTNode (mkToken "." ROOT) None []]))
             (length h)) by reflexivity.
  rewrite (bind_eq _ _ _ (mkState (n :: lp :: rp :: lb :: ts, e) []
                           (h ++ [mkASTNode (mkToken "." ROOT) None []]))
             f) by reflexivity.
  apply bind_raises. rewrite Hf. apply bind_raises.
  apply _parse_block_fn_raises; auto.
Qed.

(** A statement with as many scopes as the stack has room for levels, or
    more, exhausts the stack. *)
Lemma _parse_source_within_overflow (s : list Token) :
  statement s ->
  forall depth rest e h,
    depth <= scopes s ->
    _parse_source_within depth (mkState (s ++ rest, e) [] h)
      = Raises RecursionError.
Proof.
  induction 1 as [t Ht | f n lp rp lb rb Hf Hn Hlp Hrp Hlb Hrb
                       | f n lp rp lb body rb Hf Hn Hlp Hrp Hlb Hbody IH Hrb];
    intros depth rest e h Hdepth.
  - assert (scopes [t] = 0) as Hs
      by (unfold scopes; cbn; rewrite Ht; reflexivity).
    rewrite Hs in Hdepth. destruct depth; [reflexivity | lia].
  - pose proof (scopes_fn f n lp rp lb [] rb Hf Hn Hlp Hrp Hlb Hrb) as Hs.
    cbn [app] in Hs. change (scopes []) with 0 in Hs. rewrite Hs in Hdepth.
    destruct depth as [|depth]; [reflexivity|]. cbn [app].
    apply _parse_source_within_fn_raises; auto.
    intros h'. destruct depth; [reflexivity | lia].
  - rewrite scopes_fn in Hdepth by assumption.
    destruct depth as [|depth]; [reflexivity|].
    cbn [app]. rewrite <- app_assoc. cbn [app].
    apply _parse_source_within_fn_raises; auto.
    intros h'. apply IH. lia.
Qed.

(** X24: [parse] accepts statements and builds their trees, when the stack
    has room.  Let the tokens of the source start with a statement of the
    grammar (NOP, or FN NAME ( ) and a scope in braces that holds nothing or
    one statement).  When the stack has room for more nested activations of
    [_parse_source] than the statement has scopes, [parse] returns a new
    root, whose only child is the tree of that statement: its nodes hold the
    FN, NAME and NOP tokens of the statement, and a ROOT node stands for
    each scope; [parse] has read exactly the tokens of the statement and
    holds no token back: the tokens that follow stay in the stream.  When
    the stack has no room for that many, [parse] raises
    [RecursionError]. *)
Theorem parse_accepts (depth frames : nat) (h : Heap) (src : string)
    (s rest : list Token) :
  (lexer_within frames src).1 = s ++ rest -> statement s ->
  (scopes s < depth ->
   exists st c,
     parse_within depth frames h src = Returns (length h, st) /\
     _tokens st = (rest, (lexer_within frames src).2) /\
     _token_stack st = [] /\
     heap st !! length h = Some (mkASTNode (mkToken "." ROOT) None [c]) /\
     holds (heap st) s c) /\
  (depth <= scopes s ->
   parse_within depth frames h src = Raises RecursionError).
Proof.
  intros Hlex Hs. unfold parse_within.
  rewrite (surjective_pairing (lexer_within frames src)), Hlex.
  cbn [fst snd]. split; intros Hdepth.
  - destruct (_parse_source_builds s Hs depth rest
                (lexer_within frames src).2 h Hdepth)
      as (h' & c & H & Hroot & _ & Hc).
    apply _parse_source_within_returns in H.
    rewrite H. eexists _, c. repeat split; assumption.
  - apply _parse_source_within_overflow; assumption.
Qed.

Lemma parse_accepts_witness :
  (scopes [mkToken "fn" FN; mkToken "main" NAME; mkToken "(" LPARENTHESES;
           mkToken ")" RPARENTHESES; mkToken "{" LBRACE; mkToken "nop" NOP;
           mkToken "}" RBRACE] < 2 ->
   exists st c,
     parse_within 2 3 [] "fn main() { nop } nop" = Returns (0, st) /\
     _tokens st
       = ([mkToken "nop" NOP], (lexer_within 3 "fn main() { nop } nop").2) /\
     _token_stack st = [] /\
     heap st !! 0 = Some (mkASTNode (mkToken "." ROOT) None [c]) /\
     holds (heap st)
       [mkToken "fn" FN; mkToken "main" NAME; mkToken "(" LPARENTHESES;
        mkToken ")" RPARENTHESES; mkToken "{" LBRACE; mkToken "nop" NOP;
        mkToken "}" RBRACE] c) /\
  (2 <= scopes [mkToken "fn" FN; mkToken "main" NAME;
                mkToken "(" LPARENTHESES; mkToken ")" RPARENTHESES;
                mkToken "{" LBRACE; mkToken "nop" NOP; mkToken "}" RBRACE] ->
   parse_within 2 3 [] "fn main() { nop } nop" = Raises RecursionError).
Proof.
  exact (parse_accepts 2 3 [] "fn main() { nop } nop"
           [mkToken "fn" FN; mkToken "main" NAME; mkToken "(" LPARENTHESES;
            mkToken ")" RPARENTHESES; mkToken "{" LBRACE; mkToken "nop" NOP;
            mkToken "}" RBRACE]
           [mkToken "nop" NOP] eq_refl
           (statement_fn (mkToken "fn" FN) (mkToken "main" NAME)
              (mkToken "(" LPARENTHESES) (mkToken ")" RPARENTHESES)
              (mkToken "{" LBRACE) [mkToken "nop" NOP] (mkToken "}" RBRACE)
              eq_refl eq_refl eq_refl eq_refl eq_refl
              (statement_nop (mkToken "nop" NOP) eq_refl) eq_refl)).
Defined.
